(** * uyghur-utils: transliteration, script detection, normalization,
      numerals and slugs, with their properties

    The TypeScript sources are embedded as functions over UTF-16 strings.
    A string is the list of its 16-bit code units; the platform operations
    the sources call ([trim], [replaceAll], regular-expression replacement
    and test, iteration by code point, [lastIndexOf], [substring],
    [parseInt]) are written out below, the Unicode tables of the platform
    ([toLowerCase], [normalize]) are taken through the class [Unicode]. *)

From Stdlib Require Import Ascii String.
From Stdlib Require Import ZArith List Bool Lia.
From Stdlib Require Import Floats.SpecFloat.
Import ListNotations.
Open Scope Z_scope.
Open Scope list_scope.

(* ================================================================== *)
(** * Strings of UTF-16 code units *)
(* ================================================================== *)

Definition str := list Z.

(** The code units of an ASCII literal. *)
Definition utf16 (s : string) : str :=
  map (fun a => Z.of_N (N_of_ascii a)) (list_ascii_of_string s).

Definition between (lo hi c : Z) : bool := (lo <=? c) && (c <=? hi).

Fixpoint str_eqb (a b : str) : bool :=
  match a, b with
  | [], [] => true
  | x :: a', y :: b' => (x =? y) && str_eqb a' b'
  | _, _ => false
  end.

(** [if (!text)] on a string: only the empty string is falsy. *)
Definition falsy (s : str) : bool :=
  match s with [] => true | _ => false end.

(** [s.length] as a JavaScript number. *)
Definition len (s : str) : Z := Z.of_nat (length s).

(** ** Character classes of the regular expressions in the sources *)

(** [\s], which is also the set [String.prototype.trim] and [parseInt] strip:
    TAB, LF, VT, FF, CR, SPACE, NBSP, the Zs category, LS, PS and U+FEFF. *)
Definition is_ws (c : Z) : bool :=
  between 0x09 0x0D c || (c =? 0x20) || (c =? 0xA0) || (c =? 0x1680)
  || between 0x2000 0x200A c || (c =? 0x2028) || (c =? 0x2029)
  || (c =? 0x202F) || (c =? 0x205F) || (c =? 0x3000) || (c =? 0xFEFF).

Definition is_digit (c : Z) : bool := between 0x30 0x39 c.          (* [0-9] *)
Definition is_upper (c : Z) : bool := between 0x41 0x5A c.          (* [A-Z] *)
Definition is_lower (c : Z) : bool := between 0x61 0x7A c.          (* [a-z] *)
Definition is_letter (c : Z) : bool := is_lower c || is_upper c.    (* [a-zA-Z] *)
Definition is_alnum (c : Z) : bool := is_letter c || is_digit c.    (* [a-zA-Z0-9] *)

(** The punctuation class of the transliteration: full stop, comma,
    exclamation mark, question mark, semicolon, colon, apostrophe, double
    quote, parentheses and hyphen. *)
Definition is_punct (c : Z) : bool :=
  (c =? 0x2E) || (c =? 0x2C) || (c =? 0x21) || (c =? 0x3F) || (c =? 0x3B)
  || (c =? 0x3A) || (c =? 0x27) || (c =? 0x22) || (c =? 0x28) || (c =? 0x29)
  || (c =? 0x2D).

(** [re.test(s)] for a one-character class [cls]: some code unit is in it. *)
Definition test (cls : Z -> bool) (s : str) : bool := existsb cls s.

(** [s.replace(/[cls]/g, '')]: every code unit of the class is deleted. *)
Definition remove (cls : Z -> bool) (s : str) : str :=
  filter (fun c => negb (cls c)) s.

(** ** Iteration by code point: [for (const char of text)] *)

Definition is_high (c : Z) : bool := between 0xD800 0xDBFF c.
Definition is_low (c : Z) : bool := between 0xDC00 0xDFFF c.

(** The strings the iterator yields: a surrogate pair is one string of two
    code units, any other code unit (a lone surrogate too) a string of one. *)
Fixpoint chars (s : str) : list str :=
  match s with
  | [] => []
  | h :: t =>
      match t with
      | l :: t' => if is_high h && is_low l then [h; l] :: chars t'
                   else [h] :: chars t
      | [] => [[h]]
      end
  end.

(** The code points of a string, as numbers. *)
Fixpoint codepoints (s : str) : list Z :=
  match s with
  | [] => []
  | h :: t =>
      match t with
      | l :: t' =>
          if is_high h && is_low l
          then (0x10000 + (h - 0xD800) * 0x400 + (l - 0xDC00)) :: codepoints t'
          else h :: codepoints t
      | [] => [h]
      end
  end.

(** [char.charCodeAt(0)] of a non-empty string. *)
Definition charCodeAt0 (char : str) : Z := hd 0 char.

(** ** [trim], whitespace runs, [replaceAll] *)

Fixpoint trimStart (s : str) : str :=
  match s with
  | c :: t => if is_ws c then trimStart t else s
  | [] => []
  end.

Fixpoint trimEnd (s : str) : str :=
  match s with
  | [] => []
  | c :: t =>
      match trimEnd t with
      | [] => if is_ws c then [] else [c]
      | t' => c :: t'
      end
  end.

Definition trim (s : str) : str := trimEnd (trimStart s).

(** [s.replace(/\s+/g, by)]: [in_run] says that the previous code unit was
    whitespace, so that a maximal run is replaced once. *)
Fixpoint replace_ws_from (in_run : bool) (by_ : str) (s : str) : str :=
  match s with
  | [] => []
  | c :: t =>
      if is_ws c
      then (if in_run then [] else by_) ++ replace_ws_from true by_ t
      else c :: replace_ws_from false by_ t
  end.

Definition replace_ws_runs (by_ : str) (s : str) : str :=
  replace_ws_from false by_ s.

Definition starts_with (pat s : str) : bool :=
  str_eqb (firstn (length pat) s) pat.

(** [s.replaceAll(pat, to)] for a non-empty pattern and a replacement
    without [$]: the occurrences are taken left to right without overlap;
    [skip] counts the code units of an occurrence still to pass. *)
Fixpoint replaceAll_from (skip : nat) (pat to : str) (s : str) : str :=
  match s with
  | [] => []
  | c :: t =>
      match skip with
      | S k => replaceAll_from k pat to t
      | O =>
          if starts_with pat s
          then to ++ replaceAll_from (length pat - 1) pat to t
          else c :: replaceAll_from 0 pat to t
      end
  end.

Definition replaceAll (pat to : str) (s : str) : str :=
  replaceAll_from 0 pat to s.

(** [s.substring(0, n)] for an integer [n]: a negative [n] counts as 0, one
    past the end as the length. *)
Definition substring0 (s : str) (n : Z) : str := firstn (Z.to_nat n) s.

(** [s.lastIndexOf(pat)]: the largest index at which [pat] occurs, or -1. *)
Fixpoint lastIndexOf_from (s pat : str) (i : nat) : Z :=
  if starts_with pat (skipn i s) then Z.of_nat i
  else match i with
       | O => -1
       | S j => lastIndexOf_from s pat j
       end.

Definition lastIndexOf (s pat : str) : Z :=
  if (length pat <=? length s)%nat
  then lastIndexOf_from s pat (length s - length pat)
  else -1.

(** ** Objects used as tables: [Record<string, string>]

    The keys are kept in insertion order, which is the order of
    [Object.entries] for the tables below (their keys are single characters;
    the ten keys that are decimal digits were inserted in ascending order). *)

Definition table := list (str * str).

Fixpoint get (tbl : table) (key : str) : option str :=
  match tbl with
  | [] => None
  | (k, v) :: rest => if str_eqb k key then Some v else get rest key
  end.

Fixpoint set (tbl : table) (key value : str) : table :=
  match tbl with
  | [] => [(key, value)]
  | (k, v) :: rest =>
      if str_eqb k key then (k, value) :: rest else (k, v) :: set rest key value
  end.

(** [{ ...a, ...b }] *)
Definition spread (a b : table) : table :=
  fold_left (fun acc kv => set acc (fst kv) (snd kv)) b a.

Definition entries (tbl : table) : list (str * str) := tbl.

(** [if (mapped)]: [undefined] and the empty string are falsy. *)
Definition truthy (mapped : option str) : option str :=
  match mapped with
  | Some [] => None
  | other => other
  end.

(** ** The Unicode tables of the platform *)

(** Code units outside every cased script: the Arabic block, General
    Punctuation and U+FEFF. *)
Definition caseless (c : Z) : bool :=
  between 0x0600 0x06FF c || between 0x2000 0x206F c || (c =? 0xFEFF).

(** Lower casing in Latin-1: A-Z and the capitals U+00C0-U+00DE except the
    multiplication sign U+00D7. *)
Definition lower_latin1 (c : Z) : Z :=
  if is_upper c || (between 0xC0 0xDE c && negb (c =? 0xD7)) then c + 32 else c.

(** [String.prototype.toLowerCase] and [String.prototype.normalize] follow
    the Unicode Character Database, which is no part of the sources. They
    are operations of the platform, with the facts about lower casing the
    proofs below rest on: it is idempotent, it acts unit by unit on Latin-1
    text, and what it produces anew is a letter of a cased script. *)
Class Unicode := {
  toLowerCase : str -> str;
  normalizeNFC : str -> str;
  normalizeNFD : str -> str;
  toLowerCase_idempotent :
    forall s, toLowerCase (toLowerCase s) = toLowerCase s;
  toLowerCase_latin1 :
    forall s, forallb (between 0 0xFF) s = true ->
              toLowerCase s = map lower_latin1 s;
  toLowerCase_caseless :
    forall s c, caseless c = true -> In c (toLowerCase s) -> In c s
}.

(* ================================================================== *)
(** * constants/alphabet.ts *)
(* ================================================================== *)

(** Core Uyghur alphabet (32 letters), Arabic script to ULY. *)
Definition UYGHUR_ARABIC_TO_LATIN : table := Eval cbv in
  [ ([0x0627], utf16 "a");  ([0x06D5], utf16 "e");  ([0x0628], utf16 "b");
    ([0x067E], utf16 "p");  ([0x062A], utf16 "t");  ([0x062C], utf16 "j");
    ([0x0686], utf16 "ch"); ([0x062E], utf16 "x");  ([0x062F], utf16 "d");
    ([0x0631], utf16 "r");  ([0x0632], utf16 "z");  ([0x0698], utf16 "zh");
    ([0x0633], utf16 "s");  ([0x0634], utf16 "sh"); ([0x063A], utf16 "gh");
    ([0x0641], utf16 "f");  ([0x0642], utf16 "q");  ([0x0643], utf16 "k");
    ([0x06AD], utf16 "ng"); ([0x06AF], utf16 "g");  ([0x0644], utf16 "l");
    ([0x0645], utf16 "m");  ([0x0646], utf16 "n");  ([0x06BE], utf16 "h");
    ([0x0648], utf16 "o");  ([0x06C7], utf16 "u");  ([0x06C6], [0xF6]);
    ([0x06C8], [0xFC]);     ([0x06CB], utf16 "w");  ([0x06D0], [0xE9]);
    ([0x0649], utf16 "i");  ([0x064A], utf16 "y") ].

(** ULY to Arabic script. *)
Definition LATIN_TO_UYGHUR_ARABIC : table := Eval cbv in
  [ (utf16 "a", [0x0627]);  (utf16 "e", [0x06D5]);  (utf16 "b", [0x0628]);
    (utf16 "p", [0x067E]);  (utf16 "t", [0x062A]);  (utf16 "j", [0x062C]);
    (utf16 "ch", [0x0686]); (utf16 "x", [0x062E]);  (utf16 "d", [0x062F]);
    (utf16 "r", [0x0631]);  (utf16 "z", [0x0632]);  (utf16 "zh", [0x0698]);
    (utf16 "s", [0x0633]);  (utf16 "sh", [0x0634]); (utf16 "gh", [0x063A]);
    (utf16 "f", [0x0641]);  (utf16 "q", [0x0642]);  (utf16 "k", [0x0643]);
    (utf16 "ng", [0x06AD]); (utf16 "g", [0x06AF]);  (utf16 "l", [0x0644]);
    (utf16 "m", [0x0645]);  (utf16 "n", [0x0646]);  (utf16 "h", [0x06BE]);
    (utf16 "o", [0x0648]);  (utf16 "u", [0x06C7]);  ([0xF6], [0x06C6]);
    ([0xFC], [0x06C8]);     (utf16 "w", [0x06CB]);  ([0xE9], [0x06D0]);
    (utf16 "i", [0x0649]);  (utf16 "y", [0x064A]) ].

(** Hamza and the Arabic diacritics, mapped to the empty string. *)
Definition UYGHUR_SPECIAL_CHARS : table :=
  [ ([0x0626], []); ([0x0621], []);
    ([0x064B], []); ([0x064C], []); ([0x064D], []); ([0x064E], []);
    ([0x064F], []); ([0x0650], []); ([0x0651], []); ([0x0652], []) ].

(** Letters of Arabic and Persian loanwords. *)
Definition ARABIC_BORROWED_CHARS : table := Eval cbv in
  [ ([0x0639], []);         ([0x062D], utf16 "h"); ([0x0637], utf16 "t");
    ([0x0635], utf16 "s");  ([0x0636], utf16 "z"); ([0x062B], utf16 "s");
    ([0x0630], utf16 "z");  ([0x0638], utf16 "z") ].

Definition ARABIC_INDIC_NUMERALS : table := Eval cbv in
  [ ([0x0660], utf16 "0"); ([0x0661], utf16 "1"); ([0x0662], utf16 "2");
    ([0x0663], utf16 "3"); ([0x0664], utf16 "4"); ([0x0665], utf16 "5");
    ([0x0666], utf16 "6"); ([0x0667], utf16 "7"); ([0x0668], utf16 "8");
    ([0x0669], utf16 "9") ].

Definition WESTERN_TO_ARABIC_INDIC_NUMERALS : table := Eval cbv in
  [ (utf16 "0", [0x0660]); (utf16 "1", [0x0661]); (utf16 "2", [0x0662]);
    (utf16 "3", [0x0663]); (utf16 "4", [0x0664]); (utf16 "5", [0x0665]);
    (utf16 "6", [0x0666]); (utf16 "7", [0x0667]); (utf16 "8", [0x0668]);
    (utf16 "9", [0x0669]) ].

Definition EXTENDED_ARABIC_INDIC_NUMERALS : table := Eval cbv in
  [ ([0x06F0], utf16 "0"); ([0x06F1], utf16 "1"); ([0x06F2], utf16 "2");
    ([0x06F3], utf16 "3"); ([0x06F4], utf16 "4"); ([0x06F5], utf16 "5");
    ([0x06F6], utf16 "6"); ([0x06F7], utf16 "7"); ([0x06F8], utf16 "8");
    ([0x06F9], utf16 "9") ].

(** Complete mapping for transliteration (Arabic to Latin). *)
Definition COMPLETE_ARABIC_TO_LATIN : table := Eval cbv in
  spread (spread (spread (spread UYGHUR_ARABIC_TO_LATIN
                                 UYGHUR_SPECIAL_CHARS)
                         ARABIC_BORROWED_CHARS)
                 ARABIC_INDIC_NUMERALS)
         EXTENDED_ARABIC_INDIC_NUMERALS.

(** The alphabet in Arabic script order. *)
Definition UYGHUR_ALPHABET_ARABIC : list str :=
  [ [0x0627]; [0x06D5]; [0x0628]; [0x067E]; [0x062A]; [0x062C]; [0x0686];
    [0x062E]; [0x062F]; [0x0631]; [0x0632]; [0x0698]; [0x0633]; [0x0634];
    [0x063A]; [0x0641]; [0x0642]; [0x0643]; [0x06AD]; [0x06AF]; [0x0644];
    [0x0645]; [0x0646]; [0x06BE]; [0x0648]; [0x06C7]; [0x06C6]; [0x06C8];
    [0x06CB]; [0x06D0]; [0x0649]; [0x064A] ].

(** The alphabet in Latin (ULY) order. *)
Definition UYGHUR_ALPHABET_LATIN : list str := Eval cbv in
  [ utf16 "a"; utf16 "e"; utf16 "b"; utf16 "p"; utf16 "t"; utf16 "j";
    utf16 "ch"; utf16 "x"; utf16 "d"; utf16 "r"; utf16 "z"; utf16 "zh";
    utf16 "s"; utf16 "sh"; utf16 "gh"; utf16 "f"; utf16 "q"; utf16 "k";
    utf16 "ng"; utf16 "g"; utf16 "l"; utf16 "m"; utf16 "n"; utf16 "h";
    utf16 "o"; utf16 "u"; [0xF6]; [0xFC]; utf16 "w"; [0xE9]; utf16 "i";
    utf16 "y" ].

Definition UYGHUR_VOWELS_ARABIC : list str :=
  [ [0x0627]; [0x06D5]; [0x0648]; [0x06C7]; [0x06C6]; [0x06C8]; [0x06D0];
    [0x0649] ].

Definition UYGHUR_VOWELS_LATIN : list str := Eval cbv in
  [ utf16 "a"; utf16 "e"; utf16 "o"; utf16 "u"; [0xF6]; [0xFC]; [0xE9];
    utf16 "i" ].

Definition UYGHUR_CONSONANTS_ARABIC : list str :=
  [ [0x0628]; [0x067E]; [0x062A]; [0x062C]; [0x0686]; [0x062E]; [0x062F];
    [0x0631]; [0x0632]; [0x0698]; [0x0633]; [0x0634]; [0x063A]; [0x0641];
    [0x0642]; [0x0643]; [0x06AD]; [0x06AF]; [0x0644]; [0x0645]; [0x0646];
    [0x06BE]; [0x06CB]; [0x064A] ].

(* ================================================================== *)
(** * detect.ts *)
(* ================================================================== *)

Definition ARABIC_SCRIPT_RANGES : list (Z * Z) :=
  [ (0x0600, 0x06ff);   (* Arabic *)
    (0x0750, 0x077f);   (* Arabic Supplement *)
    (0xfb50, 0xfdff);   (* Arabic Presentation Forms-A *)
    (0xfe70, 0xfeff) ]. (* Arabic Presentation Forms-B *)

(** Hamza on yeh, ae, oe, ue, ve, e, i, ng and g. *)
Definition UYGHUR_SPECIFIC_CHARS : list str :=
  [ [0x0626]; [0x06D5]; [0x06C6]; [0x06C8]; [0x06CB]; [0x06D0]; [0x0649];
    [0x06AD]; [0x06AF] ].

Definition isArabicScriptChar (char : str) : bool :=
  let code := charCodeAt0 char in
  existsb (fun r => (fst r <=? code) && (code <=? snd r)) ARABIC_SCRIPT_RANGES.

Definition containsArabicScript (text : str) : bool :=
  if falsy text then false
  else existsb isArabicScriptChar (chars text).

Definition containsUyghurChars (text : str) : bool :=
  if falsy text then false
  else existsb (fun char => existsb (str_eqb char) UYGHUR_SPECIFIC_CHARS)
               (chars text).

Definition isLikelyUyghur (text : str) : bool :=
  containsArabicScript text && containsUyghurChars text.

Definition containsLatin (text : str) : bool :=
  if falsy text then false else test is_letter text.

Definition containsChinese (text : str) : bool :=
  if falsy text then false else test (between 0x4e00 0x9fff) text.

Definition containsCyrillic (text : str) : bool :=
  if falsy text then false else test (between 0x0400 0x04ff) text.

Module Script.
Inductive t :=
  uyghur | arabic | latin | chinese | cyrillic | mixed | unknown.
End Script.

Definition detectScript (text : str) : Script.t :=
  if falsy text || (len (trim text) =? 0) then Script.unknown
  else
    let hasArabic := containsArabicScript text in
    let hasUyghur := containsUyghurChars text in
    let hasLatin := containsLatin text in
    let hasChinese := containsChinese text in
    let hasCyrillic := containsCyrillic text in
    let scriptCount :=
      Z.of_nat (length (filter (fun b : bool => b)
                               [hasArabic; hasLatin; hasChinese; hasCyrillic])) in
    if scriptCount >? 1 then Script.mixed
    else if hasArabic then (if hasUyghur then Script.uyghur else Script.arabic)
    else if hasLatin then Script.latin
    else if hasChinese then Script.chinese
    else if hasCyrillic then Script.cyrillic
    else Script.unknown.

(* ================================================================== *)
(** * transliterate.ts *)
(* ================================================================== *)

(** One turn of the loop of [toULY]: what [char] adds to [result]. *)
Definition toULY_step (result : str) (char : str) : str :=
  match get COMPLETE_ARABIC_TO_LATIN char with
  | Some mapped => result ++ mapped
  | None =>
      if test is_ws char then result ++ [0x20]
      else if test is_alnum char then result ++ char
      else if test is_punct char then result ++ char
      else result
  end.

Definition toULY (text : str) : str :=
  if falsy text then []
  else
    let result := fold_left toULY_step (chars text) [] in
    trim (replace_ws_runs [0x20] result).

Definition arabicToLatin := toULY.

Definition MULTI_CHAR_LATIN : list str := Eval cbv in
  [ utf16 "ch"; utf16 "zh"; utf16 "sh"; utf16 "gh"; utf16 "ng" ].

(** The inner [for] of [toArabic] at the position where [rest] starts: the
    first sequence equal to the slice of its length whose mapping is truthy,
    with that mapping and the number of code units to advance. *)
Fixpoint match_multi (seqs : list str) (rest : str) : option (str * nat) :=
  match seqs with
  | [] => None
  | seq :: more =>
      if str_eqb (firstn (length seq) rest) seq
      then match truthy (get LATIN_TO_UYGHUR_ARABIC seq) with
           | Some mapped => Some (mapped, length seq)
           | None => match_multi more rest
           end
      else match_multi more rest
  end.

(** The single-character branch of [toArabic]. *)
Definition toArabic_char (char : Z) : str :=
  match truthy (get LATIN_TO_UYGHUR_ARABIC [char]) with
  | Some mapped => mapped
  | None =>
      if is_ws char then [0x20]
      else if is_digit char then [char]
      else if is_punct char then [char]
      else []
  end.

(** The [while] loop of [toArabic] over the rest of [lowerText]; [skip]
    counts the code units of a matched sequence that [i] still jumps. *)
Fixpoint toArabic_loop (skip : nat) (rest : str) : str :=
  match rest with
  | [] => []
  | char :: tail =>
      match skip with
      | S k => toArabic_loop k tail
      | O =>
          match match_multi MULTI_CHAR_LATIN rest with
          | Some (mapped, n) => mapped ++ toArabic_loop (n - 1) tail
          | None => toArabic_char char ++ toArabic_loop 0 tail
          end
      end
  end.

Record TransliterateOptions := {
  preserveCase : option bool;
  includeUnmapped : option bool
}.

(** The class tested by [transliterate]: U+0600-06FF, U+0750-077F,
    U+FB50-FDFF and U+FE70-FEFF. *)
Definition arabic_class (c : Z) : bool :=
  between 0x0600 0x06ff c || between 0x0750 0x077f c
  || between 0xfb50 0xfdff c || between 0xfe70 0xfeff c.

Section Transliterate.
Context {U : Unicode}.

Definition toArabic (text : str) : str :=
  if falsy text then []
  else
    let lowerText := toLowerCase text in
    trim (toArabic_loop 0 lowerText).

Definition latinToArabic := toArabic.

Definition transliterate (text : str) (_options : option TransliterateOptions)
  : str :=
  if falsy text then []
  else
    let hasArabic := test arabic_class text in
    if hasArabic then toULY text else toArabic text.

End Transliterate.

(* ================================================================== *)
(** * normalize.ts *)
(* ================================================================== *)

(** Forms of hamza, Arabic kaf, yeh and heh, and the zero-width characters
    ZWNJ, ZWJ, LRM, RLM and BOM. *)
Definition CHAR_NORMALIZATIONS : table :=
  [ ([0x0623], [0x0626; 0x0627]);
    ([0x0625], [0x0626; 0x0627]);
    ([0x0622], [0x0626; 0x0627]);
    ([0x06A9], [0x0643]);
    ([0x06CC], [0x064A]);
    ([0x0647], [0x06BE]);
    ([0x200C], []);
    ([0x200D], []);
    ([0x200E], []);
    ([0x200F], []);
    ([0xFEFF], []) ].

(** The class of [removeDiacritics]: U+064B-U+0652. *)
Definition is_diacritic (c : Z) : bool := between 0x064b 0x0652 c.

(** The class of [removeHamza]: U+0626, U+0621, U+0623, U+0625, U+0622,
    U+0624. *)
Definition is_hamza (c : Z) : bool :=
  (c =? 0x0626) || (c =? 0x0621) || (c =? 0x0623) || (c =? 0x0625)
  || (c =? 0x0622) || (c =? 0x0624).

(** The punctuation class of [normalizeForSearch]: the ASCII marks
    . , ! ? ; : ' and the double quote, ( ) [ ] { } < >, the guillemets, and
    the Arabic comma, semicolon and question mark. *)
Definition is_search_punct (c : Z) : bool :=
  (c =? 0x2E) || (c =? 0x2C) || (c =? 0x21) || (c =? 0x3F) || (c =? 0x3B)
  || (c =? 0x3A) || (c =? 0x27) || (c =? 0x22) || (c =? 0x28) || (c =? 0x29)
  || (c =? 0x5B) || (c =? 0x5D) || (c =? 0x7B) || (c =? 0x7D) || (c =? 0x3C)
  || (c =? 0x3E) || (c =? 0xAB) || (c =? 0xBB) || (c =? 0x060C)
  || (c =? 0x061B) || (c =? 0x061F).

Definition removeDiacritics (text : str) : str :=
  if falsy text then [] else remove is_diacritic text.

Definition removeHamza (text : str) : str :=
  if falsy text then [] else remove is_hamza text.

Section Normalize.
Context {U : Unicode}.

Definition normalizeUyghur (text : str) : str :=
  if falsy text then []
  else
    let result := normalizeNFC text in
    let result :=
      fold_left (fun result '(from, to) => replaceAll from to result)
                (entries CHAR_NORMALIZATIONS) result in
    let result := replace_ws_runs [0x20] result in
    trim result.

Definition normalizeForSearch (text : str) : str :=
  if falsy text then []
  else
    let result := normalizeUyghur text in
    let result := removeDiacritics result in
    let result := removeHamza result in
    let result := toLowerCase result in
    let result := remove is_search_punct result in
    trim (replace_ws_runs [0x20] result).

Definition areEquivalent (text1 text2 : str) : bool :=
  str_eqb (normalizeForSearch text1) (normalizeForSearch text2).

End Normalize.

(** [s.replace(/[ \t]+/g, ' ')]: a maximal run of spaces and tabs becomes one
    space; [in_run] says that the previous code unit was one of them. *)
Fixpoint squeeze_blanks_from (in_run : bool) (s : str) : str :=
  match s with
  | [] => []
  | c :: t =>
      if (c =? 0x20) || (c =? 0x09)
      then (if in_run then [] else [0x20]) ++ squeeze_blanks_from true t
      else c :: squeeze_blanks_from false t
  end.

(** [s.replace(/\n{3,}/g, '\n\n')]: of a maximal run of line feeds the first
    two are kept; [run] counts the line feeds directly before. *)
Fixpoint limit_newlines_from (run : nat) (s : str) : str :=
  match s with
  | [] => []
  | c :: t =>
      if c =? 0x0A
      then (if (run <? 2)%nat then [0x0A] else []) ++ limit_newlines_from (S run) t
      else c :: limit_newlines_from 0 t
  end.

(** The third replacement, of [^\s+|\s+$] by the empty string, deletes the
    whitespace run at the start and the one at the end: the class [\s] is
    the set that [trim] strips. *)
Definition trimAndNormalize (text : str) : str :=
  if falsy text then []
  else
    let s := replaceAll [0x0D; 0x0A] [0x0A] text in
    let s := replaceAll [0x0D] [0x0A] s in
    let s := trim s in
    let s := squeeze_blanks_from false s in
    limit_newlines_from 0 s.

(* ================================================================== *)
(** * Double-precision numbers *)
(* ================================================================== *)

(** The numbers of the sources are binary64 doubles: [parseInt] rounds the
    integer it reads to the nearest double, and [options.maxLength * 0.7] is
    a product of doubles, which is not the rational product ([90 * 0.7] is
    [62.99999999999999]). The binary64 operations of the Standard Library's
    [SpecFloat] are used as they are. *)

Definition double := spec_float.
(** The double nearest to the integer [n], the even one of two that are
    equally near, and an infinity beyond the largest double. *)
Definition double_of_Z (n : Z) : double := binary_normalize 53 1024 n 0 false.
(** The literal [0.7]: [0x1.6666666666666p-1]. *)
Definition double_0_7 : double := S754_finite false 6305039478318694 (-53).
Definition double_mul : double -> double -> double := SFmul 53 1024.
Definition double_gt (a b : double) : bool := SFltb b a.

(* ================================================================== *)
(** * numbers.ts *)
(* ================================================================== *)

Definition toWesternNumerals (text : str) : str :=
  if falsy text then []
  else
    let result := text in
    let result :=
      fold_left (fun result '(arabic_, western_) => replaceAll arabic_ western_ result)
                (entries ARABIC_INDIC_NUMERALS) result in
    let result :=
      fold_left (fun result '(extended_, western_) => replaceAll extended_ western_ result)
                (entries EXTENDED_ARABIC_INDIC_NUMERALS) result in
    result.

Definition toArabicIndicNumerals (text : str) : str :=
  if falsy text then []
  else
    fold_left (fun result '(western_, arabic_) => replaceAll western_ arabic_ result)
              (entries WESTERN_TO_ARABIC_INDIC_NUMERALS) text.

(** A JavaScript number as [parseInt] yields it: [NaN], an infinity, or a
    double that is an integer, given by its sign and its magnitude (the sign
    is kept apart because of [-0]). *)
Inductive number :=
| NaN
| Infinity (negative : bool)
| Integer (negative : bool) (magnitude : Z).

(** The Number value of [x] with the sign [negative], for an integer [x]
    that is not negative: the double nearest to [x], which is [x] itself up
    to 2^53 and an infinity beyond the largest double. The magnitude of the
    finite double with mantissa [m] and exponent [e] is [m * 2^e]. *)
Definition number_of_integer (negative : bool) (x : Z) : number :=
  match double_of_Z x with
  | S754_zero _ => Integer negative 0
  | S754_finite _ m e => Integer negative (Z.shiftl (Z.pos m) e)
  | S754_infinity _ => Infinity negative
  | S754_nan => NaN
  end.

(** The longest prefix of decimal digits. *)
Fixpoint digit_prefix (s : str) : str :=
  match s with
  | c :: t => if is_digit c then c :: digit_prefix t else []
  | [] => []
  end.

Definition decimal_value (digits : str) : Z :=
  fold_left (fun acc c => 10 * acc + (c - 0x30)) digits 0.

(** [parseInt(string, 10)]: leading whitespace is stripped, one sign is
    read, the longest run of decimal digits is the integer read, which is
    returned as a Number value with that sign; no digit at all gives
    [NaN]. *)
Definition parseInt10 (string : str) : number :=
  let S := trimStart string in
  let negative := match S with c :: _ => c =? 0x2D | [] => false end in
  let S := match S with
           | c :: rest => if (c =? 0x2B) || (c =? 0x2D) then rest else S
           | [] => S
           end in
  match digit_prefix S with
  | [] => NaN
  | digits => number_of_integer negative (decimal_value digits)
  end.

Definition parseNumber (text : str) : number :=
  if falsy text then NaN
  else
    let western := toWesternNumerals (trim text) in
    parseInt10 western.

(** The class of [containsArabicIndicNumerals]: U+0660-U+0669 and
    U+06F0-U+06F9. *)
Definition containsArabicIndicNumerals (text : str) : bool :=
  if falsy text then false
  else test (fun c => between 0x0660 0x0669 c || between 0x06F0 0x06F9 c) text.

Definition containsWesternNumerals (text : str) : bool :=
  if falsy text then false else test is_digit text.

(** The matches of [\d+] with the global flag: the maximal runs of decimal
    digits, from left to right; [run] is the run read so far. *)
Fixpoint digit_runs_from (run : str) (s : str) : list str :=
  match s with
  | [] => match run with [] => [] | _ => [run] end
  | c :: t =>
      if is_digit c then digit_runs_from (run ++ [c]) t
      else match run with
           | [] => digit_runs_from [] t
           | _ => run :: digit_runs_from [] t
           end
  end.

(** [s.match(/\d+/g)]: [null] when nothing matches. *)
Definition match_digits (s : str) : option (list str) :=
  match digit_runs_from [] s with
  | [] => None
  | matches => Some matches
  end.

Definition extractNumbers (text : str) : list number :=
  if falsy text then []
  else
    let westernText := toWesternNumerals text in
    match match_digits westernText with
    | None => []
    | Some matches => map parseInt10 matches
    end.

(** The decimal digits of [n], the most significant first, written before
    [acc]; [fuel] bounds their number. *)
Fixpoint decimal_digits (fuel : nat) (n : Z) (acc : str) : str :=
  match fuel with
  | O => acc
  | S k =>
      let acc := (0x30 + n mod 10) :: acc in
      if n <? 10 then acc else decimal_digits k (n / 10) acc
  end.

(** [String(num)]: [NaN] is written NaN, an infinity Infinity after its
    sign, an integer with its decimal digits, after a minus sign when it is
    below zero; both zeros are written 0. The digits are those of the
    integer up to 2^53; beyond, the platform writes the shortest digits that
    read back as the same double, and the model gives no result. *)
Definition ToString (num : number) : option str :=
  match num with
  | NaN => Some (utf16 "NaN")
  | Infinity negative =>
      Some ((if negative then [0x2D] else []) ++ utf16 "Infinity")
  | Integer negative magnitude =>
      if (0 <=? magnitude) && (magnitude <=? 2 ^ 53)
      then Some ((if negative && (0 <? magnitude) then [0x2D] else [])
                 ++ decimal_digits 16 magnitude [])
      else None
  end.

Module NumeralSystem.
Inductive t := western | arabic_indic.
End NumeralSystem.

(** [system] is [None] when the argument is left out; its default is
    [western]. *)
Definition formatNumber (num : number) (system : option NumeralSystem.t)
  : option str :=
  let system :=
    match system with Some given => given | None => NumeralSystem.western end in
  match ToString num with
  | None => None
  | Some str_ =>
      match system with
      | NumeralSystem.arabic_indic => Some (toArabicIndicNumerals str_)
      | NumeralSystem.western => Some str_
      end
  end.

(* ================================================================== *)
(** * slug.ts *)
(* ================================================================== *)

(** [SlugOptions]: every field is optional; [maxLength] is an integer. *)
Module SlugOptions.
Record t := {
  maxLength : option Z;
  separator : option str;
  lowercase : option bool;
  trim : option bool
}.
End SlugOptions.

(** [Required<SlugOptions>]. [maxLength] ranges over the integers, the
    lengths that the option is meant for; slug.ts declares it a number, and
    a value with a fraction is outside the model. *)
Module RequiredSlugOptions.
Record t := {
  maxLength : Z;
  separator : str;
  lowercase : bool;
  trim : bool
}.
End RequiredSlugOptions.

Definition DEFAULT_OPTIONS : RequiredSlugOptions.t :=
  {| RequiredSlugOptions.maxLength := 100;
     RequiredSlugOptions.separator := [0x2D];
     RequiredSlugOptions.lowercase := true;
     RequiredSlugOptions.trim := true |}.

(** [{ ...defaults, ...options }] *)
Definition spread_options (defaults : RequiredSlugOptions.t)
  (options : option SlugOptions.t) : RequiredSlugOptions.t :=
  match options with
  | None => defaults
  | Some o =>
      let pick {A} (given : option A) (d : A) : A :=
        match given with Some v => v | None => d end in
      {| RequiredSlugOptions.maxLength :=
           pick (SlugOptions.maxLength o) (RequiredSlugOptions.maxLength defaults);
         RequiredSlugOptions.separator :=
           pick (SlugOptions.separator o) (RequiredSlugOptions.separator defaults);
         RequiredSlugOptions.lowercase :=
           pick (SlugOptions.lowercase o) (RequiredSlugOptions.lowercase defaults);
         RequiredSlugOptions.trim :=
           pick (SlugOptions.trim o) (RequiredSlugOptions.trim defaults) |}
  end.

(** ** The regular expressions built from the separator

    [slugifyLatin] splices [options.separator] into three patterns. The model
    covers a separator of one ASCII character that is no syntax character of
    a pattern (the default hyphen, an underscore, ...), which then stands for
    itself in all three; for any other separator the patterns mean something
    else or do not compile, and the model gives no result. *)

Definition regexp_syntax_char (c : Z) : bool :=
  existsb (Z.eqb c)
    [0x5E; 0x24; 0x5C; 0x2E; 0x2A; 0x2B; 0x3F; 0x28; 0x29; 0x5B; 0x5D; 0x7B;
     0x7D; 0x7C].

Definition literal_separator (separator : str) : option Z :=
  match separator with
  | [c] => if between 0 0x7F c && negb (regexp_syntax_char c) then Some c
           else None
  | _ => None
  end.

(** [slug.replace(new RegExp(sep + '+', 'g'), sep)] *)
Fixpoint squeeze_from (in_run : bool) (sep : Z) (s : str) : str :=
  match s with
  | [] => []
  | c :: t =>
      if c =? sep
      then (if in_run then [] else [sep]) ++ squeeze_from true sep t
      else c :: squeeze_from false sep t
  end.

(** [slug.replace(new RegExp('^' + sep + '|' + sep + '$', 'g'), '')]: one
    separator at the start and one at the end are deleted. *)
Definition strip_ends (sep : Z) (s : str) : str :=
  let s1 := match s with
            | c :: t => if c =? sep then t else s
            | [] => []
            end in
  match rev s1 with
  | c :: t => if c =? sep then rev t else s1
  | [] => s1
  end.

(** Lines 68-76 of slug.ts: the truncation at the end of [slugifyLatin]. *)
Definition slug_truncate (slug : str) (options : RequiredSlugOptions.t) : str :=
  let maxLength := RequiredSlugOptions.maxLength options in
  if len slug >? maxLength then
    let slug := substring0 slug maxLength in
    let lastSeparator := lastIndexOf slug (RequiredSlugOptions.separator options) in
    if double_gt (double_of_Z lastSeparator)
                 (double_mul (double_of_Z maxLength) double_0_7)
    then substring0 slug lastSeparator
    else slug
  else slug.

Section Slug.
Context {U : Unicode}.

(** Lines 38-66 of slug.ts: [slugifyLatin] up to the truncation, for the
    separator character [sep]. *)
Definition slug_filter (text : str) (sep : Z) (options : RequiredSlugOptions.t)
  : str :=
  let slug := text in
  let slug := normalizeNFD slug in
  let slug := remove (between 0x0300 0x036f) slug in
  let slug := if RequiredSlugOptions.lowercase options
              then toLowerCase slug else slug in
  let slug := replace_ws_runs [sep] slug in
  let slug := filter (fun c => is_alnum c || (c =? sep)) slug in
  let slug := squeeze_from false sep slug in
  let slug := if RequiredSlugOptions.trim options
              then strip_ends sep slug else slug in
  slug.

Definition slugifyLatin (text : str) (options : RequiredSlugOptions.t)
  : option str :=
  match literal_separator (RequiredSlugOptions.separator options) with
  | Some sep => Some (slug_truncate (slug_filter text sep options) options)
  | None => None
  end.

Definition generateSlug (text : str) (options : option SlugOptions.t)
  : option str :=
  if falsy text then Some []
  else
    let opts := spread_options DEFAULT_OPTIONS options in
    let processedText := trim text in
    let processedText :=
      if containsArabicScript processedText then toULY processedText
      else processedText in
    slugifyLatin processedText opts.

Definition slugify := generateSlug.

Definition sanitizeSlug (slug : str) (options : option SlugOptions.t)
  : option str :=
  if falsy slug then Some []
  else
    let opts := spread_options DEFAULT_OPTIONS options in
    match literal_separator (RequiredSlugOptions.separator opts) with
    | None => None
    | Some sep =>
        let sanitized := slug in
        let sanitized := if RequiredSlugOptions.lowercase opts
                         then toLowerCase sanitized else sanitized in
        let sanitized := filter (fun c => is_alnum c || (c =? sep)) sanitized in
        let sanitized := squeeze_from false sep sanitized in
        let sanitized := if RequiredSlugOptions.trim opts
                         then strip_ends sep sanitized else sanitized in
        Some sanitized
    end.

End Slug.

(** The options of [isValidSlug]. *)
Module ValidSlugOptions.
Record t := { separator : option str }.
End ValidSlugOptions.

(** [isValidSlug] splices the separator into a character class only, after
    the range of the digits and before the closing bracket. There the empty
    separator adds nothing to the class and any one ASCII character other
    than the backslash and the closing bracket adds itself; the model covers
    these separators. *)
Definition class_separator (separator : str) : option (Z -> bool) :=
  match separator with
  | [] => Some (fun _ => false)
  | [c] => if between 0 0x7F c && negb ((c =? 0x5C) || (c =? 0x5D))
           then Some (Z.eqb c) else None
  | _ => None
  end.

(** The pattern has two alternatives, both anchored at the start and at the
    end: a lower-case letter or digit, any number of these or separators,
    and a lower-case letter or digit; or one lower-case letter or digit. *)
Definition isValidSlug (slug : str) (options : option ValidSlugOptions.t)
  : option bool :=
  if falsy slug then Some false
  else
    let separator :=
      match options with
      | Some {| ValidSlugOptions.separator := Some given |} => given
      | _ => [0x2D]
      end in
    match class_separator separator with
    | None => None
    | Some in_separator =>
        let unit c := is_lower c || is_digit c in
        Some match slug with
             | [] => false
             | [c] => unit c
             | c :: rest =>
                 unit c
                 && forallb (fun x => unit x || in_separator x) (removelast rest)
                 && unit (last rest 0)
             end
    end.

(* ================================================================== *)
(** * detect.ts: the direction of a text *)
(* ================================================================== *)

Definition double_div : double -> double -> double := SFdiv 53 1024.
(** The literal [0.5]. *)
Definition double_0_5 : double := S754_finite false 4503599627370496 (-53).

(** One turn of the loop of [isPrimarilyArabicScript]. The two counters are
    integers below 2^53, the bound on the length of a string, so that
    adding one to them is exact. *)
Definition count_step (counts : Z * Z) (char : str) : Z * Z :=
  let '(arabicCount, totalLetters) := counts in
  if test is_ws char then counts
  else
    let totalLetters := totalLetters + 1 in
    let arabicCount :=
      if isArabicScriptChar char then arabicCount + 1 else arabicCount in
    (arabicCount, totalLetters).

Definition isPrimarilyArabicScript (text : str) : bool :=
  if falsy text then false
  else
    let '(arabicCount, totalLetters) :=
      fold_left count_step (chars text) (0, 0) in
    (totalLetters >? 0)
    && double_gt (double_div (double_of_Z arabicCount) (double_of_Z totalLetters))
                 double_0_5.

Definition isRTL (text : str) : bool :=
  containsArabicScript text && isPrimarilyArabicScript text.

Module Direction.
Inductive t := rtl | ltr.
End Direction.

Definition getTextDirection (text : str) : Direction.t :=
  if isRTL text then Direction.rtl else Direction.ltr.

(* ================================================================== *)
(** * A small Unicode instance, to run the functions on examples *)
(* ================================================================== *)

(** The theorems below hold for every instance of [Unicode]. To run the
    functions on concrete texts one instance is written out: it knows the
    case pairs of Latin-1 and the canonical pairs of Latin-1 and of the
    Arabic block, and on the texts of the examples (Basic Latin, Latin-1 and
    Arabic letters, a combining mark only directly after its base letter)
    each of its results is the platform's. *)

(** Canonical pairs: a letter, the combining mark that follows it, and the
    letter they compose to (and that decomposes to them). *)
Definition canonical_pairs : list (Z * Z * Z) :=
  [ (0x0041, 0x0300, 0x00C0); (0x0041, 0x0301, 0x00C1); (0x0041, 0x0302, 0x00C2);
    (0x0041, 0x0303, 0x00C3); (0x0041, 0x0308, 0x00C4); (0x0041, 0x030A, 0x00C5);
    (0x0043, 0x0327, 0x00C7); (0x0045, 0x0300, 0x00C8); (0x0045, 0x0301, 0x00C9);
    (0x0045, 0x0302, 0x00CA); (0x0045, 0x0308, 0x00CB); (0x0049, 0x0300, 0x00CC);
    (0x0049, 0x0301, 0x00CD); (0x0049, 0x0302, 0x00CE); (0x0049, 0x0308, 0x00CF);
    (0x004E, 0x0303, 0x00D1); (0x004F, 0x0300, 0x00D2); (0x004F, 0x0301, 0x00D3);
    (0x004F, 0x0302, 0x00D4); (0x004F, 0x0303, 0x00D5); (0x004F, 0x0308, 0x00D6);
    (0x0055, 0x0300, 0x00D9); (0x0055, 0x0301, 0x00DA); (0x0055, 0x0302, 0x00DB);
    (0x0055, 0x0308, 0x00DC); (0x0059, 0x0301, 0x00DD); (0x0061, 0x0300, 0x00E0);
    (0x0061, 0x0301, 0x00E1); (0x0061, 0x0302, 0x00E2); (0x0061, 0x0303, 0x00E3);
    (0x0061, 0x0308, 0x00E4); (0x0061, 0x030A, 0x00E5); (0x0063, 0x0327, 0x00E7);
    (0x0065, 0x0300, 0x00E8); (0x0065, 0x0301, 0x00E9); (0x0065, 0x0302, 0x00EA);
    (0x0065, 0x0308, 0x00EB); (0x0069, 0x0300, 0x00EC); (0x0069, 0x0301, 0x00ED);
    (0x0069, 0x0302, 0x00EE); (0x0069, 0x0308, 0x00EF); (0x006E, 0x0303, 0x00F1);
    (0x006F, 0x0300, 0x00F2); (0x006F, 0x0301, 0x00F3); (0x006F, 0x0302, 0x00F4);
    (0x006F, 0x0303, 0x00F5); (0x006F, 0x0308, 0x00F6); (0x0075, 0x0300, 0x00F9);
    (0x0075, 0x0301, 0x00FA); (0x0075, 0x0302, 0x00FB); (0x0075, 0x0308, 0x00FC);
    (0x0079, 0x0301, 0x00FD); (0x0079, 0x0308, 0x00FF); (0x0627, 0x0653, 0x0622);
    (0x0627, 0x0654, 0x0623); (0x0648, 0x0654, 0x0624); (0x0627, 0x0655, 0x0625);
    (0x064A, 0x0654, 0x0626); (0x06D5, 0x0654, 0x06C0); (0x06C1, 0x0654, 0x06C2);
    (0x06D2, 0x0654, 0x06D3) ].

Definition compose (base mark : Z) : option Z :=
  option_map snd
    (find (fun e => (fst (fst e) =? base) && (snd (fst e) =? mark))
          canonical_pairs).

Definition decompose (c : Z) : str :=
  match find (fun e => snd e =? c) canonical_pairs with
  | Some e => [fst (fst e); snd (fst e)]
  | None => [c]
  end.

Fixpoint compose_pairs (s : str) : str :=
  match s with
  | [] => []
  | base :: t =>
      match t with
      | mark :: t' =>
          match compose base mark with
          | Some c => c :: compose_pairs t'
          | None => base :: compose_pairs t
          end
      | [] => [base]
      end
  end.

Definition reference_toLowerCase (s : str) : str := map lower_latin1 s.
Definition reference_normalizeNFC (s : str) : str := compose_pairs s.
Definition reference_normalizeNFD (s : str) : str := flat_map decompose s.

(* ================================================================== *)
(** * Definitions that follow the specification's words *)
(* ================================================================== *)

(** A core Uyghur Arabic letter: a key of the 32-letter core map. *)
Definition core_letter (c : Z) : bool :=
  existsb (fun kv => str_eqb (fst kv) [c]) UYGHUR_ARABIC_TO_LATIN.

(** A character of a core text: a core letter or the space. *)
Definition core_char (c : Z) : bool := core_letter c || (c =? 0x20).

(** A text of core letters and spaces. *)
Definition core_text (t : str) : bool := forallb core_char t.

(** Whitespace normalization: runs of whitespace collapsed to one space, and
    the ends trimmed. *)
Definition normalize_whitespace (t : str) : str :=
  trim (replace_ws_runs [0x20] t).

(** Two adjacent letters whose Latin forms run together: [x] is written with
    one Latin letter, and that letter followed by the first Latin letter of
    [y] is one of the sequences of [MULTI_CHAR_LATIN]. *)
Definition ambiguous_pair (x y : Z) : bool :=
  match get UYGHUR_ARABIC_TO_LATIN [x], get UYGHUR_ARABIC_TO_LATIN [y] with
  | Some [a], Some (b :: _) => existsb (str_eqb [a; b]) MULTI_CHAR_LATIN
  | _, _ => false
  end.

(** A text without two adjacent letters that make an ambiguous pair. *)
Fixpoint unambiguous (t : str) : bool :=
  match t with
  | x :: rest =>
      match rest with
      | y :: _ => negb (ambiguous_pair x y) && unambiguous rest
      | [] => true
      end
  | [] => true
  end.

(** The ambiguous pairs: seen, ze or gaf before he (s+h, z+h, g+h), and nun
    before gaf or ghain (n+g, n+gh). *)
Definition ambiguous_pairs : list (Z * Z) :=
  [ (0x0633, 0x06BE); (0x0632, 0x06BE); (0x06AF, 0x06BE);
    (0x0646, 0x06AF); (0x0646, 0x063A) ].

(** A Uyghur-specific character: one of the nine of
    [UYGHUR_SPECIFIC_CHARS], as a code point. *)
Definition uyghur_specific (cp : Z) : bool :=
  existsb (Z.eqb cp)
    [0x0626; 0x06D5; 0x06C6; 0x06C8; 0x06CB; 0x06D0; 0x0649; 0x06AD; 0x06AF].

(** More than one of four flags holds: some two of them hold. *)
Definition more_than_one (a b c d : bool) : bool :=
  (a && b) || (a && c) || (a && d) || (b && c) || (b && d) || (c && d).

(** The classifier as the specification words it, over the code points of
    the text: [unknown] for an empty or all-whitespace text; else [mixed]
    when more than one of the flags Arabic, Latin, Chinese, Cyrillic holds;
    else [uyghur] or [arabic] for Arabic script, with or without a
    Uyghur-specific character; else the single flag that holds; else
    [unknown]. *)
Definition detectScript_spec (text : str) : Script.t :=
  let cps := codepoints text in
  if forallb is_ws cps then Script.unknown
  else
    let a := existsb arabic_class cps in
    let l := existsb is_letter cps in
    let c := existsb (between 0x4E00 0x9FFF) cps in
    let y := existsb (between 0x0400 0x04FF) cps in
    if more_than_one a l c y then Script.mixed
    else if a then (if existsb uyghur_specific cps then Script.uyghur
                    else Script.arabic)
    else if l then Script.latin
    else if c then Script.chinese
    else if y then Script.cyrillic
    else Script.unknown.

(** A text without its sign, when it starts with one. *)
Definition unsigned (s : str) : str :=
  match s with
  | c :: rest => if (c =? 0x2B) || (c =? 0x2D) then rest else s
  | [] => []
  end.

(** The text starts with a minus sign. *)
Definition signed_negative (s : str) : bool :=
  match s with c :: _ => c =? 0x2D | [] => false end.

(** A base-10 integer literal: an optional sign, then decimal digits and
    nothing else. *)
Definition integer_literal (s : str) : bool :=
  negb (falsy (unsigned s)) && forallb is_digit (unsigned s).

(** [pat] occurs in [s] at index [k]. *)
Definition occurs_at (pat s : str) (k : nat) : Prop :=
  (k + length pat <= length s)%nat /\ firstn (length pat) (skipn k s) = pat.

(** [k] is the index of the last occurrence of [pat] in [s]. *)
Definition last_occurrence (pat s : str) (k : nat) : Prop :=
  occurs_at pat s k /\ forall j, occurs_at pat s j -> (j <= k)%nat.

(** The cut the specification describes: taken when the last separator of
    the truncated slug is at or after position 0.7 * maxLength. *)
Definition slug_truncate_claimed (slug : str) (options : RequiredSlugOptions.t)
  : str :=
  let maxLength := RequiredSlugOptions.maxLength options in
  if len slug >? maxLength then
    let slug := substring0 slug maxLength in
    let lastSeparator := lastIndexOf slug (RequiredSlugOptions.separator options) in
    if (0 <=? lastSeparator) && (7 * maxLength <=? 10 * lastSeparator)
    then substring0 slug lastSeparator
    else slug
  else slug.

(** The options of [generateSlug(t, {maxLength})]. *)
Definition only_maxLength (maxLength : Z) : option SlugOptions.t :=
  Some {| SlugOptions.maxLength := Some maxLength;
          SlugOptions.separator := None;
          SlugOptions.lowercase := None;
          SlugOptions.trim := None |}.

(** The alphabet of ULY output: ASCII letters and digits, the space, the
    punctuation of the transliteration, and the letters o and u with
    diaeresis and e with acute. *)
Definition uly_alphabet (c : Z) : bool :=
  is_alnum c || (c =? 0x20) || is_punct c
  || (c =? 0xF6) || (c =? 0xFC) || (c =? 0xE9).

(** The alphabet of [toArabic] output: the core Arabic letters, the space,
    ASCII digits and the punctuation of the transliteration. *)
Definition arabic_alphabet (c : Z) : bool :=
  core_letter c || (c =? 0x20) || is_digit c || is_punct c.

(** The Arabic-Indic digits U+0660-0669 and the Extended Arabic-Indic
    digits U+06F0-06F9. *)
Definition arabic_indic_digit (c : Z) : bool := between 0x0660 0x0669 c.
Definition extended_arabic_indic_digit (c : Z) : bool := between 0x06F0 0x06F9 c.

(** A text without Arabic-Indic and Extended Arabic-Indic digits. *)
Definition no_arabic_indic_digits (t : str) : bool :=
  forallb (fun c => negb (arabic_indic_digit c)
                    && negb (extended_arabic_indic_digit c)) t.

(* ================================================================== *)
(** * Definitions used in the proofs *)
(* ================================================================== *)

(** The whitespace normal form reached by [replace_ws_runs [0x20]]: every
    whitespace character is a space, and no two are adjacent ([in_run]: the
    previous character was whitespace). *)
Fixpoint ws_normal (in_run : bool) (s : str) : bool :=
  match s with
  | [] => true
  | c :: t =>
      if is_ws c then (c =? 0x20) && negb in_run && ws_normal true t
      else ws_normal false t
  end.

(** No whitespace at the start. *)
Definition no_lead (s : str) : bool :=
  match s with c :: _ => negb (is_ws c) | [] => true end.

(** The sequence of [replaceAll] calls that the sources run over the entries
    of a table. *)
Definition subst (tbl : table) (s : str) : str :=
  fold_left (fun result '(from, to) => replaceAll from to result) tbl s.

(** The code unit [c] is a key of the table. *)
Definition is_key (tbl : table) (c : Z) : bool :=
  existsb (fun kv => str_eqb (fst kv) [c]) tbl.

(** A table whose keys are single code units and whose values hold no key of
    a later entry: running its entries in order is one simultaneous
    substitution. *)
Fixpoint simultaneous (tbl : table) : bool :=
  match tbl with
  | [] => true
  | (k, v) :: rest =>
      (length k =? 1)%nat && forallb (fun u => negb (is_key rest u)) v
      && simultaneous rest
  end.

(** What the simultaneous substitution writes for [c]. *)
Definition lookup_char (tbl : table) (c : Z) : str :=
  match get tbl [c] with Some v => v | None => [c] end.

(** A double that is not negative: a zero, a finite number or an infinity of
    positive sign, or the result of an invalid operation. *)
Definition not_negative (x : double) : bool :=
  match x with
  | S754_zero s | S754_infinity s | S754_finite s _ _ => negb s
  | S754_nan => true
  end.

(** A predicate on code points that no surrogate and no code point beyond
    the Basic Multilingual Plane satisfies. *)
Definition bmp_only (P : Z -> bool) : Prop :=
  forall c, 0xD800 <= c <= 0xDFFF \/ 0x10000 <= c -> P c = false.

(** What [toULY] writes for the code unit [c]. *)
Definition uly_of (c : Z) : str := toULY_step [] [c].

(** The characters of a core text: the space and the 32 letters. *)
Definition core_alphabet : str :=
  0x20 :: map (fun kv => hd 0 (fst kv)) UYGHUR_ARABIC_TO_LATIN.

(** What the loop of [toArabic] does at the Latin form of [x] when the Latin
    form of [y] follows: it writes [x] and goes on at the form of [y]. *)
Definition decodes_before (x y : Z) : bool :=
  match uly_of x, uly_of y with
  | [a], b :: _ =>
      match match_multi MULTI_CHAR_LATIN [a; b] with
      | None => str_eqb (toArabic_char a) [x]
      | Some _ => false
      end
  | [a1; a2], _ :: _ =>
      match match_multi MULTI_CHAR_LATIN [a1; a2] with
      | Some (mapped, n) => str_eqb mapped [x] && (n =? 2)%nat
      | None => false
      end
  | _, _ => false
  end.

(** A character of a core text and its Latin form: the form is not empty,
    it is lower-case Latin-1 text, and it is whitespace exactly when the
    character is the space, whose form is the space. *)
Definition plain_form (c : Z) : bool :=
  negb (falsy (uly_of c))
  && forallb (fun x => between 0 0xFF x && (lower_latin1 x =? x)) (uly_of c)
  && (if is_ws c then str_eqb (uly_of c) [0x20]
      else forallb (fun x => negb (is_ws x)) (uly_of c))
  && str_eqb (toArabic_loop 0 (uly_of c)) [c].

(** What the loop of [toArabic] does at the Latin form of [x] when the form
    of [y] follows and the pair is ambiguous: it reads the last letter of
    the one and the first letter of the other as one letter, which is not
    [x]. *)
Definition misreads (x y : Z) : bool :=
  match uly_of x, uly_of y with
  | [a], b :: _ =>
      match match_multi MULTI_CHAR_LATIN [a; b] with
      | Some ([z], _) => negb (z =? x) && negb (is_ws z)
      | _ => false
      end
  | _, _ => false
  end.

(** A code unit that the search normalization rewrites or deletes before
    lower-casing: a key of [CHAR_NORMALIZATIONS], a diacritic or a hamza. *)
Definition rewritten (c : Z) : bool :=
  is_key CHAR_NORMALIZATIONS c || is_diacritic c || is_hamza c.

(* ================================================================== *)
(** * Definitions for the further properties *)
(* ================================================================== *)

(** ** Texts and options that the statements name *)

(** A letter of ULY that is one character: a key of
    [LATIN_TO_UYGHUR_ARABIC] of length one. *)
Definition uly_letter (c : Z) : bool :=
  match get LATIN_TO_UYGHUR_ARABIC [c] with Some _ => true | None => false end.

(** A character of a ULY text other than the letter c: a one-character
    letter, the space, a digit or a punctuation mark of the
    transliteration. *)
Definition uly_char (c : Z) : bool :=
  uly_letter c || (c =? 0x20) || is_digit c || is_punct c.

(** A ULY text: lower-case letters of ULY, spaces, digits and punctuation,
    where the letter c stands before the letter h only. *)
Fixpoint uly_text (t : str) : bool :=
  match t with
  | [] => true
  | a :: rest =>
      (uly_char a
       || ((a =? 0x63) && match rest with b :: _ => b =? 0x68 | [] => false end))
      && uly_text rest
  end.

(** The options of [isValidSlug] that name the separator of [options]. *)
Definition same_separator (options : option SlugOptions.t)
  : option ValidSlugOptions.t :=
  match options with
  | Some o => Some {| ValidSlugOptions.separator := SlugOptions.separator o |}
  | None => None
  end.


(** The magnitude of a number, as a number. *)
Definition abs_number (num : number) : number :=
  match num with
  | NaN => NaN
  | Infinity _ => Infinity false
  | Integer _ magnitude => Integer false magnitude
  end.

(** The characters that [isPrimarilyArabicScript] counts: the characters
    of the text, by code point, that are no whitespace. *)
Definition letters (text : str) : list str :=
  filter (fun char => negb (test is_ws char)) (chars text).

(** ** Definitions used in their proofs *)

(** The second half of [binary_round_aux]: what is made of the rounded
    mantissa. *)
Definition round_finish (m e : Z) : double :=
  let '(mrs, e') := shr_fexp 53 1024 m e loc_Exact in
  match shr_m mrs with
  | Z0 => S754_zero false
  | Zpos m' => if e' <=? 1024 - 53 then S754_finite false m' e'
               else S754_infinity false
  | _ => S754_nan
  end.

(** The remainder is more than half the divisor. *)
Definition is_gt (l : location) : bool :=
  match l with loc_Inexact Gt => true | _ => false end.

(** The division leaves no remainder. *)
Definition is_exact (l : location) : bool :=
  match l with loc_Exact => true | _ => false end.

(** What [toWesternNumerals] writes for the code unit [c]. *)
Definition western_unit (c : Z) : Z :=
  if arabic_indic_digit c then c - 0x630
  else if extended_arabic_indic_digit c then c - 0x6C0 else c.

(** What [toArabicIndicNumerals] writes for the code unit [c]. *)
Definition arabic_indic_unit (c : Z) : Z := if is_digit c then c + 0x630 else c.

(** One digit more in [decimal_value]. *)
Definition decimal_step (acc c : Z) : Z := 10 * acc + (c - 0x30).

(** The text starts with no digit. *)
Definition no_digit_head (r : str) : bool :=
  match r with c :: _ => negb (is_digit c) | [] => true end.


(** The form reached by [squeeze_blanks_from]: every space or tab is a
    space, and no two are adjacent. *)
Fixpoint blank_normal (in_run : bool) (s : str) : bool :=
  match s with
  | [] => true
  | c :: t =>
      if (c =? 0x20) || (c =? 0x09)
      then (c =? 0x20) && negb in_run && blank_normal true t
      else blank_normal false t
  end.

(** The form reached by [limit_newlines_from]: no more than two line feeds
    in a row, [run] of them directly before. *)
Fixpoint newline_normal (run : nat) (s : str) : bool :=
  match s with
  | [] => true
  | c :: t =>
      if c =? 0x0A then (run <? 2)%nat && newline_normal (S run) t
      else newline_normal 0 t
  end.


(** No two separators are adjacent; [in_run]: a separator comes directly
    before. *)
Fixpoint sep_normal (in_run : bool) (sep : Z) (s : str) : bool :=
  match s with
  | [] => true
  | c :: t =>
      if c =? sep then negb in_run && sep_normal true sep t
      else sep_normal false sep t
  end.

(** The ends of a slug: it is empty, or neither its first nor its last
    character is the separator. *)
Definition clean_ends (sep : Z) (s : str) : Prop :=
  s = [] \/ (hd 0 s <> sep /\ last s 0 <> sep).

(** The characters of a ULY text. *)
Definition uly_units : str :=
  [0x63; 0x20] ++ map (fun kv => hd 0 (fst kv)) LATIN_TO_UYGHUR_ARABIC
  ++ [0x30; 0x31; 0x32; 0x33; 0x34; 0x35; 0x36; 0x37; 0x38; 0x39]
  ++ [0x2E; 0x2C; 0x21; 0x3F; 0x3B; 0x3A; 0x27; 0x22; 0x28; 0x29; 0x2D].

(** What the loop of [toArabic] does at [a] when [b] follows, read back
    with [toULY]: the two characters, when they are one letter; else [a]. *)
Definition reads_back (a b : Z) : bool :=
  match match_multi MULTI_CHAR_LATIN [a; b] with
  | Some (mapped, n) => (n =? 2)%nat && str_eqb (flat_map uly_of mapped) [a; b]
  | None => str_eqb (flat_map uly_of (toArabic_char a)) [a]
  end.

(** The characters that [toArabic] writes. *)
Definition arabic_units : str :=
  core_alphabet
  ++ [0x30; 0x31; 0x32; 0x33; 0x34; 0x35; 0x36; 0x37; 0x38; 0x39]
  ++ [0x2E; 0x2C; 0x21; 0x3F; 0x3B; 0x3A; 0x27; 0x22; 0x28; 0x29; 0x2D].

(** The Latin form of a character is the space for whitespace and a word
    for anything else. *)
Definition word_form (c : Z) : bool :=
  if is_ws c then str_eqb (uly_of c) [0x20]
  else negb (falsy (uly_of c)) && forallb (fun x => negb (is_ws x)) (uly_of c).


(** Membership in a list of strings, decided. *)
Definition member (x : str) (l : list str) : bool := existsb (str_eqb x) l.

(** Every entry of [t1] is found in [t2] the other way round. *)
Definition inverted_in (t1 t2 : table) : bool :=
  forallb (fun kv => match get t2 (snd kv) with
                     | Some k => str_eqb k (fst kv)
                     | None => false
                     end) t1.


(* ================================================================== *)
(** * Texts and options of the examples; a second Unicode instance *)
(* ================================================================== *)

(** The options of the README's example, [{ maxLength: 10 }], with the
    defaults filled in. *)
Definition README_options : RequiredSlugOptions.t :=
  {| RequiredSlugOptions.maxLength := 10;
     RequiredSlugOptions.separator := [0x2D];
     RequiredSlugOptions.lowercase := true;
     RequiredSlugOptions.trim := true |}.

(** salam, two spaces, dunya. *)
Definition salam_dunya : str :=
  [0x0633; 0x0627; 0x0644; 0x0627; 0x0645; 0x20; 0x20;
   0x062F; 0x06C7; 0x0646; 0x064A; 0x0627].

(** Alef, zero-width non-joiner, combining madda above. *)
Definition alef_zwnj_madda : str := [0x0627; 0x200C; 0x0653].

(** A cased script beyond the Basic Multilingual Plane: the Deseret
    capitals U+10400-U+10427 are the surrogate pairs D801 DC00 - D801 DC27,
    and their small letters are 0x28 further on. *)
Definition deseret_capital (h l : Z) : bool :=
  (h =? 0xD801) && between 0xDC00 0xDC27 l.

(** Lower casing of Latin-1 and of the Deseret capitals. *)
Fixpoint deseret_toLowerCase (s : str) : str :=
  match s with
  | [] => []
  | h :: t =>
      match t with
      | l :: t' =>
          if deseret_capital h l then h :: (l + 0x28) :: deseret_toLowerCase t'
          else lower_latin1 h :: deseret_toLowerCase t
      | [] => [lower_latin1 h]
      end
  end.

(** High surrogate of a Deseret letter, full stop, low surrogate. *)
Definition split_deseret : str := [0xD801; 0x2E; 0xDC00].

(* ================================================================== *)
(** * Facts about the string operations *)
(* ================================================================== *)

(** Boolean tests on code units, turned into linear arithmetic. *)
Ltac unbool :=
  repeat rewrite ?orb_true_iff, ?andb_true_iff, ?orb_false_iff,
    ?andb_false_iff, ?negb_true_iff, ?negb_false_iff, ?Z.leb_le, ?Z.eqb_eq,
    ?Z.leb_gt, ?Z.eqb_neq in *.

Ltac unclass :=
  unfold is_alnum, is_letter, is_lower, is_upper, is_digit, is_punct, is_ws,
    is_high, is_low, between in *.

Lemma str_eqb_eq (a b : str) : str_eqb a b = true <-> a = b.
Proof.
  revert b; induction a as [|x a IH]; intros [|y b]; simpl;
    try (split; congruence).
  rewrite andb_true_iff, Z.eqb_eq, IH.
  split; [intros [-> ->]; reflexivity | intros [= -> ->]; auto].
Qed.

Lemma str_eqb_refl (a : str) : str_eqb a a = true.
Proof. apply str_eqb_eq; reflexivity. Qed.

Lemma trimStart_no_lead s : no_lead (trimStart s) = true.
Proof.
  induction s as [|c t IH]; simpl; [reflexivity|].
  destruct (is_ws c) eqn:E; [exact IH | simpl; now rewrite E].
Qed.

Lemma trimStart_fixed s : no_lead s = true -> trimStart s = s.
Proof.
  destruct s as [|c t]; simpl; [reflexivity|].
  intros H; apply negb_true_iff in H; now rewrite H.
Qed.

Lemma trimEnd_cons_word c s :
  is_ws c = false -> trimEnd (c :: s) = c :: trimEnd s.
Proof. intros H; simpl; rewrite H; now destruct (trimEnd s). Qed.

Lemma trimEnd_idempotent s : trimEnd (trimEnd s) = trimEnd s.
Proof.
  induction s as [|c t IH]; simpl; [reflexivity|].
  destruct (trimEnd t) as [|x t'] eqn:E.
  - destruct (is_ws c) eqn:W; simpl; [reflexivity | now rewrite W].
  - change (trimEnd (c :: x :: t')) with
      (match trimEnd (x :: t') with
       | [] => if is_ws c then [] else [c]
       | t'' => c :: t''
       end).
    now rewrite IH.
Qed.

Lemma trimEnd_no_lead s : no_lead s = true -> no_lead (trimEnd s) = true.
Proof.
  destruct s as [|c t]; simpl; [reflexivity|].
  intros H; apply negb_true_iff in H; rewrite H.
  destruct (trimEnd t); simpl; now rewrite H.
Qed.

Lemma trim_idempotent s : trim (trim s) = trim s.
Proof.
  unfold trim.
  rewrite (trimStart_fixed (trimEnd (trimStart s))).
  - apply trimEnd_idempotent.
  - apply trimEnd_no_lead, trimStart_no_lead.
Qed.

Lemma trimEnd_nil_iff s : trimEnd s = [] <-> forallb is_ws s = true.
Proof.
  induction s as [|c t IH]; simpl; [tauto|].
  destruct (trimEnd t) as [|x t'].
  - destruct (is_ws c); simpl; [tauto | split; [discriminate|]].
    intros H; discriminate.
  - split; [discriminate|].
    rewrite andb_true_iff; intros [_ H]; apply IH in H; discriminate.
Qed.

Lemma trimStart_nil_iff s : trimStart s = [] <-> forallb is_ws s = true.
Proof.
  induction s as [|c t IH]; simpl; [tauto|].
  destruct (is_ws c); simpl; [exact IH | split; discriminate].
Qed.

Lemma forallb_trimStart (P : Z -> bool) s :
  forallb P s = true -> forallb P (trimStart s) = true.
Proof.
  induction s as [|c t IH]; simpl; [auto|].
  rewrite andb_true_iff; intros [Hc Ht].
  destruct (is_ws c); [auto | simpl; now rewrite Hc, Ht].
Qed.

Lemma forallb_trimEnd (P : Z -> bool) s :
  forallb P s = true -> forallb P (trimEnd s) = true.
Proof.
  induction s as [|c t IH]; simpl; [auto|].
  rewrite andb_true_iff; intros [Hc Ht]; specialize (IH Ht).
  destruct (trimEnd t) as [|x t'].
  - destruct (is_ws c); simpl; [reflexivity | now rewrite Hc].
  - change (forallb P (c :: x :: t')) with (P c && forallb P (x :: t')).
    now rewrite Hc, IH.
Qed.

Lemma forallb_trim (P : Z -> bool) s :
  forallb P s = true -> forallb P (trim s) = true.
Proof. intros H; apply forallb_trimEnd, forallb_trimStart, H. Qed.

Lemma trim_nil_iff s : trim s = [] <-> forallb is_ws s = true.
Proof.
  unfold trim; rewrite trimEnd_nil_iff.
  split.
  - intros H. induction s as [|c t IH]; simpl in *; [reflexivity|].
    destruct (is_ws c) eqn:E; simpl; [auto|].
    simpl in H; now rewrite E in H.
  - apply forallb_trimStart.
Qed.

Lemma forallb_replace_ws (P : Z -> bool) b by_ s :
  forallb P by_ = true -> forallb P s = true ->
  forallb P (replace_ws_from b by_ s) = true.
Proof.
  intros Hby; revert b; induction s as [|c t IH]; intros b; simpl; [auto|].
  rewrite andb_true_iff; intros [Hc Ht].
  destruct (is_ws c).
  - rewrite forallb_app, IH by assumption. now destruct b; simpl; rewrite ?Hby.
  - simpl; now rewrite Hc, IH.
Qed.

Lemma replace_ws_normal b s : ws_normal b (replace_ws_from b [0x20] s) = true.
Proof.
  revert b; induction s as [|c t IH]; intros b; simpl; [reflexivity|].
  destruct (is_ws c) eqn:E.
  - destruct b; simpl; [apply IH | apply IH].
  - simpl; rewrite E; apply IH.
Qed.

Lemma ws_normal_fixed b s :
  ws_normal b s = true -> replace_ws_from b [0x20] s = s.
Proof.
  revert b; induction s as [|c t IH]; intros b; simpl; [reflexivity|].
  destruct (is_ws c).
  - rewrite !andb_true_iff, Z.eqb_eq, negb_true_iff.
    intros [[-> ->] H]; simpl; now rewrite IH.
  - intros H; now rewrite IH.
Qed.

Lemma ws_normal_trimStart b b' s :
  ws_normal b s = true -> ws_normal b' (trimStart s) = true.
Proof.
  revert b; induction s as [|c t IH]; intros b; simpl; [reflexivity|].
  destruct (is_ws c) eqn:E.
  - rewrite !andb_true_iff; intros [_ H]; eapply IH, H.
  - simpl; now rewrite E.
Qed.

Lemma ws_normal_trimEnd b s :
  ws_normal b s = true -> ws_normal b (trimEnd s) = true.
Proof.
  revert b; induction s as [|c t IH]; intros b; simpl; [reflexivity|].
  destruct (is_ws c) eqn:E.
  - rewrite !andb_true_iff; intros [[Hc Hb] H]; specialize (IH _ H).
    destruct (trimEnd t) as [|x t']; [reflexivity|].
    change (ws_normal b (c :: x :: t')) with
      (if is_ws c then (c =? 0x20) && negb b && ws_normal true (x :: t')
       else ws_normal false (x :: t')).
    now rewrite E, Hc, Hb, IH.
  - intros H; specialize (IH _ H).
    destruct (trimEnd t) as [|x t']; [simpl; now rewrite E|].
    change (ws_normal b (c :: x :: t')) with
      (if is_ws c then (c =? 0x20) && negb b && ws_normal true (x :: t')
       else ws_normal false (x :: t')).
    now rewrite E.
Qed.

Lemma normalize_whitespace_normal s :
  ws_normal false (trim (replace_ws_runs [0x20] s)) = true.
Proof.
  unfold trim, replace_ws_runs.
  apply ws_normal_trimEnd, (ws_normal_trimStart false), replace_ws_normal.
Qed.

(** A string in the form [trim (replace_ws_runs [0x20] _)] is left as it is
    by both operations. *)
Lemma normalize_whitespace_fixed s :
  let r := trim (replace_ws_runs [0x20] s) in
  replace_ws_runs [0x20] r = r /\ trim r = r.
Proof.
  split.
  - apply ws_normal_fixed, normalize_whitespace_normal.
  - apply trim_idempotent.
Qed.

(** ** Tables run through [replaceAll] *)

Lemma replaceAll_unit k to s :
  replaceAll [k] to s = flat_map (fun c => if k =? c then to else [c]) s.
Proof.
  unfold replaceAll. induction s as [|c t IH]; simpl; [reflexivity|].
  unfold starts_with; simpl. rewrite andb_true_r, Z.eqb_sym.
  destruct (k =? c); simpl; now rewrite IH.
Qed.

Lemma subst_app tbl : forallb (fun kv => (length (fst kv) =? 1)%nat) tbl = true ->
  forall s1 s2, subst tbl (s1 ++ s2) = subst tbl s1 ++ subst tbl s2.
Proof.
  induction tbl as [|[k v] rest IH]; simpl; [reflexivity|].
  rewrite andb_true_iff, Nat.eqb_eq. intros [Hk Hr] s1 s2.
  destruct k as [|k [|]]; try discriminate.
  unfold subst in *; simpl. rewrite !replaceAll_unit, flat_map_app. now apply IH.
Qed.

Lemma simultaneous_keys tbl : simultaneous tbl = true -> forallb (fun kv => (length (fst kv) =? 1)%nat) tbl = true.
Proof.
  induction tbl as [|[k v] rest IH]; simpl; [reflexivity|].
  rewrite !andb_true_iff. intros [[H1 H2] H3]. auto.
Qed.

Lemma subst_nil tbl : subst tbl [] = [].
Proof. induction tbl as [|[k v] rest IH]; simpl; [reflexivity|]. unfold subst in *; simpl.
  destruct k; simpl; auto. Qed.

Lemma subst_no_key tbl : forallb (fun kv => (length (fst kv) =? 1)%nat) tbl = true ->
  forall v, forallb (fun u => negb (is_key tbl u)) v = true -> subst tbl v = v.
Proof.
  induction tbl as [|[k w] rest IH]; simpl; [reflexivity|].
  rewrite andb_true_iff, Nat.eqb_eq. intros [Hk Hr] v Hv.
  destruct k as [|k [|]]; try discriminate.
  unfold subst in *; simpl. rewrite replaceAll_unit.
  assert (E : flat_map (fun c : Z => if k =? c then w else [c]) v = v).
  { clear -Hv. induction v as [|c t IHv]; simpl in *; [reflexivity|].
    rewrite andb_true_iff in Hv. destruct Hv as [Hc Ht].
    unfold is_key in Hc; simpl in Hc. rewrite andb_true_r in Hc.
    rewrite negb_true_iff, orb_false_iff in Hc. destruct Hc as [Hc _].
    rewrite Hc. simpl. now rewrite IHv. }
  rewrite E. apply IH; [assumption|].
  clear -Hv. induction v as [|c t IHv]; simpl in *; [reflexivity|].
  rewrite andb_true_iff in *. destruct Hv as [Hc Ht]. split; [|auto].
  unfold is_key in *; simpl in Hc. rewrite negb_true_iff, orb_false_iff in Hc.
  rewrite negb_true_iff. tauto.
Qed.

Lemma subst_simultaneous tbl : simultaneous tbl = true ->
  forall s, subst tbl s = flat_map (lookup_char tbl) s.
Proof.
  intros H s. pose proof (simultaneous_keys _ H) as Hk.
  induction s as [|c t IH]; [apply subst_nil|].
  change (c :: t) with ([c] ++ t). rewrite subst_app by assumption.
  simpl. rewrite IH. f_equal. clear IH t.
  induction tbl as [|[k v] rest IH]; [reflexivity|].
  simpl in H, Hk. rewrite !andb_true_iff in H. destruct H as [[H1 H2] H3].
  rewrite andb_true_iff in Hk. destruct Hk as [_ Hk].
  apply Nat.eqb_eq in H1. destruct k as [|k [|]]; try discriminate.
  unfold lookup_char; simpl. rewrite andb_true_r.
  unfold subst; simpl. rewrite replaceAll_unit. simpl. rewrite app_nil_r.
  destruct (k =? c).
  - apply subst_no_key; assumption.
  - apply IH; assumption.
Qed.

(* ================================================================== *)
(** * numbers.ts: the numeral round trip *)
(* ================================================================== *)

(** Case analysis of a table lookup at an unknown code unit [c]: [c] is one of the keys, in turn, or none. *)
Ltac key_cases c :=
  repeat match goal with
         | |- context [Z.eqb ?k c] =>
             destruct (Z.eqb_spec k c) as [<-|?]; [try reflexivity | cbn [andb]]
         end.

Lemma ite_between lo hi c (a b : Z) : (lo <= c <= hi -> False) -> (if between lo hi c then a else b) = b.
Proof. intros H. unfold between. destruct (lo <=? c) eqn:E1; destruct (c <=? hi) eqn:E2; simpl; auto. apply Z.leb_le in E1, E2. lia. Qed.

Lemma lookup_western c :
  lookup_char WESTERN_TO_ARABIC_INDIC_NUMERALS c = [if is_digit c then c + 0x630 else c].
Proof.
  unfold lookup_char, WESTERN_TO_ARABIC_INDIC_NUMERALS. cbn [get str_eqb].
  key_cases c. unfold is_digit. rewrite ite_between by lia. reflexivity.
Qed.

Lemma lookup_arabic_indic c :
  lookup_char ARABIC_INDIC_NUMERALS c = [if arabic_indic_digit c then c - 0x630 else c].
Proof.
  unfold lookup_char, ARABIC_INDIC_NUMERALS. cbn [get str_eqb].
  key_cases c. unfold arabic_indic_digit. rewrite ite_between by lia. reflexivity.
Qed.

Lemma lookup_extended c :
  lookup_char EXTENDED_ARABIC_INDIC_NUMERALS c = [if extended_arabic_indic_digit c then c - 0x6C0 else c].
Proof.
  unfold lookup_char, EXTENDED_ARABIC_INDIC_NUMERALS. cbn [get str_eqb].
  key_cases c. unfold extended_arabic_indic_digit. rewrite ite_between by lia. reflexivity.
Qed.

Lemma toWesternNumerals_subst s : toWesternNumerals s = flat_map (lookup_char EXTENDED_ARABIC_INDIC_NUMERALS) (flat_map (lookup_char ARABIC_INDIC_NUMERALS) s).
Proof.
  destruct s as [|c t]; [reflexivity|].
  unfold toWesternNumerals, entries. cbv beta iota zeta delta [falsy].
  change (subst EXTENDED_ARABIC_INDIC_NUMERALS (subst ARABIC_INDIC_NUMERALS (c :: t)) = flat_map (lookup_char EXTENDED_ARABIC_INDIC_NUMERALS) (flat_map (lookup_char ARABIC_INDIC_NUMERALS) (c :: t))).
  now rewrite !subst_simultaneous by reflexivity.
Qed.

Lemma toArabicIndicNumerals_subst s : toArabicIndicNumerals s = flat_map (lookup_char WESTERN_TO_ARABIC_INDIC_NUMERALS) s.
Proof.
  destruct s as [|c t]; [reflexivity|].
  unfold toArabicIndicNumerals, entries. cbv beta iota zeta delta [falsy].
  change (subst WESTERN_TO_ARABIC_INDIC_NUMERALS (c :: t) = flat_map (lookup_char WESTERN_TO_ARABIC_INDIC_NUMERALS) (c :: t)).
  now rewrite !subst_simultaneous by reflexivity.
Qed.

Lemma between_true lo hi c : lo <= c <= hi -> between lo hi c = true.
Proof. intros; unfold between; unbool; lia. Qed.
Lemma between_false lo hi c : (c < lo \/ hi < c) -> between lo hi c = false.
Proof. intros; unfold between; unbool; lia. Qed.

Lemma numeral_roundtrip_char c :
  arabic_indic_digit c = false -> extended_arabic_indic_digit c = false ->
  flat_map (lookup_char EXTENDED_ARABIC_INDIC_NUMERALS)
    (flat_map (lookup_char ARABIC_INDIC_NUMERALS)
       (lookup_char WESTERN_TO_ARABIC_INDIC_NUMERALS c)) = [c].
Proof.
  intros Ha He. rewrite lookup_western.
  destruct (is_digit c) eqn:D; cbn [flat_map app]; rewrite lookup_arabic_indic, app_nil_r;
    cbn [flat_map app]; rewrite lookup_extended, app_nil_r.
  - unfold is_digit, between in D; unbool.
    unfold arabic_indic_digit, extended_arabic_indic_digit.
    rewrite (between_true 0x660 0x669) by lia.
    rewrite (between_false 0x6F0 0x6F9) by lia. f_equal; lia.
  - now rewrite Ha, He.
Qed.

(** C10. Numeral round trip: for every string [t] that contains no
    Arabic-Indic digit (U+0660-0669) and no Extended Arabic-Indic digit
    (U+06F0-06F9), [toWesternNumerals (toArabicIndicNumerals t)] is [t]. *)
Theorem numerals_roundtrip (t : str) :
  no_arabic_indic_digits t = true ->
  toWesternNumerals (toArabicIndicNumerals t) = t.
Proof.
  unfold no_arabic_indic_digits; intros H. rewrite toWesternNumerals_subst, toArabicIndicNumerals_subst.
  induction t as [|c t IH]; [reflexivity|].
  simpl in H. rewrite !andb_true_iff, !negb_true_iff in H. destruct H as [[Ha He] Ht].
  cbn [flat_map]. rewrite !flat_map_app, IH by assumption.
  now rewrite numeral_roundtrip_char.
Qed.

(** The round trip at a text with a year in Western digits. *)
Lemma numerals_roundtrip_witness :
  no_arabic_indic_digits (utf16 "Year: 2024") = true
  /\ toWesternNumerals (toArabicIndicNumerals (utf16 "Year: 2024"))
     = utf16 "Year: 2024".
Proof.
  split; [reflexivity | apply numerals_roundtrip; reflexivity].
Defined.

(** ** Iteration by code point *)

(** Induction following the recursion of [chars] and [codepoints]. *)
Lemma str_pair_ind (P : str -> Prop) :
  P [] -> (forall h, P [h]) ->
  (forall h l t, P t -> P (l :: t) -> P (h :: l :: t)) ->
  forall s, P s.
Proof.
  intros H0 H1 H2 s.
  enough (P s /\ forall h, P (h :: s)) by tauto.
  induction s as [|l t [IHt IHc]]; split; auto.
Qed.

Lemma codepoints_pair h l t :
  codepoints (h :: l :: t) =
  if is_high h && is_low l
  then (0x10000 + (h - 0xD800) * 0x400 + (l - 0xDC00)) :: codepoints t
  else h :: codepoints (l :: t).
Proof. reflexivity. Qed.

Lemma chars_pair h l t :
  chars (h :: l :: t) =
  if is_high h && is_low l then [h; l] :: chars t else [h] :: chars (l :: t).
Proof. reflexivity. Qed.

Lemma surrogate_pair_value h l :
  is_high h && is_low l = true ->
  0xD800 <= h <= 0xDFFF /\ 0xD800 <= l <= 0xDFFF
  /\ 0x10000 <= 0x10000 + (h - 0xD800) * 0x400 + (l - 0xDC00).
Proof. unclass; unbool; lia. Qed.

Lemma existsb_codepoints (P : Z -> bool) s :
  bmp_only P -> existsb P (codepoints s) = existsb P s.
Proof.
  intros HP; induction s as [| h | h l t IHt IHl] using str_pair_ind;
    [reflexivity | reflexivity |].
  rewrite codepoints_pair.
  destruct (is_high h && is_low l) eqn:E.
  - apply surrogate_pair_value in E; destruct E as (Hh & Hl & Hv).
    cbn [existsb]; rewrite IHt, !HP by auto; reflexivity.
  - cbn [existsb]; now rewrite IHl.
Qed.

Lemma existsb_chars_head (P : Z -> bool) s :
  bmp_only P ->
  existsb (fun char => P (charCodeAt0 char)) (chars s) = existsb P s.
Proof.
  intros HP; induction s as [| h | h l t IHt IHl] using str_pair_ind;
    [reflexivity | reflexivity |].
  rewrite chars_pair.
  destruct (is_high h && is_low l) eqn:E.
  - apply surrogate_pair_value in E; destruct E as (Hh & Hl & Hv).
    cbn [existsb charCodeAt0 hd]; rewrite IHt, !HP by auto; reflexivity.
  - cbn [existsb charCodeAt0 hd]; now rewrite IHl.
Qed.

Lemma forallb_codepoints (P : Z -> bool) s :
  bmp_only P -> forallb P (codepoints s) = forallb P s.
Proof.
  intros HP; induction s as [| h | h l t IHt IHl] using str_pair_ind;
    [reflexivity | reflexivity |].
  rewrite codepoints_pair.
  destruct (is_high h && is_low l) eqn:E.
  - apply surrogate_pair_value in E; destruct E as (Hh & Hl & Hv).
    cbn [forallb]; rewrite !HP by auto; reflexivity.
  - cbn [forallb]; now rewrite IHl.
Qed.

(** Every string the iterator yields is one code unit or a surrogate pair. *)
Lemma chars_shape s char :
  In char (chars s) ->
  (exists c, char = [c])
  \/ (exists h l, char = [h; l] /\ is_high h && is_low l = true).
Proof.
  pattern s; apply str_pair_ind; clear s; [| intros h | intros h l t IHt IHl].
  - intros [].
  - intros [<-|[]]; eauto.
  - rewrite chars_pair. destruct (is_high h && is_low l) eqn:E.
    + intros [<-|H]; [right; eauto | auto].
    + intros [<-|H]; [left; eauto | auto].
Qed.

Lemma chars_bmp s :
  forallb (fun c => negb (is_high c)) s = true -> chars s = map (fun c => [c]) s.
Proof.
  pattern s; apply str_pair_ind; clear s; [| intros h | intros h l t IHt IHl];
    [reflexivity | reflexivity |].
  intros H. cbn [forallb] in H. apply andb_true_iff in H; destruct H as [Hh H].
  rewrite chars_pair. apply negb_true_iff in Hh; rewrite Hh.
  cbn [andb map]. now rewrite IHl.
Qed.

Lemma codepoints_bmp s :
  forallb (fun c => negb (is_high c)) s = true -> codepoints s = s.
Proof.
  pattern s; apply str_pair_ind; clear s; [| intros h | intros h l t IHt IHl];
    [reflexivity | reflexivity |].
  intros H. cbn [forallb] in H. apply andb_true_iff in H; destruct H as [Hh H].
  rewrite codepoints_pair. apply negb_true_iff in Hh; rewrite Hh.
  cbn [andb]. now rewrite IHl.
Qed.

Lemma bmp_only_arabic_class : bmp_only arabic_class.
Proof. intros c H; unfold arabic_class, between; unbool; lia. Qed.

Lemma bmp_only_between lo hi : hi < 0xD800 -> bmp_only (between lo hi).
Proof. intros Hhi c H; unfold between; unbool; lia. Qed.

Lemma bmp_only_is_letter : bmp_only is_letter.
Proof. intros c H; unclass; unbool; lia. Qed.

Lemma bmp_only_is_ws : bmp_only is_ws.
Proof. intros c H; unclass; unbool; lia. Qed.

Lemma bmp_only_uyghur_specific : bmp_only uyghur_specific.
Proof.
  intros c H; unfold uyghur_specific; cbn [existsb]; unbool.
  repeat split; lia.
Qed.

(* ================================================================== *)
(** * detect.ts: the classifier *)
(* ================================================================== *)

Lemma existsb_pointwise {A} (f g : A -> bool) (l : list A) :
  (forall x, f x = g x) -> existsb f l = existsb g l.
Proof. intros H; induction l as [|x l IH]; simpl; [reflexivity | now rewrite H, IH]. Qed.


Lemma isArabicScriptChar_class char :
  isArabicScriptChar char = arabic_class (charCodeAt0 char).
Proof.
  unfold isArabicScriptChar, arabic_class, ARABIC_SCRIPT_RANGES, between.
  cbn [existsb fst snd]. now rewrite orb_false_r, !orb_assoc.
Qed.

Lemma containsArabicScript_codepoints text :
  containsArabicScript text = existsb arabic_class (codepoints text).
Proof.
  unfold containsArabicScript. destruct text as [|c t]; [reflexivity|].
  cbn [falsy].
  rewrite existsb_codepoints by apply bmp_only_arabic_class.
  rewrite <- existsb_chars_head by apply bmp_only_arabic_class.
  apply existsb_pointwise; intros; apply isArabicScriptChar_class.
Qed.

Lemma uyghur_char_unit c :
  existsb (str_eqb [c]) UYGHUR_SPECIFIC_CHARS = uyghur_specific c.
Proof.
  unfold UYGHUR_SPECIFIC_CHARS, uyghur_specific. cbn [existsb str_eqb].
  now rewrite !andb_true_r.
Qed.

Lemma uyghur_char_pair h l :
  existsb (str_eqb [h; l]) UYGHUR_SPECIFIC_CHARS = false.
Proof.
  unfold UYGHUR_SPECIFIC_CHARS. cbn [existsb str_eqb].
  now rewrite !andb_false_r.
Qed.

Lemma containsUyghurChars_codepoints text :
  containsUyghurChars text = existsb uyghur_specific (codepoints text).
Proof.
  unfold containsUyghurChars. destruct text as [|c0 t0]; [reflexivity|].
  cbn [falsy]. generalize (c0 :: t0); clear; intros s.
  pattern s; apply str_pair_ind; clear s; [| intros h | intros h l t IHt IHl].
  - reflexivity.
  - cbn [chars codepoints existsb]. now rewrite uyghur_char_unit.
  - rewrite chars_pair, codepoints_pair.
    destruct (is_high h && is_low l) eqn:E.
    + apply surrogate_pair_value in E; destruct E as (_ & _ & Hv).
      cbn [existsb]. rewrite uyghur_char_pair, IHt.
      now rewrite bmp_only_uyghur_specific by auto.
    + cbn [existsb]. now rewrite uyghur_char_unit, IHl.
Qed.

Lemma all_whitespace_codepoints text :
  falsy text || (len (trim text) =? 0) = forallb is_ws (codepoints text).
Proof.
  rewrite forallb_codepoints by apply bmp_only_is_ws.
  destruct text as [|c t]; [reflexivity|]. cbn [falsy orb].
  unfold len. destruct (trim (c :: t)) as [|x r] eqn:E.
  - apply trim_nil_iff in E. now rewrite E.
  - cbn [length]. destruct (forallb is_ws (c :: t)) eqn:F.
    + apply trim_nil_iff in F. congruence.
    + apply Z.eqb_neq. lia.
Qed.

Lemma script_count (a l c y : bool) :
  (Z.of_nat (length (filter (fun b : bool => b) [a; l; c; y])) >? 1)
  = more_than_one a l c y.
Proof. now destruct a, l, c, y. Qed.

(** C5. [detectScript] gives [unknown] for an empty or all-whitespace text;
    otherwise, with the presence flags for Arabic script, Latin, Chinese
    (U+4E00-9FFF) and Cyrillic (U+0400-04FF): [mixed] when more than one flag
    holds; else, when Arabic holds, [uyghur] if a Uyghur-specific character
    is present and [arabic] if not; else the single flag that holds gives
    [latin], [chinese] or [cyrillic]; and [unknown] when none holds. This is
    [detectScript_spec], stated over the code points of the text. *)
Theorem detectScript_meets_spec (text : str) :
  detectScript text = detectScript_spec text.
Proof.
  unfold detectScript, detectScript_spec. cbv zeta.
  rewrite all_whitespace_codepoints, script_count.
  destruct (forallb is_ws (codepoints text)) eqn:W; [reflexivity|].
  assert (N : falsy text = false).
  { destruct text; [discriminate | reflexivity]. }
  rewrite containsArabicScript_codepoints, containsUyghurChars_codepoints.
  unfold containsLatin, containsChinese, containsCyrillic, test. rewrite N.
  rewrite <- (existsb_codepoints is_letter) by apply bmp_only_is_letter.
  rewrite <- (existsb_codepoints (between 0x4e00 0x9fff)) by (apply bmp_only_between; lia).
  rewrite <- (existsb_codepoints (between 0x0400 0x04ff)) by (apply bmp_only_between; lia).
  reflexivity.
Qed.

(* ================================================================== *)
(** * transliterate.ts: dispatch, case, output alphabet *)
(* ================================================================== *)

Section TransliterateFacts.
Context {U : Unicode}.

(** C2. For every text and every options argument, [transliterate] is
    [arabicToLatin] when some code point of the text lies in one of the four
    Arabic ranges, and [latinToArabic] otherwise; two calls that differ in
    their options only return the same string. *)
Theorem transliterate_dispatch (text : str) (options options' : option TransliterateOptions) :
  transliterate text options
  = (if existsb arabic_class (codepoints text) then arabicToLatin text
     else latinToArabic text)
  /\ transliterate text options = transliterate text options'.
Proof.
  split; [|reflexivity].
  rewrite existsb_codepoints by apply bmp_only_arabic_class.
  unfold transliterate, arabicToLatin, latinToArabic, test.
  destruct text as [|c t]; reflexivity.
Qed.

(** C8. [latinToArabic] is case-insensitive: it lower-cases the whole input
    before scanning, so [latinToArabic t] is [latinToArabic (toLowerCase t)]
    for every [t]; in particular SALAM and salam give the same result. *)
Theorem latinToArabic_case_insensitive :
  (forall t : str, latinToArabic t = latinToArabic (toLowerCase t))
  /\ latinToArabic (utf16 "SALAM") = latinToArabic (utf16 "salam").
Proof.
  assert (G : forall t : str, latinToArabic t = latinToArabic (toLowerCase t)).
  { intros t. unfold latinToArabic, toArabic. cbv zeta.
    rewrite toLowerCase_idempotent.
    destruct t as [|c t]; cbn [falsy].
    - now rewrite (toLowerCase_latin1 []) by reflexivity.
    - destruct (toLowerCase (c :: t)); reflexivity. }
  split; [exact G|].
  rewrite (G (utf16 "SALAM")). now rewrite toLowerCase_latin1 by reflexivity.
Qed.

End TransliterateFacts.

Lemma toULY_step_app result char :
  toULY_step result char = result ++ toULY_step [] char.
Proof.
  unfold toULY_step.
  destruct (get COMPLETE_ARABIC_TO_LATIN char); [reflexivity|].
  destruct (test is_ws char); [reflexivity|].
  destruct (test is_alnum char); [reflexivity|].
  destruct (test is_punct char); [reflexivity|].
  now rewrite app_nil_r.
Qed.

Lemma toULY_loop chars_ result :
  fold_left toULY_step chars_ result
  = result ++ flat_map (toULY_step []) chars_.
Proof.
  revert result; induction chars_ as [|char rest IH]; intros result; simpl.
  - now rewrite app_nil_r.
  - now rewrite IH, (toULY_step_app result), app_assoc.
Qed.

Lemma get_value tbl key v : get tbl key = Some v -> In v (map snd tbl).
Proof.
  induction tbl as [|[k w] rest IH]; simpl; [discriminate|].
  destruct (str_eqb k key); [intros [= ->]; auto | auto].
Qed.

Lemma surrogates_in_no_class h l :
  is_high h && is_low l = true ->
  test is_ws [h; l] = false /\ test is_alnum [h; l] = false
  /\ test is_punct [h; l] = false.
Proof. unfold test; cbn [existsb]; unclass; unbool; lia. Qed.

Lemma toULY_step_alphabet s char :
  In char (chars s) -> forallb uly_alphabet (toULY_step [] char) = true.
Proof.
  intros Hin. unfold toULY_step.
  destruct (get COMPLETE_ARABIC_TO_LATIN char) as [mapped|] eqn:G.
  - apply get_value in G.
    assert (V : forallb (forallb uly_alphabet)
                  (map snd COMPLETE_ARABIC_TO_LATIN) = true) by reflexivity.
    rewrite forallb_forall in V. now apply V.
  - destruct (chars_shape _ _ Hin) as [[c ->]|(h & l & -> & E)].
    + unfold test; cbn [existsb app forallb]. rewrite !orb_false_r.
      destruct (is_ws c); [reflexivity|].
      destruct (is_alnum c) eqn:A.
      { cbn [app forallb]; unfold uly_alphabet; now rewrite A. }
      destruct (is_punct c) eqn:P; [|reflexivity].
      cbn [app forallb]; unfold uly_alphabet; rewrite A, P.
      now rewrite orb_true_r.
    + destruct (surrogates_in_no_class _ _ E) as (-> & -> & ->). reflexivity.
Qed.

Lemma uly_alphabet_not_arabic s :
  forallb uly_alphabet s = true ->
  existsb arabic_class (codepoints s) = false.
Proof.
  intros H. rewrite existsb_codepoints by apply bmp_only_arabic_class.
  induction s as [|c t IH]; [reflexivity|].
  cbn [forallb existsb] in *. apply andb_true_iff in H; destruct H as [Hc Ht].
  rewrite IH, orb_false_r by assumption.
  clear -Hc. unfold uly_alphabet, arabic_class in *; unclass; unbool; lia.
Qed.

(** C9. Output alphabet of [arabicToLatin] ([toULY]): for every input,
    every character of the output is an ASCII letter, an ASCII digit, a
    space, one of the punctuation characters of the transliteration, or one
    of the letters o/u with diaeresis and e with acute; in particular no
    Arabic-script code point appears in the output. *)
Theorem toULY_output_alphabet (text : str) :
  forallb uly_alphabet (toULY text) = true
  /\ existsb arabic_class (codepoints (toULY text)) = false.
Proof.
  assert (A : forallb uly_alphabet (toULY text) = true).
  { unfold toULY. destruct (falsy text); [reflexivity|]. cbv zeta.
    apply forallb_trim, forallb_replace_ws; [reflexivity|].
    rewrite toULY_loop. cbn [app].
    apply forallb_forall. intros c Hc. apply in_flat_map in Hc.
    destruct Hc as (char & Hin & Hc).
    pose proof (toULY_step_alphabet _ _ Hin) as H.
    rewrite forallb_forall in H. now apply H. }
  split; [exact A | now apply uly_alphabet_not_arabic].
Qed.

(* ================================================================== *)
(** * Doubles: the double of an integer *)
(* ================================================================== *)

(** ** Binary digits *)

Lemma digits2_size p : digits2_pos p = Pos.size p.
Proof. induction p as [p IH|p IH|]; cbn; congruence. Qed.

Lemma digits_bounds p :
  2 ^ (Zpos (digits2_pos p) - 1) <= Zpos p < 2 ^ Zpos (digits2_pos p).
Proof.
  rewrite digits2_size.
  pose proof (Pos.size_gt p) as G. pose proof (Pos.size_le p) as L.
  apply Pos2Z.pos_lt_pos in G. apply Pos2Z.pos_le_pos in L.
  rewrite Pos2Z.inj_pow in G, L. change (Z.pos p~0) with (2 * Z.pos p) in L.
  split; [|exact G].
  replace (Zpos (Pos.size p)) with (Z.succ (Zpos (Pos.size p) - 1)) in L by lia.
  rewrite Z.pow_succ_r in L by lia. lia.
Qed.

Lemma digits_unique p d :
  2 ^ (d - 1) <= Zpos p < 2 ^ d -> Zpos (digits2_pos p) = d.
Proof.
  intros [L G]. pose proof (digits_bounds p) as [L' G'].
  set (s := Zpos (digits2_pos p)) in *. assert (0 < s) by (subst s; lia).
  assert (0 < d).
  { destruct (Z.ltb_spec 0 d); [assumption|].
    assert (2 ^ d <= 1); [|lia].
    destruct (Z.eqb_spec d 0) as [->|]; [cbn; lia|].
    rewrite Z.pow_neg_r by lia. lia. }
  destruct (Z.lt_trichotomy s d) as [C|[C|C]]; [|exact C|].
  - assert (2 ^ s <= 2 ^ (d - 1)) by (apply Z.pow_le_mono_r; lia). lia.
  - assert (2 ^ d <= 2 ^ (s - 1)) by (apply Z.pow_le_mono_r; lia). lia.
Qed.

Lemma iter_xO p k : Zpos (Pos.iter xO p k) = Zpos p * 2 ^ Zpos k.
Proof.
  induction k as [|k IH] using Pos.peano_ind.
  - cbn [Pos.iter]. change (Z.pos p~0) with (2 * Z.pos p).
    change (2 ^ 1) with 2. lia.
  - rewrite Pos.iter_succ.
    change (Z.pos (Pos.iter xO p k)~0) with (2 * Z.pos (Pos.iter xO p k)).
    rewrite IH, Pos2Z.inj_succ, Z.pow_succ_r by lia. lia.
Qed.

(** ** The double of an integer below 2^53 *)

Lemma round_aux_exact m e :
  Zpos (digits2_pos m) = 53 -> -1021 <= e <= 971 ->
  binary_round_aux 53 1024 false (Zpos m) e loc_Exact = S754_finite false m e.
Proof.
  intros D E. unfold binary_round_aux, shr_fexp, fexp, emin. cbn [Zdigits2].
  rewrite D. replace (Z.max (53 + e - 53) (3 - 1024 - 53) - e) with 0 by lia.
  cbn [shr shr_record_of_loc shr_m loc_of_shr_record round_nearest_even Zdigits2].
  rewrite D. replace (Z.max (53 + e - 53) (3 - 1024 - 53) - e) with 0 by lia.
  cbn [shr shr_record_of_loc shr_m].
  replace (e <=? 1024 - 53) with true by (symmetry; apply Z.leb_le; lia).
  reflexivity.
Qed.

Lemma double_of_Z_normal n :
  1 <= n < 2 ^ 53 ->
  exists m e,
    double_of_Z n = S754_finite false m e
    /\ Zpos (digits2_pos m) = 53 /\ -52 <= e <= 0
    /\ Zpos m = n * 2 ^ (- e).
Proof.
  intros [N1 N2]. destruct n as [|p|p]; try lia.
  unfold double_of_Z, binary_normalize, binary_round.
  pose proof (digits_bounds p) as [L G].
  set (d := Zpos (digits2_pos p)) in *.
  assert (Hd : 1 <= d <= 53).
  { split; [subst d; lia|].
    destruct (Z.leb_spec d 53); [assumption|].
    assert (2 ^ 53 <= 2 ^ (d - 1)) by (apply Z.pow_le_mono_r; lia). lia. }
  unfold fexp, emin. replace (Z.max (d + 0 - 53) (3 - 1024 - 53)) with (d - 53) by lia.
  unfold shl_align. replace (d - 53 - 0) with (d - 53) by lia.
  destruct (d - 53) as [|q|q] eqn:Q; try lia.
  - exists p, 0. rewrite round_aux_exact by (fold d; lia).
    split; [reflexivity|]. fold d. split; [lia | split; [lia|]].
    cbn. lia.
  - assert (Em : Zpos (Pos.iter xO p q) = Zpos p * 2 ^ (53 - d)).
    { rewrite iter_xO. f_equal. f_equal. lia. }
    assert (Dm : Zpos (digits2_pos (Pos.iter xO p q)) = 53).
    { apply digits_unique. rewrite Em.
      replace (2 ^ (53 - 1)) with (2 ^ (d - 1) * 2 ^ (53 - d))
        by (rewrite <- Z.pow_add_r by lia; f_equal; lia).
      replace (2 ^ 53) with (2 ^ d * 2 ^ (53 - d))
        by (rewrite <- Z.pow_add_r by lia; f_equal; lia).
      assert (0 < 2 ^ (53 - d)) by (apply Z.pow_pos_nonneg; lia). nia. }
    exists (Pos.iter xO p q), (Zneg q).
    rewrite round_aux_exact by (assumption || lia).
    split; [reflexivity | split; [exact Dm | split; [lia|]]].
    rewrite Em. f_equal. f_equal. lia.
Qed.

(** ** The Number value of an integer *)

Lemma iter_pos_invariant {A} (P : A -> Prop) (f : A -> A) :
  (forall x, P x -> P (f x)) -> forall n x, P x -> P (iter_pos f n x).
Proof.
  intros H. induction n as [n IH|n IH|]; intros x Hx; cbn [iter_pos]; auto.
Qed.

Lemma shr_1_sign mrs : 0 <= shr_m mrs -> 0 <= shr_m (shr_1 mrs).
Proof.
  destruct mrs as [m r s]. cbn [shr_m shr_1].
  destruct m as [|[p|p|]|p]; cbn [shr_m]; lia.
Qed.

Lemma shr_fexp_sign m e l :
  0 <= m -> 0 <= shr_m (fst (shr_fexp 53 1024 m e l)).
Proof.
  intros M. unfold shr_fexp, shr.
  assert (S : 0 <= shr_m (shr_record_of_loc m l)) by (now destruct l as [|[]]).
  destruct (fexp 53 1024 (Zdigits2 m + e) - e); cbn [fst]; try exact S.
  apply (iter_pos_invariant (fun mrs => 0 <= shr_m mrs)); [apply shr_1_sign | exact S].
Qed.

Lemma round_nearest_even_sign m l : 0 <= m -> 0 <= round_nearest_even m l.
Proof.
  intros M. unfold round_nearest_even.
  destruct l as [|[]]; try destruct (Z.even m); lia.
Qed.

Lemma binary_round_aux_number s mx ex lx :
  0 <= mx -> binary_round_aux 53 1024 s mx ex lx <> S754_nan.
Proof.
  intros M. unfold binary_round_aux.
  pose proof (shr_fexp_sign mx ex lx M) as H1.
  destruct (shr_fexp 53 1024 mx ex lx) as [mrs' e']. cbn [fst] in H1.
  pose proof (shr_fexp_sign _ e' loc_Exact
                (round_nearest_even_sign _ (loc_of_shr_record mrs') H1)) as H2.
  destruct (shr_fexp 53 1024 _ e' loc_Exact) as [mrs'' e'']. cbn [fst] in H2.
  destruct (shr_m mrs''); [discriminate | | lia].
  destruct (e'' <=? 1024 - 53); discriminate.
Qed.

Lemma double_of_Z_number n : double_of_Z n <> S754_nan.
Proof.
  unfold double_of_Z, binary_normalize. destruct n as [|p|p]; [discriminate | |];
    unfold binary_round; destruct (shl_align _ 0 _) as [mz ez];
    apply binary_round_aux_number; lia.
Qed.

(** A Number value is never [NaN], and neither its sign nor its being finite
    depends on the sign asked for. *)
Lemma number_of_integer_cases x :
  (exists m, 0 <= m /\ forall s, number_of_integer s x = Integer s m)
  \/ (forall s, number_of_integer s x = Infinity s).
Proof.
  unfold number_of_integer. pose proof (double_of_Z_number x) as N.
  destruct (double_of_Z x) as [s|s| |s m e]; [| |congruence|].
  - left. exists 0. split; [lia | reflexivity].
  - right. reflexivity.
  - left. exists (Z.shiftl (Z.pos m) e). split; [|reflexivity].
    apply Z.shiftl_nonneg. lia.
Qed.

Lemma number_of_integer_exact negative x :
  0 <= x <= 2 ^ 53 -> number_of_integer negative x = Integer negative x.
Proof.
  intros [L H]. unfold number_of_integer.
  destruct (Z.eqb_spec x 0) as [->|N0]; [reflexivity|].
  destruct (Z.eqb_spec x (2 ^ 53)) as [->|N1]; [reflexivity|].
  destruct (double_of_Z_normal x) as (m & e & -> & _ & E & V); [lia|].
  f_equal. rewrite V.
  destruct e as [|q|q]; [cbn; lia | lia |].
  rewrite <- Z.shiftr_opp_r. change (- Z.neg q) with (Z.pos q).
  rewrite Z.shiftr_div_pow2 by lia. change (- Z.neg q) with (Z.pos q).
  apply Z.div_mul. apply Z.pow_nonzero; lia.
Qed.

(* ================================================================== *)
(** * numbers.ts: parseNumber *)
(* ================================================================== *)

Lemma decimal_value_fold digits : decimal_value digits = fold_left decimal_step digits 0.
Proof. reflexivity. Qed.

Lemma decimal_fold_nonneg digits acc :
  forallb is_digit digits = true -> 0 <= acc ->
  0 <= fold_left decimal_step digits acc.
Proof.
  revert acc; induction digits as [|c t IH]; intros acc D A; [exact A|].
  cbn [forallb] in D. apply andb_true_iff in D. destruct D as [Dc Dt].
  cbn [fold_left]. apply IH; [exact Dt|].
  unfold decimal_step. unclass. unbool. lia.
Qed.

Lemma digit_prefix_digits s : forallb is_digit (digit_prefix s) = true.
Proof.
  induction s as [|c t IH]; [reflexivity|]. cbn [digit_prefix].
  destruct (is_digit c) eqn:D; [cbn [forallb]; now rewrite D | reflexivity].
Qed.

Lemma parseInt10_unfold s :
  no_lead s = true ->
  parseInt10 s
  = if falsy (digit_prefix (unsigned s)) then NaN
    else number_of_integer (signed_negative s)
           (decimal_value (digit_prefix (unsigned s))).
Proof.
  intros H. unfold parseInt10. rewrite (trimStart_fixed s H). cbv zeta.
  replace (match s with
           | [] => s
           | c :: rest => if (c =? 43) || (c =? 45) then rest else s
           end) with (unsigned s) by (destruct s; reflexivity).
  unfold signed_negative. now destruct (digit_prefix (unsigned s)).
Qed.

Lemma no_lead_flat_map (f : Z -> str) s :
  (forall c, is_ws c = false -> no_lead (f c ++ [0]) = true /\ f c <> []) ->
  no_lead s = true -> no_lead (flat_map f s) = true.
Proof.
  intros Hf. destruct s as [|c t]; [reflexivity|].
  cbn [no_lead flat_map]. rewrite negb_true_iff. intros Hc.
  destruct (Hf c Hc) as [H1 H2]. destruct (f c); [congruence | exact H1].
Qed.

Lemma toWesternNumerals_no_lead s :
  no_lead s = true -> no_lead (toWesternNumerals s) = true.
Proof.
  intros H. rewrite toWesternNumerals_subst.
  apply no_lead_flat_map; [|apply no_lead_flat_map; [|exact H]].
  - intros c Hc. rewrite lookup_extended. split; [|discriminate].
    cbn [app no_lead]. unfold extended_arabic_indic_digit, between.
    destruct ((1776 <=? c) && (c <=? 1785)) eqn:E; [|now rewrite Hc].
    unclass; unbool; lia.
  - intros c Hc. rewrite lookup_arabic_indic. split; [|discriminate].
    cbn [app no_lead]. unfold arabic_indic_digit, between.
    destruct ((1632 <=? c) && (c <=? 1641)) eqn:E; [|now rewrite Hc].
    unclass; unbool; lia.
Qed.

Lemma digit_prefix_all s : forallb is_digit s = true -> digit_prefix s = s.
Proof.
  induction s as [|c t IH]; simpl; [reflexivity|].
  rewrite andb_true_iff; intros [-> H]. now rewrite IH.
Qed.

Lemma decimal_value_nonneg digits :
  forallb is_digit digits = true -> 0 <= decimal_value digits.
Proof.
  intros D. rewrite decimal_value_fold. apply decimal_fold_nonneg; [exact D | lia].
Qed.

Lemma number_of_integer_number negative x : number_of_integer negative x <> NaN.
Proof.
  destruct (number_of_integer_cases x) as [(m & _ & H)|H]; rewrite H; discriminate.
Qed.

(** C6, as amended. [parseNumber] trims its input, converts it to Western
    numerals and reads an optional sign followed by the longest run of
    decimal digits, whatever follows them: the result is [NaN] exactly when
    no digit follows the optional sign; otherwise it is the Number value of
    the signed run of digits, which is the double nearest to that integer and
    the integer itself when the value of the run is at most 2^53; and for a
    valid integer literal the run is the whole literal. The function is
    total: it never throws. *)
Theorem parseNumber_reads_prefix (text : str) :
  let western := toWesternNumerals (trim text) in
  let digits := digit_prefix (unsigned western) in
  let negative := signed_negative western in
  (parseNumber text = NaN <-> digits = [])
  /\ (digits <> [] ->
      parseNumber text = number_of_integer negative (decimal_value digits)
      /\ (decimal_value digits <= 2 ^ 53 ->
          parseNumber text = Integer negative (decimal_value digits)))
  /\ (integer_literal western = true ->
      parseNumber text
      = number_of_integer negative (decimal_value (unsigned western))
      /\ (decimal_value (unsigned western) <= 2 ^ 53 ->
          parseNumber text
          = Integer negative (decimal_value (unsigned western)))).
Proof.
  intros western digits negative.
  assert (E : parseNumber text
              = if falsy digits then NaN
                else number_of_integer negative (decimal_value digits)).
  { unfold parseNumber. destruct text as [|c t]; [reflexivity|].
    cbn [falsy]. cbv zeta. apply parseInt10_unfold.
    apply toWesternNumerals_no_lead, trimEnd_no_lead, trimStart_no_lead. }
  assert (V : digits <> [] ->
              parseNumber text = number_of_integer negative (decimal_value digits)
              /\ (decimal_value digits <= 2 ^ 53 ->
                  parseNumber text = Integer negative (decimal_value digits))).
  { intros N. assert (P : parseNumber text
                          = number_of_integer negative (decimal_value digits))
      by (rewrite E; destruct digits; [congruence | reflexivity]).
    split; [exact P|]. intros B. rewrite P.
    apply number_of_integer_exact. split; [|exact B].
    apply decimal_value_nonneg, digit_prefix_digits. }
  split; [|split; [exact V|]].
  - rewrite E. destruct digits as [|d ds]; cbn [falsy]; split; try congruence.
    intros H. now apply number_of_integer_number in H.
  - unfold integer_literal. rewrite andb_true_iff, negb_true_iff.
    intros [N D]. subst digits. rewrite (digit_prefix_all _ D) in V.
    apply V. now destruct (unsigned western).
Qed.

(** C6 as stated fails: 12abc is no integer literal, and [parseNumber]
    returns 12 for it, not [NaN]. *)
Lemma parseNumber_trailing_text :
  integer_literal (toWesternNumerals (trim (utf16 "12abc"))) = false
  /\ parseNumber (utf16 "12abc") = Integer false 12
  /\ parseNumber (utf16 "12abc") <> NaN.
Proof. split; [reflexivity | split; [reflexivity | discriminate]]. Qed.

(* ================================================================== *)
(** * slug.ts: truncation *)
(* ================================================================== *)

(** ** The small Unicode instance *)

Lemma lower_latin1_idempotent c : lower_latin1 (lower_latin1 c) = lower_latin1 c.
Proof.
  unfold lower_latin1 at 2 3.
  destruct (is_upper c || _) eqn:E; [|unfold lower_latin1; now rewrite E].
  unfold lower_latin1.
  replace (is_upper (c + 32) || _) with false; [reflexivity|].
  symmetry. revert E. unclass. unbool. lia.
Qed.

Lemma lower_latin1_caseless c x :
  caseless c = true -> lower_latin1 x = c -> x = c.
Proof.
  unfold lower_latin1, caseless.
  destruct (is_upper x || _) eqn:E; [|auto].
  revert E. unclass. unbool. lia.
Qed.

Lemma reference_idempotent s :
  reference_toLowerCase (reference_toLowerCase s) = reference_toLowerCase s.
Proof.
  unfold reference_toLowerCase. rewrite map_map.
  apply map_ext; intros; apply lower_latin1_idempotent.
Qed.

Lemma reference_caseless s c :
  caseless c = true -> In c (reference_toLowerCase s) -> In c s.
Proof.
  unfold reference_toLowerCase. intros Hc Hin.
  apply in_map_iff in Hin. destruct Hin as (x & Hx & Hin).
  now rewrite <- (lower_latin1_caseless c x Hc Hx).
Qed.

Definition reference : Unicode :=
  {| toLowerCase := reference_toLowerCase;
     normalizeNFC := reference_normalizeNFC;
     normalizeNFD := reference_normalizeNFD;
     toLowerCase_idempotent := reference_idempotent;
     toLowerCase_latin1 := fun s _ => eq_refl;
     toLowerCase_caseless := reference_caseless |}.

(** ** [lastIndexOf] *)

Lemma starts_with_iff pat s :
  starts_with pat s = true <-> firstn (length pat) s = pat.
Proof. apply str_eqb_eq. Qed.

Lemma lastIndexOf_from_spec s pat i :
  (lastIndexOf_from s pat i = -1
   /\ forall j, (j <= i)%nat -> starts_with pat (skipn j s) = false)
  \/ (exists k, lastIndexOf_from s pat i = Z.of_nat k /\ (k <= i)%nat
                /\ starts_with pat (skipn k s) = true
                /\ forall j, (k < j <= i)%nat ->
                             starts_with pat (skipn j s) = false).
Proof.
  induction i as [|i IH]; cbn [lastIndexOf_from].
  - destruct (starts_with pat (skipn 0 s)) eqn:E.
    + right; exists 0%nat. repeat split; auto. intros; lia.
    + left; split; [reflexivity|]. intros j Hj. now replace j with 0%nat by lia.
  - destruct (starts_with pat (skipn (S i) s)) eqn:E.
    + right; exists (S i). repeat split; auto. intros; lia.
    + destruct IH as [[-> H]|(k & -> & Hk & Hs & H)].
      * left; split; [reflexivity|]. intros j Hj.
        destruct (Nat.eq_dec j (S i)) as [->|]; [exact E | apply H; lia].
      * right; exists k. repeat split; auto. intros j Hj.
        destruct (Nat.eq_dec j (S i)) as [->|]; [exact E | apply H; lia].
Qed.

Lemma occurs_at_iff pat s k :
  occurs_at pat s k <->
  (length pat <= length s)%nat /\ (k <= length s - length pat)%nat
  /\ starts_with pat (skipn k s) = true.
Proof.
  unfold occurs_at. rewrite starts_with_iff. split.
  - intros [H1 H2]. repeat split; auto; lia.
  - intros (H1 & H2 & H3). split; auto; lia.
Qed.

Lemma lastIndexOf_spec s pat :
  (lastIndexOf s pat = -1 /\ forall k, ~ occurs_at pat s k)
  \/ (exists k, lastIndexOf s pat = Z.of_nat k /\ last_occurrence pat s k).
Proof.
  unfold lastIndexOf. destruct (length pat <=? length s)%nat eqn:L.
  - apply Nat.leb_le in L.
    destruct (lastIndexOf_from_spec s pat (length s - length pat))
      as [[E H]|(k & E & Hk & Hs & H)].
    + left; split; [exact E|]. intros k Hk. apply occurs_at_iff in Hk.
      destruct Hk as (_ & Hk & Hs). rewrite H in Hs by exact Hk. discriminate.
    + right; exists k; split; [exact E|]. split.
      * apply occurs_at_iff; auto.
      * intros j Hj. apply occurs_at_iff in Hj. destruct Hj as (_ & Hj & Hjs).
        destruct (Nat.le_gt_cases j k) as [|G]; [assumption|].
        rewrite H in Hjs by lia. discriminate.
  - apply Nat.leb_gt in L. left; split; [reflexivity|].
    intros k [Hk _]. lia.
Qed.

Lemma lastIndexOf_last s pat k :
  last_occurrence pat s k -> lastIndexOf s pat = Z.of_nat k.
Proof.
  intros [Hk Hlast].
  destruct (lastIndexOf_spec s pat) as [[_ H]|(k' & -> & Hk' & Hlast')].
  - now apply H in Hk.
  - apply Hlast in Hk'. apply Hlast' in Hk. f_equal; lia.
Qed.

Lemma lastIndexOf_none s pat :
  (forall k, ~ occurs_at pat s k) -> lastIndexOf s pat = -1.
Proof.
  intros H.
  destruct (lastIndexOf_spec s pat) as [[E _]|(k' & _ & Hk' & _)];
    [exact E | now apply H in Hk'].
Qed.

(** ** The product [maxLength * 0.7] *)

Lemma binary_round_aux_sign mx ex lx :
  not_negative (binary_round_aux 53 1024 false mx ex lx) = true.
Proof.
  unfold binary_round_aux.
  destruct (shr_fexp 53 1024 mx ex lx) as [mrs' e'].
  destruct (shr_fexp 53 1024 _ e' loc_Exact) as [mrs'' e''].
  destruct (shr_m mrs''); [reflexivity | | reflexivity].
  now destruct (e'' <=? 1024 - 53).
Qed.

Lemma double_of_Z_sign n : 0 <= n -> not_negative (double_of_Z n) = true.
Proof.
  intros H. unfold double_of_Z, binary_normalize.
  destruct n as [|p|p]; [reflexivity | | lia].
  unfold binary_round.
  destruct (shl_align p 0 _) as [mz ez]. apply binary_round_aux_sign.
Qed.

Lemma double_mul_0_7_sign x :
  not_negative x = true -> not_negative (double_mul x double_0_7) = true.
Proof.
  unfold double_mul, double_0_7, SFmul.
  destruct x as [s|s| |s m e]; cbn [not_negative]; try reflexivity;
    rewrite negb_true_iff; intros ->; try reflexivity.
  apply binary_round_aux_sign.
Qed.

Lemma minus_one_not_greater x :
  not_negative x = true -> double_gt (double_of_Z (-1)) x = false.
Proof.
  unfold double_gt, SFltb.
  destruct x as [s|s| |s m e]; cbn [not_negative]; try reflexivity;
    rewrite negb_true_iff; intros ->; reflexivity.
Qed.

(** ** The truncation *)

Lemma len_substring0 s n : 0 <= n <= len s -> len (substring0 s n) = n.
Proof.
  unfold len, substring0. intros H. rewrite length_firstn. lia.
Qed.

Lemma len_substring0_le s n : len (substring0 s n) <= len s.
Proof. unfold len, substring0. rewrite length_firstn. lia. Qed.

Lemma slug_truncate_length slug options :
  0 <= RequiredSlugOptions.maxLength options ->
  len (slug_truncate slug options) <= RequiredSlugOptions.maxLength options.
Proof.
  intros H. unfold slug_truncate. cbv zeta.
  destruct (len slug >? _) eqn:G.
  - apply Z.gtb_lt in G.
    pose proof (len_substring0 slug (RequiredSlugOptions.maxLength options)
                  ltac:(lia)) as E.
    destruct (double_gt _ _); [|lia].
    etransitivity; [apply len_substring0_le | lia].
  - rewrite Z.gtb_ltb in G. apply Z.ltb_ge in G. exact G.
Qed.

Section SlugFacts.
Context {U : Unicode}.

(** C3. For every input string and every [maxLength >= 1], the length of
    [generateSlug(t, {maxLength})] is at most [maxLength] (and the call
    returns a slug). *)
Theorem generateSlug_length (text : str) (maxLength : Z) :
  1 <= maxLength ->
  exists slug,
    generateSlug text (only_maxLength maxLength) = Some slug
    /\ len slug <= maxLength.
Proof.
  intros H. unfold generateSlug.
  destruct (falsy text).
  - exists []. split; [reflexivity | unfold len; simpl; lia].
  - cbv zeta. unfold slugifyLatin.
    cbn [only_maxLength spread_options DEFAULT_OPTIONS
         RequiredSlugOptions.separator SlugOptions.separator].
    change (literal_separator [45]) with (Some 45).
    eexists; split; [reflexivity|].
    match goal with |- len (slug_truncate _ ?o) <= _ =>
      apply (slug_truncate_length _ o) end.
    cbn. lia.
Qed.

(** C4, as amended. Lines 68-76 of slug.ts, the last step of [slugifyLatin],
    for every separator string and every [maxLength] that is not negative.
    When the slug after filtering, collapsing and trimming is longer than
    [maxLength], it is first cut to exactly [maxLength] characters; if the
    separator occurs in the cut string and its last occurrence is at an
    index strictly greater than the double-precision product
    [maxLength * 0.7], the slug is cut at that occurrence instead, the
    separator and everything after it being discarded; otherwise (the last
    occurrence is at or before that product, or there is none) the cut at
    [maxLength] is kept. *)
Theorem slugifyLatin_truncation (slug : str) (options : RequiredSlugOptions.t) :
  let maxLength := RequiredSlugOptions.maxLength options in
  let separator := RequiredSlugOptions.separator options in
  let truncated := substring0 slug maxLength in
  let threshold := double_mul (double_of_Z maxLength) double_0_7 in
  0 <= maxLength -> len slug > maxLength ->
  len truncated = maxLength
  /\ (forall k, last_occurrence separator truncated k ->
        truncated = firstn k truncated ++ separator
                    ++ skipn (k + length separator) truncated
        /\ slug_truncate slug options
           = if double_gt (double_of_Z (Z.of_nat k)) threshold
             then firstn k truncated else truncated)
  /\ ((forall k, ~ occurs_at separator truncated k) ->
      slug_truncate slug options = truncated).
Proof.
  intros maxLength separator truncated threshold Hmax Hlen.
  assert (E : slug_truncate slug options
              = if double_gt (double_of_Z (lastIndexOf truncated separator))
                             threshold
                then substring0 truncated (lastIndexOf truncated separator)
                else truncated).
  { unfold slug_truncate. fold maxLength. cbv zeta.
    replace (len slug >? maxLength) with true by (symmetry; apply Z.gtb_lt; lia).
    reflexivity. }
  split; [apply len_substring0; lia | split].
  - intros k Hk. split.
    + destruct Hk as [[Hb Ho] _].
      rewrite <- (firstn_skipn k truncated) at 1. f_equal.
      rewrite <- (firstn_skipn (length separator) (skipn k truncated)) at 1.
      rewrite Ho. f_equal. now rewrite skipn_skipn, Nat.add_comm.
    + rewrite E, (lastIndexOf_last _ _ _ Hk).
      unfold substring0. now rewrite Nat2Z.id.
  - intros Hnone. rewrite E, (lastIndexOf_none _ _ Hnone).
    rewrite minus_one_not_greater; [reflexivity|].
    apply double_mul_0_7_sign, double_of_Z_sign, Hmax.
Qed.

End SlugFacts.

(** The bound at the README's example. *)
Lemma generateSlug_length_witness :
  1 <= 10
  /\ exists slug,
       generateSlug (U := reference) (utf16 "Very Long Title Here")
         (only_maxLength 10) = Some slug
       /\ len slug <= 10.
Proof.
  split; [lia | apply (generateSlug_length (U := reference)); lia].
Defined.

(** The truncation at the README's example: the slug very-long-title-here is
    cut to very-long-, whose last separator at index 9 is beyond 7, so that
    [slugifyLatin] returns very-long. *)
Lemma slugifyLatin_truncation_witness :
  0 <= 10
  /\ len (slug_filter (U := reference) (utf16 "Very Long Title Here") 0x2D
            README_options) > 10
  /\ slugifyLatin (U := reference) (utf16 "Very Long Title Here") README_options
     = Some (utf16 "very-long").
Proof.
  assert (H2 : 0 <= 10) by lia.
  assert (H3 : len (slug_filter (U := reference) (utf16 "Very Long Title Here")
                      0x2D README_options) > 10) by reflexivity.
  repeat (split; [assumption|]).
  destruct (slugifyLatin_truncation
              (slug_filter (U := reference) (utf16 "Very Long Title Here") 0x2D
                 README_options)
              README_options H2 H3)
    as (_ & Hcut & _).
  destruct (lastIndexOf_spec
              (substring0 (slug_filter (U := reference)
                             (utf16 "Very Long Title Here") 0x2D README_options) 10)
              [0x2D]) as [[E _]|(k & E & Hk)]; [discriminate E|].
  assert (K : k = 9%nat) by (apply Nat2Z.inj; rewrite <- E; reflexivity).
  subst k. destruct (Hcut 9%nat Hk) as [_ Hr].
  change (slugifyLatin (U := reference) (utf16 "Very Long Title Here")
            README_options)
    with (Some (slug_truncate
                  (slug_filter (U := reference) (utf16 "Very Long Title Here")
                     0x2D README_options)
                  README_options)).
  rewrite Hr. reflexivity.
Defined.

(** C4 as stated fails at the threshold itself: with [maxLength] 10 the
    product is exactly 7, the last separator of the cut string is at index
    7, which is at 0.7 * maxLength, and the slug is still cut at 10. *)
Lemma slug_truncate_at_threshold :
  let options := README_options in
  let slug := slug_filter (U := reference) (utf16 "abcdefg hijkl") 0x2D options in
  let truncated := substring0 slug 10 in
  slug = utf16 "abcdefg-hijkl"
  /\ len slug > 10
  /\ lastIndexOf truncated [0x2D] = 7
  /\ 10 * 7 >= 7 * 10
  /\ generateSlug (U := reference) (utf16 "abcdefg hijkl") (only_maxLength 10)
     = Some (utf16 "abcdefg-hi")
  /\ slug_truncate_claimed slug options = utf16 "abcdefg"
  /\ utf16 "abcdefg-hi" <> utf16 "abcdefg".
Proof.
  cbv zeta. repeat (split; [reflexivity || lia|]). discriminate.
Qed.

(* ================================================================== *)
(** * transliterate.ts: the round trip on core text *)
(* ================================================================== *)

Lemma core_char_alphabet c : core_char c = true -> In c core_alphabet.
Proof.
  unfold core_char. intros H. apply orb_true_iff in H.
  destruct H as [H|H].
  - right. unfold core_letter in H. apply existsb_exists in H.
    destruct H as ([k v] & Hin & Hk). apply str_eqb_eq in Hk. cbn [fst] in Hk.
    apply in_map_iff. exists (k, v). split; [now rewrite Hk | exact Hin].
  - left. apply Z.eqb_eq in H. now symmetry.
Qed.

Lemma core_char_plain c : core_char c = true -> plain_form c = true.
Proof.
  assert (H : forallb plain_form core_alphabet = true) by (vm_compute; reflexivity).
  rewrite forallb_forall in H. intros Hc. apply H, core_char_alphabet, Hc.
Qed.

Lemma core_char_decodes x y :
  core_char x = true -> core_char y = true ->
  ambiguous_pair x y = false -> decodes_before x y = true.
Proof.
  assert (H : forallb (fun x => forallb (fun y => ambiguous_pair x y
                                                  || decodes_before x y)
                                        core_alphabet) core_alphabet = true)
    by (vm_compute; reflexivity).
  rewrite forallb_forall in H. intros Hx Hy A.
  specialize (H x (core_char_alphabet x Hx)). rewrite forallb_forall in H.
  specialize (H y (core_char_alphabet y Hy)).
  now rewrite A in H.
Qed.

Lemma get_entry tbl key v : get tbl key = Some v -> In (key, v) tbl.
Proof.
  induction tbl as [|[k w] rest IH]; simpl; [discriminate|].
  destruct (str_eqb k key) eqn:E; [|auto].
  apply str_eqb_eq in E. intros [= ->]. left. now rewrite E.
Qed.

Lemma core_letter_not_ws c v :
  get UYGHUR_ARABIC_TO_LATIN [c] = Some v -> is_ws c = false.
Proof.
  intros G. apply get_entry in G.
  assert (H : forallb (fun kv => negb (test is_ws (fst kv)))
                UYGHUR_ARABIC_TO_LATIN = true) by reflexivity.
  rewrite forallb_forall in H. specialize (H _ G).
  cbn [fst test existsb] in H. now rewrite orb_false_r, negb_true_iff in H.
Qed.

Lemma ambiguous_pair_letters x y :
  ambiguous_pair x y = true -> is_ws x = false /\ is_ws y = false.
Proof.
  unfold ambiguous_pair.
  destruct (get UYGHUR_ARABIC_TO_LATIN [x]) as [vx|] eqn:Gx; [|discriminate].
  destruct (get UYGHUR_ARABIC_TO_LATIN [y]) as [vy|] eqn:Gy;
    [|destruct vx as [|? [|]]; discriminate].
  intros _. split; eapply core_letter_not_ws; eassumption.
Qed.

(** ** Whitespace normalization of a text and of its Latin form *)

Lemma replace_ws_word b by_ w r :
  w <> [] -> forallb (fun x => negb (is_ws x)) w = true ->
  replace_ws_from b by_ (w ++ r) = w ++ replace_ws_from false by_ r.
Proof.
  revert b; induction w as [|c w IH]; intros b Hne Hw; [congruence|].
  cbn [forallb] in Hw. apply andb_true_iff in Hw. destruct Hw as [Hc Hw].
  apply negb_true_iff in Hc. cbn [app replace_ws_from]. rewrite Hc. f_equal.
  destruct w as [|c' w']; [reflexivity|]. apply IH; [discriminate | exact Hw].
Qed.

Lemma trimStart_word w r :
  w <> [] -> forallb (fun x => negb (is_ws x)) w = true ->
  trimStart (w ++ r) = w ++ r.
Proof.
  destruct w as [|c w]; [congruence|]. intros _ Hw.
  cbn [forallb] in Hw. apply andb_true_iff in Hw. destruct Hw as [Hc _].
  apply negb_true_iff in Hc. cbn [app trimStart]. now rewrite Hc.
Qed.

Lemma trimEnd_word w r :
  forallb (fun x => negb (is_ws x)) w = true ->
  trimEnd (w ++ r) = w ++ trimEnd r.
Proof.
  induction w as [|c w IH]; intros Hw; [reflexivity|].
  cbn [forallb] in Hw. apply andb_true_iff in Hw. destruct Hw as [Hc Hw].
  apply negb_true_iff in Hc. cbn [app].
  now rewrite !trimEnd_cons_word, IH.
Qed.

Lemma trimEnd_cons_ws c s :
  is_ws c = true ->
  trimEnd (c :: s) = if forallb is_ws s then [] else c :: trimEnd s.
Proof.
  intros W. cbn [trimEnd]. rewrite W.
  destruct (forallb is_ws s) eqn:F.
  - apply trimEnd_nil_iff in F. now rewrite F.
  - destruct (trimEnd s) eqn:E; [|reflexivity].
    apply trimEnd_nil_iff in E. congruence.
Qed.

Section Forms.
(** [f] writes a form for every character of a text over [alphabet]: the
    space for a whitespace character, a word for any other. *)
Variable f : Z -> str.
Variable alphabet : Z -> bool.
Hypothesis form_space : f 0x20 = [0x20].
Hypothesis form_ws :
  forall c, alphabet c = true -> is_ws c = true -> f c = [0x20].
Hypothesis form_word :
  forall c, alphabet c = true -> is_ws c = false ->
            f c <> [] /\ forallb (fun x => negb (is_ws x)) (f c) = true.

Lemma replace_ws_forms b t :
  forallb alphabet t = true ->
  replace_ws_from b [0x20] (flat_map f t)
  = flat_map f (replace_ws_from b [0x20] t).
Proof.
  revert b; induction t as [|c t IH]; intros b; [reflexivity|].
  cbn [forallb]. rewrite andb_true_iff. intros [Hc Ht].
  cbn [flat_map replace_ws_from]. destruct (is_ws c) eqn:W.
  - rewrite (form_ws c Hc W). cbn [app replace_ws_from].
    change (is_ws 32) with true. cbv iota. rewrite IH, flat_map_app by exact Ht.
    destruct b; cbn [flat_map app]; [reflexivity | now rewrite form_space].
  - destruct (form_word c Hc W) as [Hne Hw].
    rewrite replace_ws_word by assumption. cbn [flat_map]. now rewrite IH.
Qed.

Lemma trimStart_forms t :
  forallb alphabet t = true ->
  trimStart (flat_map f t) = flat_map f (trimStart t).
Proof.
  induction t as [|c t IH]; [reflexivity|].
  cbn [forallb]. rewrite andb_true_iff. intros [Hc Ht].
  cbn [flat_map trimStart]. destruct (is_ws c) eqn:W.
  - rewrite (form_ws c Hc W). exact (IH Ht).
  - destruct (form_word c Hc W) as [Hne Hw]. now apply trimStart_word.
Qed.

Lemma forallb_ws_forms t :
  forallb alphabet t = true ->
  forallb is_ws (flat_map f t) = forallb is_ws t.
Proof.
  induction t as [|c t IH]; [reflexivity|].
  cbn [forallb]. rewrite andb_true_iff. intros [Hc Ht].
  cbn [flat_map]. rewrite forallb_app, IH by exact Ht.
  destruct (is_ws c) eqn:W.
  - now rewrite (form_ws c Hc W).
  - destruct (form_word c Hc W) as [Hne Hw].
    destruct (f c) as [|x w]; [congruence|].
    cbn [forallb] in *. apply andb_true_iff in Hw. destruct Hw as [Hx _].
    apply negb_true_iff in Hx. now rewrite Hx.
Qed.

Lemma trimEnd_forms t :
  forallb alphabet t = true ->
  trimEnd (flat_map f t) = flat_map f (trimEnd t).
Proof.
  induction t as [|c t IH]; [reflexivity|].
  cbn [forallb]. rewrite andb_true_iff. intros [Hc Ht].
  pose proof (forallb_ws_forms t Ht) as At.
  cbn [flat_map]. destruct (is_ws c) eqn:W.
  - rewrite (form_ws c Hc W). cbn [app].
    rewrite !trimEnd_cons_ws by (assumption || reflexivity).
    rewrite At. destruct (forallb is_ws t); [reflexivity|].
    cbn [flat_map]. rewrite (form_ws c Hc W), IH by exact Ht. reflexivity.
  - destruct (form_word c Hc W) as [Hne Hw].
    rewrite trimEnd_word by assumption.
    rewrite IH, trimEnd_cons_word by assumption. reflexivity.
Qed.

End Forms.

Lemma uly_of_space : uly_of 0x20 = [0x20].
Proof. reflexivity. Qed.

Lemma uly_of_ws c :
  core_char c = true -> is_ws c = true -> uly_of c = [0x20].
Proof.
  intros Hc W. pose proof (core_char_plain c Hc) as P.
  unfold plain_form in P. rewrite W in P. rewrite !andb_true_iff in P.
  destruct P as [[[_ _] P] _]. now apply str_eqb_eq.
Qed.

Lemma uly_of_word c :
  core_char c = true -> is_ws c = false ->
  uly_of c <> [] /\ forallb (fun x => negb (is_ws x)) (uly_of c) = true.
Proof.
  intros Hc W. pose proof (core_char_plain c Hc) as P.
  unfold plain_form in P. rewrite W in P. rewrite !andb_true_iff in P.
  destruct P as [[[N _] P] _]. split; [|exact P].
  destruct (uly_of c); discriminate.
Qed.

Lemma uly_of_latin1 t :
  forallb core_char t = true ->
  forallb (between 0 0xFF) (flat_map uly_of t) = true
  /\ map lower_latin1 (flat_map uly_of t) = flat_map uly_of t.
Proof.
  induction t as [|c t IH]; [split; reflexivity|].
  cbn [forallb]. rewrite andb_true_iff. intros [Hc Ht].
  destruct (IH Ht) as [IH1 IH2].
  cbn [flat_map]. rewrite forallb_app, map_app, IH1, IH2.
  pose proof (core_char_plain c Hc) as P.
  unfold plain_form in P. rewrite !andb_true_iff in P.
  destruct P as [[[_ P] _] _].
  assert (Q : forallb (between 0 255) (uly_of c) = true
              /\ map lower_latin1 (uly_of c) = uly_of c).
  { induction (uly_of c) as [|x w IHw]; [split; reflexivity|].
    cbn [forallb map] in *. rewrite !andb_true_iff in P.
    destruct P as [[B L] Pw]. destruct (IHw Pw) as [-> ->].
    apply Z.eqb_eq in L. rewrite B, L. split; reflexivity. }
  destruct Q as [-> ->]. split; reflexivity.
Qed.

Lemma core_text_no_surrogate t :
  forallb core_char t = true -> forallb (fun c => negb (is_high c)) t = true.
Proof.
  intros H. rewrite forallb_forall in *. intros c Hc.
  assert (A : forallb (fun c => negb (is_high c)) core_alphabet = true)
    by reflexivity.
  rewrite forallb_forall in A. apply A, core_char_alphabet, H, Hc.
Qed.

Lemma flat_map_units (f : str -> str) t :
  flat_map f (map (fun c => [c]) t) = flat_map (fun c => f [c]) t.
Proof. induction t as [|c t IH]; simpl; [reflexivity | now rewrite IH]. Qed.

(** On a core text, [toULY] writes the Latin forms of the characters of the
    whitespace-normalized text. *)
Lemma toULY_core t :
  forallb core_char t = true ->
  toULY t = flat_map uly_of (normalize_whitespace t).
Proof.
  intros H. unfold toULY. destruct (falsy t) eqn:F.
  { destruct t; [reflexivity | discriminate]. }
  cbv zeta.
  rewrite toULY_loop, chars_bmp by now apply core_text_no_surrogate.
  cbn [app]. rewrite flat_map_units.
  change (fun c => toULY_step [] [c]) with uly_of.
  unfold normalize_whitespace, trim, replace_ws_runs.
  pose proof (forallb_replace_ws core_char false [0x20] t eq_refl H) as H1.
  pose proof (forallb_trimStart core_char _ H1) as H2.
  rewrite (replace_ws_forms uly_of core_char uly_of_space uly_of_ws uly_of_word)
    by exact H.
  rewrite (trimStart_forms uly_of core_char uly_of_ws uly_of_word) by exact H1.
  now rewrite (trimEnd_forms uly_of core_char uly_of_ws uly_of_word) by exact H2.
Qed.

(** ** Unambiguous texts *)

Lemma unambiguous_cons x y t :
  unambiguous (x :: y :: t)
  = negb (ambiguous_pair x y) && unambiguous (y :: t).
Proof. reflexivity. Qed.

Lemma unambiguous_tail x t : unambiguous (x :: t) = true -> unambiguous t = true.
Proof.
  destruct t as [|y t]; [reflexivity|]. rewrite unambiguous_cons, andb_true_iff.
  tauto.
Qed.

Lemma ambiguous_pair_ws_l x y : is_ws x = true -> ambiguous_pair x y = false.
Proof.
  intros W. destruct (ambiguous_pair x y) eqn:A; [|reflexivity].
  apply ambiguous_pair_letters in A. destruct A; congruence.
Qed.

Lemma ambiguous_pair_ws_r x y : is_ws y = true -> ambiguous_pair x y = false.
Proof.
  intros W. destruct (ambiguous_pair x y) eqn:A; [|reflexivity].
  apply ambiguous_pair_letters in A. destruct A; congruence.
Qed.

Lemma unambiguous_trimStart t :
  unambiguous t = true -> unambiguous (trimStart t) = true.
Proof.
  induction t as [|c t IH]; [reflexivity|]. intros H. cbn [trimStart].
  destruct (is_ws c); [apply IH, (unambiguous_tail c), H | exact H].
Qed.

Lemma trimEnd_head c t x r :
  trimEnd (c :: t) = x :: r -> x = c.
Proof.
  cbn [trimEnd]. destruct (trimEnd t); [destruct (is_ws c)|]; congruence.
Qed.

Lemma unambiguous_trimEnd t :
  unambiguous t = true -> unambiguous (trimEnd t) = true.
Proof.
  induction t as [|c t IH]; [reflexivity|]. intros H.
  pose proof (IH (unambiguous_tail c t H)) as IHt.
  cbn [trimEnd]. destruct (trimEnd t) as [|x r] eqn:E.
  - now destruct (is_ws c).
  - rewrite unambiguous_cons, IHt, andb_true_r.
    destruct t as [|y t']; [discriminate|].
    apply trimEnd_head in E. subst x.
    rewrite unambiguous_cons, andb_true_iff in H. tauto.
Qed.

Lemma unambiguous_replace_ws b t :
  unambiguous t = true -> unambiguous (replace_ws_from b [0x20] t) = true.
Proof.
  revert b; induction t as [|c t IH]; intros b H; [reflexivity|].
  pose proof (unambiguous_tail c t H) as Ht.
  cbn [replace_ws_from]. destruct (is_ws c) eqn:W.
  - destruct b; cbn [app]; [now apply IH|].
    specialize (IH true Ht).
    destruct (replace_ws_from true [32] t) as [|y r] eqn:E; [reflexivity|].
    rewrite unambiguous_cons, IH, andb_true_r, ambiguous_pair_ws_l; reflexivity.
  - specialize (IH false Ht).
    destruct t as [|y t']; [reflexivity|].
    cbn [replace_ws_from] in *. destruct (is_ws y) eqn:Wy.
    + cbn [app] in *. rewrite unambiguous_cons, IH, andb_true_r.
      now rewrite ambiguous_pair_ws_r.
    + rewrite unambiguous_cons, IH, andb_true_r.
      rewrite unambiguous_cons, andb_true_iff in H. tauto.
Qed.

Lemma unambiguous_normalize_whitespace t :
  unambiguous t = true -> unambiguous (normalize_whitespace t) = true.
Proof.
  intros H.
  apply unambiguous_trimEnd, unambiguous_trimStart, unambiguous_replace_ws, H.
Qed.

(** ** The loop of [toArabic] on the Latin form of a core text *)

Lemma match_multi_two a b r :
  match_multi MULTI_CHAR_LATIN (a :: b :: r)
  = match_multi MULTI_CHAR_LATIN [a; b].
Proof. reflexivity. Qed.

Lemma toArabic_loop_step a b r :
  toArabic_loop 0 (a :: b :: r)
  = match match_multi MULTI_CHAR_LATIN [a; b] with
    | Some (mapped, n) => mapped ++ toArabic_loop (n - 1) (b :: r)
    | None => toArabic_char a ++ toArabic_loop 0 (b :: r)
    end.
Proof. cbn [toArabic_loop]. now rewrite match_multi_two. Qed.

Lemma toArabic_loop_form x y r :
  core_char x = true -> core_char y = true -> ambiguous_pair x y = false ->
  toArabic_loop 0 (uly_of x ++ uly_of y ++ r)
  = x :: toArabic_loop 0 (uly_of y ++ r).
Proof.
  intros Hx Hy A. pose proof (core_char_decodes x y Hx Hy A) as D.
  unfold decodes_before in D.
  destruct (uly_of x) as [|a [|a2 [|]]]; try discriminate;
    destruct (uly_of y) as [|b w]; try discriminate; cbn [app].
  - rewrite toArabic_loop_step.
    destruct (match_multi MULTI_CHAR_LATIN [a; b]); [discriminate|].
    apply str_eqb_eq in D. now rewrite D.
  - rewrite toArabic_loop_step.
    destruct (match_multi MULTI_CHAR_LATIN [a; a2]) as [[mapped n]|];
      [|discriminate].
    apply andb_true_iff in D. destruct D as [D N].
    apply str_eqb_eq in D. apply Nat.eqb_eq in N. subst. reflexivity.
Qed.

Lemma toArabic_loop_forms t :
  forallb core_char t = true -> unambiguous t = true ->
  toArabic_loop 0 (flat_map uly_of t) = t.
Proof.
  induction t as [|x t IH]; [reflexivity|].
  cbn [forallb]. rewrite andb_true_iff. intros [Hx Ht] H.
  destruct t as [|y t'].
  - cbn [flat_map]. rewrite app_nil_r.
    pose proof (core_char_plain x Hx) as P. unfold plain_form in P.
    rewrite !andb_true_iff in P. destruct P as [_ P]. now apply str_eqb_eq.
  - pose proof Ht as Ht'. cbn [forallb] in Ht'. apply andb_true_iff in Ht'.
    destruct Ht' as [Hy _].
    rewrite unambiguous_cons, andb_true_iff, negb_true_iff in H.
    destruct H as [A H].
    change (flat_map uly_of (x :: y :: t'))
      with (uly_of x ++ uly_of y ++ flat_map uly_of t').
    rewrite toArabic_loop_form by assumption. f_equal.
    exact (IH Ht H).
Qed.

Section RoundTrip.
Context {U : Unicode}.

(** The round trip on a core text without ambiguous pairs. *)
Lemma roundtrip_when_unambiguous (t : str) :
  core_text t = true -> unambiguous t = true ->
  latinToArabic (arabicToLatin t) = normalize_whitespace t.
Proof.
  intros Hcore Hun. change (forallb core_char t = true) in Hcore.
  unfold arabicToLatin, latinToArabic. rewrite (toULY_core t Hcore).
  assert (Hn : forallb core_char (normalize_whitespace t) = true).
  { apply forallb_trim, forallb_replace_ws; [reflexivity | exact Hcore]. }
  destruct (uly_of_latin1 _ Hn) as [L1 L2].
  unfold toArabic. cbv zeta. rewrite (toLowerCase_latin1 _ L1), L2.
  rewrite toArabic_loop_forms
    by (assumption || now apply unambiguous_normalize_whitespace).
  destruct (normalize_whitespace_fixed t) as [_ T].
  cbv zeta in T. fold (normalize_whitespace t) in T.
  destruct (flat_map uly_of (normalize_whitespace t)) eqn:E; cbn [falsy];
    [|exact T].
  destruct (normalize_whitespace t) as [|c r] eqn:N; [reflexivity|].
  exfalso. cbn [forallb] in Hn. apply andb_true_iff in Hn. destruct Hn as [Hc _].
  pose proof (core_char_plain c Hc) as P. unfold plain_form in P.
  rewrite !andb_true_iff in P. destruct P as [[[P _] _] _].
  cbn [flat_map] in E. destruct (uly_of c); [discriminate P | discriminate E].
Qed.

End RoundTrip.

Lemma ambiguous_pair_listed x y :
  ambiguous_pair x y = true <-> In (x, y) ambiguous_pairs.
Proof.
  split.
  - intros A.
    assert (Hx : In x core_alphabet /\ In y core_alphabet).
    { unfold ambiguous_pair in A.
      destruct (get UYGHUR_ARABIC_TO_LATIN [x]) as [vx|] eqn:Gx; [|discriminate].
      destruct (get UYGHUR_ARABIC_TO_LATIN [y]) as [vy|] eqn:Gy;
        [|destruct vx as [|? [|]]; discriminate].
      apply get_entry in Gx, Gy.
      split; right; apply in_map_iff.
      - exists ([x], vx); split; [reflexivity | exact Gx].
      - exists ([y], vy); split; [reflexivity | exact Gy]. }
    destruct Hx as [Hx Hy].
    assert (C : forallb (fun x => forallb (fun y =>
                  implb (ambiguous_pair x y)
                        (existsb (fun p => (fst p =? x) && (snd p =? y))
                                 ambiguous_pairs))
                  core_alphabet) core_alphabet = true) by (vm_compute; reflexivity).
    rewrite forallb_forall in C. specialize (C x Hx).
    rewrite forallb_forall in C. specialize (C y Hy). rewrite A in C.
    cbn [implb] in C. apply existsb_exists in C. destruct C as ([p q] & Hin & E).
    cbn [fst snd] in E. apply andb_true_iff in E. destruct E as [E1 E2].
    apply Z.eqb_eq in E1, E2. now subst.
  - unfold ambiguous_pairs. cbn [In].
    intros [E|[E|[E|[E|[E|[]]]]]]; inversion E; reflexivity.
Qed.

Lemma core_char_misreads x y :
  core_char x = true -> core_char y = true ->
  ambiguous_pair x y = true -> misreads x y = true.
Proof.
  assert (H : forallb (fun x => forallb (fun y => implb (ambiguous_pair x y)
                                                    (misreads x y))
                                        core_alphabet) core_alphabet = true)
    by (vm_compute; reflexivity).
  rewrite forallb_forall in H. intros Hx Hy A.
  specialize (H x (core_char_alphabet x Hx)). rewrite forallb_forall in H.
  specialize (H y (core_char_alphabet y Hy)). now rewrite A in H.
Qed.

Lemma unambiguous_ws t : forallb is_ws t = true -> unambiguous t = true.
Proof.
  induction t as [|c t IH]; [reflexivity|].
  cbn [forallb]. rewrite andb_true_iff. intros [Hc Ht].
  destruct t as [|y t']; [reflexivity|].
  now rewrite unambiguous_cons, (ambiguous_pair_ws_l c y Hc), (IH Ht).
Qed.

Lemma unambiguous_before_ws c t :
  is_ws c = true -> unambiguous t = true -> unambiguous (c :: t) = true.
Proof.
  intros W H. destruct t as [|y t']; [reflexivity|].
  now rewrite unambiguous_cons, (ambiguous_pair_ws_l c y W), H.
Qed.

Lemma trimStart_unambiguous t :
  unambiguous (trimStart t) = true -> unambiguous t = true.
Proof.
  induction t as [|c t IH]; [reflexivity|]. cbn [trimStart].
  destruct (is_ws c) eqn:W; [|auto].
  intros H. apply unambiguous_before_ws; auto.
Qed.

Lemma trimEnd_unambiguous t :
  unambiguous (trimEnd t) = true -> unambiguous t = true.
Proof.
  induction t as [|c t IH]; [reflexivity|].
  destruct (is_ws c) eqn:W.
  - rewrite (trimEnd_cons_ws c t W). destruct (forallb is_ws t) eqn:F.
    + intros _. apply unambiguous_ws. cbn [forallb]. now rewrite W, F.
    + intros H. apply unambiguous_before_ws; [exact W|].
      apply IH, (unambiguous_tail c), H.
  - rewrite (trimEnd_cons_word c t W). intros H.
    pose proof (IH (unambiguous_tail c _ H)) as Ht.
    destruct t as [|y t']; [reflexivity|].
    rewrite unambiguous_cons, Ht, andb_true_r.
    destruct (trimEnd (y :: t')) as [|x r] eqn:E.
    + apply trimEnd_nil_iff in E. cbn [forallb] in E.
      apply andb_true_iff in E. destruct E as [Wy _].
      now rewrite (ambiguous_pair_ws_r c y Wy).
    + apply trimEnd_head in E. subst x.
      rewrite unambiguous_cons, andb_true_iff in H. tauto.
Qed.

Lemma replace_ws_unambiguous b t :
  unambiguous (replace_ws_from b [0x20] t) = true -> unambiguous t = true.
Proof.
  revert b; induction t as [|c t IH]; intros b; [reflexivity|].
  cbn [replace_ws_from]. destruct (is_ws c) eqn:W.
  - intros H. apply unambiguous_before_ws; [exact W|]. apply (IH true).
    destruct b; cbn [app] in H; [exact H | exact (unambiguous_tail _ _ H)].
  - intros H. pose proof (IH false (unambiguous_tail c _ H)) as Ht.
    destruct t as [|y t']; [reflexivity|].
    rewrite unambiguous_cons, Ht, andb_true_r.
    cbn [replace_ws_from] in H. destruct (is_ws y) eqn:Wy.
    + now rewrite (ambiguous_pair_ws_r c y Wy).
    + rewrite unambiguous_cons, andb_true_iff in H. tauto.
Qed.

Lemma normalize_whitespace_unambiguous t :
  unambiguous (normalize_whitespace t) = true -> unambiguous t = true.
Proof.
  intros H.
  apply (replace_ws_unambiguous false), trimStart_unambiguous,
    trimEnd_unambiguous, H.
Qed.

Lemma trimEnd_app_word w z r :
  is_ws z = false -> trimEnd (w ++ z :: r) = w ++ z :: trimEnd r.
Proof.
  intros W. induction w as [|c w IH]; cbn [app].
  - apply trimEnd_cons_word, W.
  - cbn [trimEnd]. rewrite IH. now destruct w.
Qed.

(** At the first ambiguous pair of a core text, the loop of [toArabic] has
    read the text so far and writes another letter than the text has. *)
Lemma toArabic_loop_misreads t :
  forallb core_char t = true -> unambiguous t = false ->
  exists p x z r1 r2,
    t = p ++ x :: r2 /\ toArabic_loop 0 (flat_map uly_of t) = p ++ z :: r1
    /\ z <> x /\ is_ws z = false.
Proof.
  induction t as [|x t IH]; [discriminate|].
  cbn [forallb]. rewrite andb_true_iff. intros [Hx Ht] H.
  destruct t as [|y t']; [discriminate|].
  pose proof Ht as Ht'. cbn [forallb] in Ht'. apply andb_true_iff in Ht'.
  destruct Ht' as [Hy _].
  change (flat_map uly_of (x :: y :: t'))
    with (uly_of x ++ uly_of y ++ flat_map uly_of t').
  destruct (ambiguous_pair x y) eqn:A.
  - pose proof (core_char_misreads x y Hx Hy A) as M. unfold misreads in M.
    destruct (uly_of x) as [|a [|]]; try discriminate.
    destruct (uly_of y) as [|b w]; try discriminate.
    cbn [app]. rewrite toArabic_loop_step.
    destruct (match_multi MULTI_CHAR_LATIN [a; b]) as [[[|z [|]] n]|];
      try discriminate.
    apply andb_true_iff in M. destruct M as [M1 M2].
    apply negb_true_iff in M1, M2. apply Z.eqb_neq in M1.
    exists [], x, z. eexists. eexists. cbn [app]. repeat split; eauto.
  - rewrite unambiguous_cons, A in H. cbn [negb andb] in H.
    destruct (IH Ht H) as (p & x' & z & r1 & r2 & E1 & E2 & N & W).
    rewrite toArabic_loop_form by assumption.
    change (uly_of y ++ flat_map uly_of t') with (flat_map uly_of (y :: t')).
    rewrite E2, E1. exists (x :: p), x', z, r1, r2. repeat split; auto.
Qed.

Section RoundTripConverse.
Context {U : Unicode}.

(** C1, as amended. For every text of core Uyghur Arabic letters and spaces,
    [latinToArabic (arabicToLatin t)] is [t] with its runs of whitespace
    collapsed to one space and its ends trimmed if and only if no letter
    written with one Latin letter is directly followed in [t] by a letter
    whose Latin form completes one of the sequences ch, zh, sh, gh, ng (the
    pairs s+h, z+h, g+h, n+g and n+gh of [ambiguous_pairs]). *)
Theorem latinToArabic_arabicToLatin (t : str) :
  core_text t = true ->
  (latinToArabic (arabicToLatin t) = normalize_whitespace t
   <-> unambiguous t = true).
Proof.
  intros Hcore. split; [|now apply roundtrip_when_unambiguous].
  intros E. destruct (unambiguous t) eqn:Un; [reflexivity|]. exfalso.
  change (forallb core_char t = true) in Hcore.
  assert (Hn : forallb core_char (normalize_whitespace t) = true).
  { apply forallb_trim, forallb_replace_ws; [reflexivity | exact Hcore]. }
  assert (Un' : unambiguous (normalize_whitespace t) = false).
  { destruct (unambiguous (normalize_whitespace t)) eqn:K; [|reflexivity].
    apply normalize_whitespace_unambiguous in K. congruence. }
  destruct (toArabic_loop_misreads _ Hn Un')
    as (p & x & z & r1 & r2 & E1 & E2 & N & W).
  revert E. unfold arabicToLatin, latinToArabic.
  rewrite (toULY_core t Hcore).
  destruct (uly_of_latin1 _ Hn) as [L1 L2].
  unfold toArabic. cbv zeta. rewrite (toLowerCase_latin1 _ L1), L2, E2.
  assert (Hlead : no_lead (p ++ z :: r1) = true).
  { destruct p as [|c p'].
    - cbn [app no_lead]. now rewrite W.
    - pose proof (trimEnd_no_lead _ (trimStart_no_lead
                    (replace_ws_runs [0x20] t))) as NL.
      fold (trim (replace_ws_runs [0x20] t)) in NL.
      fold (normalize_whitespace t) in NL. rewrite E1 in NL. exact NL. }
  unfold trim. rewrite (trimStart_fixed _ Hlead), (trimEnd_app_word p z r1 W).
  destruct (flat_map uly_of (normalize_whitespace t)); cbn [falsy]; rewrite E1.
  - destruct p; discriminate.
  - intros E. apply app_inv_head in E. congruence.
Qed.

End RoundTripConverse.

(** The round trip at salam dunya written with two spaces. *)
Lemma latinToArabic_arabicToLatin_witness :
  core_text salam_dunya = true /\ unambiguous salam_dunya = true
  /\ latinToArabic (U := reference) (arabicToLatin salam_dunya)
     = normalize_whitespace salam_dunya.
Proof.
  split; [reflexivity | split; [reflexivity|]].
  apply (latinToArabic_arabicToLatin (U := reference)); reflexivity.
Defined.

(** C1 as stated fails: seen followed by he is written sh, which
    [latinToArabic] reads as the single letter sheen. *)
Lemma roundtrip_digraph_collision :
  core_text [0x0633; 0x06BE] = true
  /\ arabicToLatin [0x0633; 0x06BE] = utf16 "sh"
  /\ latinToArabic (U := reference) (arabicToLatin [0x0633; 0x06BE]) = [0x0634]
  /\ normalize_whitespace [0x0633; 0x06BE] = [0x0633; 0x06BE].
Proof. repeat split. Qed.

(* ================================================================== *)
(** * normalize.ts: search normalization *)
(* ================================================================== *)

Lemma get_none tbl c : get tbl [c] = None -> is_key tbl c = false.
Proof.
  unfold is_key. induction tbl as [|[k v] rest IH]; simpl; [reflexivity|].
  destruct (str_eqb k [c]); [discriminate | exact IH].
Qed.

Lemma remove_nothing (cls : Z -> bool) s :
  forallb (fun c => negb (cls c)) s = true -> remove cls s = s.
Proof.
  unfold remove. induction s as [|c t IH]; simpl; [reflexivity|].
  rewrite andb_true_iff. intros [-> H]. now rewrite IH.
Qed.

Lemma forallb_remove (P cls : Z -> bool) s :
  forallb P s = true -> forallb P (remove cls s) = true.
Proof.
  unfold remove. induction s as [|c t IH]; simpl; [reflexivity|].
  rewrite andb_true_iff. intros [Hc H].
  destruct (cls c); simpl; [auto | now rewrite Hc, IH].
Qed.

Lemma forallb_remove_class (cls : Z -> bool) s :
  forallb (fun c => negb (cls c)) (remove cls s) = true.
Proof.
  unfold remove. induction s as [|c t IH]; simpl; [reflexivity|].
  destruct (cls c) eqn:E; simpl; [exact IH | now rewrite E, IH].
Qed.

Lemma removeDiacritics_remove s : removeDiacritics s = remove is_diacritic s.
Proof. now destruct s. Qed.

Lemma removeHamza_remove s : removeHamza s = remove is_hamza s.
Proof. now destruct s. Qed.

Lemma rewritten_caseless c : rewritten c = true -> caseless c = true.
Proof.
  unfold rewritten, is_key, CHAR_NORMALIZATIONS, is_diacritic, is_hamza,
    caseless, between.
  cbn [existsb fst str_eqb]. unbool. lia.
Qed.

Lemma lookup_normalization_clean c :
  forallb (fun x => negb (is_key CHAR_NORMALIZATIONS x))
          (lookup_char CHAR_NORMALIZATIONS c) = true.
Proof.
  unfold lookup_char.
  destruct (get CHAR_NORMALIZATIONS [c]) as [v|] eqn:G.
  - apply get_entry in G.
    assert (H : forallb (fun kv =>
                  forallb (fun x => negb (is_key CHAR_NORMALIZATIONS x)) (snd kv))
                  CHAR_NORMALIZATIONS = true) by reflexivity.
    rewrite forallb_forall in H. exact (H _ G).
  - apply get_none in G. cbn [forallb]. now rewrite G.
Qed.

Lemma lookup_normalization_fixed s :
  forallb (fun x => negb (is_key CHAR_NORMALIZATIONS x)) s = true ->
  flat_map (lookup_char CHAR_NORMALIZATIONS) s = s.
Proof.
  induction s as [|c t IH]; [reflexivity|].
  cbn [forallb flat_map]. rewrite andb_true_iff, negb_true_iff. intros [Hc Ht].
  rewrite (IH Ht). unfold lookup_char.
  destruct (get CHAR_NORMALIZATIONS [c]) as [v|] eqn:G; [|reflexivity].
  apply get_entry in G. exfalso. unfold is_key in Hc.
  assert (E : existsb (fun kv => str_eqb (fst kv) [c]) CHAR_NORMALIZATIONS = true).
  { apply existsb_exists. exists ([c], v). split; [exact G | apply str_eqb_refl]. }
  congruence.
Qed.

Section NormalizeFacts.
Context {U : Unicode}.

Lemma normalizeUyghur_subst text :
  normalizeUyghur text
  = if falsy text then []
    else trim (replace_ws_runs [0x20]
                 (flat_map (lookup_char CHAR_NORMALIZATIONS) (normalizeNFC text))).
Proof.
  unfold normalizeUyghur. destruct (falsy text); [reflexivity|]. cbv zeta.
  unfold entries.
  change (fold_left _ CHAR_NORMALIZATIONS (normalizeNFC text))
    with (subst CHAR_NORMALIZATIONS (normalizeNFC text)).
  now rewrite subst_simultaneous by reflexivity.
Qed.

Lemma normalizeUyghur_no_key text :
  forallb (fun x => negb (is_key CHAR_NORMALIZATIONS x)) (normalizeUyghur text)
  = true.
Proof.
  rewrite normalizeUyghur_subst. destruct (falsy text); [reflexivity|].
  apply forallb_trim, forallb_replace_ws; [reflexivity|].
  apply forallb_forall. intros x Hx. apply in_flat_map in Hx.
  destruct Hx as (c & _ & Hx).
  pose proof (lookup_normalization_clean c) as H.
  rewrite forallb_forall in H. exact (H x Hx).
Qed.

Lemma toLowerCase_keeps (bad : Z -> bool) s :
  (forall c, bad c = true -> caseless c = true) ->
  forallb (fun c => negb (bad c)) s = true ->
  forallb (fun c => negb (bad c)) (toLowerCase s) = true.
Proof.
  intros Hbad H. rewrite forallb_forall in *. intros c Hc.
  destruct (bad c) eqn:B; [|reflexivity].
  apply toLowerCase_caseless in Hc; [|now apply Hbad].
  specialize (H c Hc). now rewrite B in H.
Qed.

(** What [normalizeForSearch] returns holds no character that its steps
    rewrite or delete, and is whitespace-normal. *)
Lemma normalizeForSearch_clean text :
  let r := normalizeForSearch text in
  forallb (fun c => negb (rewritten c)) r = true
  /\ forallb (fun c => negb (is_search_punct c)) r = true
  /\ replace_ws_runs [0x20] r = r /\ trim r = r.
Proof.
  unfold normalizeForSearch. destruct (falsy text); [repeat split|].
  cbv zeta. rewrite removeDiacritics_remove, removeHamza_remove.
  set (r3 := remove is_hamza (remove is_diacritic (normalizeUyghur text))).
  assert (H3 : forallb (fun c => negb (rewritten c)) r3 = true).
  { pose proof (normalizeUyghur_no_key text) as K.
    pose proof (forallb_remove _ is_hamza _
                  (forallb_remove_class is_diacritic (normalizeUyghur text))) as D.
    pose proof (forallb_remove _ is_hamza _
                  (forallb_remove _ is_diacritic _ K)) as K'.
    pose proof (forallb_remove_class is_hamza
                  (remove is_diacritic (normalizeUyghur text))) as Hz.
    fold r3 in D, K', Hz. rewrite forallb_forall in *. intros c Hc.
    unfold rewritten.
    specialize (D c Hc); specialize (K' c Hc); specialize (Hz c Hc).
    rewrite negb_true_iff in *. now rewrite K', D, Hz. }
  split; [|split; [|apply normalize_whitespace_fixed]].
  - apply forallb_trim, forallb_replace_ws; [reflexivity|].
    apply forallb_remove, toLowerCase_keeps; [exact rewritten_caseless | exact H3].
  - apply forallb_trim, forallb_replace_ws; [reflexivity|].
    apply forallb_remove_class.
Qed.

(** C7, as amended. For every string [t] whose search-normal form
    [r = normalizeForSearch t] is left unchanged by the two platform steps of
    the pipeline, NFC normalization and lower-casing, [normalizeForSearch r]
    is [r]: every other step of the second pass does nothing. *)
Theorem normalizeForSearch_idempotent_on_stable (t : str) :
  let r := normalizeForSearch t in
  normalizeNFC r = r -> toLowerCase r = r ->
  normalizeForSearch r = r.
Proof.
  intros r Hnfc Hlow.
  destruct (normalizeForSearch_clean t) as (Hclean & Hpunct & Hws & Htrim).
  fold r in Hclean, Hpunct, Hws, Htrim.
  assert (Hkey : forallb (fun x => negb (is_key CHAR_NORMALIZATIONS x)) r = true
                 /\ forallb (fun x => negb (is_diacritic x)) r = true
                 /\ forallb (fun x => negb (is_hamza x)) r = true).
  { rewrite !forallb_forall in *. repeat split; intros c Hc;
      specialize (Hclean c Hc); unfold rewritten in Hclean;
      rewrite negb_true_iff, !orb_false_iff in Hclean;
      rewrite negb_true_iff; tauto. }
  destruct Hkey as (Hkey & Hdia & Hham).
  unfold normalizeForSearch. destruct (falsy r) eqn:F.
  { destruct r; [reflexivity | discriminate]. }
  cbv zeta. rewrite normalizeUyghur_subst, F, Hnfc.
  rewrite (lookup_normalization_fixed r Hkey), Hws, Htrim.
  rewrite removeDiacritics_remove, (remove_nothing _ r Hdia).
  rewrite removeHamza_remove, (remove_nothing _ r Hham).
  rewrite Hlow, (remove_nothing _ r Hpunct), Hws. exact Htrim.
Qed.

End NormalizeFacts.

(** The second pass at a text with capitals, punctuation and runs of
    spaces. *)
Lemma normalizeForSearch_idempotent_on_stable_witness :
  let t := utf16 "  Hello,   World! " in
  normalizeNFC (Unicode := reference) (normalizeForSearch (U := reference) t)
  = normalizeForSearch (U := reference) t
  /\ toLowerCase (Unicode := reference) (normalizeForSearch (U := reference) t)
     = normalizeForSearch (U := reference) t
  /\ normalizeForSearch (U := reference) t = utf16 "hello world"
  /\ normalizeForSearch (U := reference) (normalizeForSearch (U := reference) t)
     = normalizeForSearch (U := reference) t.
Proof.
  cbv zeta. split; [reflexivity | split; [reflexivity | split; [reflexivity|]]].
  apply (normalizeForSearch_idempotent_on_stable (U := reference)); reflexivity.
Defined.

(** C7 as stated fails: the first pass deletes the zero-width non-joiner that
    kept alef and the combining madda apart, so the second pass composes them
    (NFC), rewrites the composed letter to hamza and alef, and deletes the
    hamza. *)
Lemma normalizeForSearch_exposes_composition :
  normalizeForSearch (U := reference) alef_zwnj_madda = [0x0627; 0x0653]
  /\ normalizeForSearch (U := reference)
       (normalizeForSearch (U := reference) alef_zwnj_madda) = [0x0627]
  /\ [0x0627] <> [0x0627; 0x0653].
Proof. split; [reflexivity | split; [reflexivity | discriminate]]. Qed.

(** ** A second Unicode instance, with a cased script in surrogate pairs *)

Lemma deseret_pair h l t :
  deseret_toLowerCase (h :: l :: t)
  = if deseret_capital h l then h :: (l + 0x28) :: deseret_toLowerCase t
    else lower_latin1 h :: deseret_toLowerCase (l :: t).
Proof. reflexivity. Qed.

Lemma deseret_other h t :
  h <> 0xD801 ->
  deseret_toLowerCase (h :: t) = lower_latin1 h :: deseret_toLowerCase t.
Proof.
  intros H. destruct t as [|l t]; [reflexivity|]. rewrite deseret_pair.
  unfold deseret_capital. now rewrite (proj2 (Z.eqb_neq h 0xD801) H).
Qed.

Lemma lower_latin1_high c : 0x100 <= c -> lower_latin1 c = c.
Proof.
  intros H. unfold lower_latin1.
  replace (is_upper c || _) with false; [reflexivity|].
  symmetry. unclass. unbool. lia.
Qed.

Lemma lower_latin1_range c : 0x100 <= lower_latin1 c -> lower_latin1 c = c.
Proof.
  unfold lower_latin1. destruct (is_upper c || _) eqn:E; [|reflexivity].
  revert E. unclass. unbool. lia.
Qed.

(** The first code unit of the result is the lower-cased first code unit of
    the text, which a surrogate is left as. *)
Lemma deseret_head h t :
  exists r, deseret_toLowerCase (h :: t) = lower_latin1 h :: r.
Proof.
  destruct t as [|l t]; [now exists []|]. rewrite deseret_pair.
  destruct (deseret_capital h l) eqn:E; [|eauto].
  unfold deseret_capital in E. apply andb_true_iff in E. destruct E as [E _].
  apply Z.eqb_eq in E. subst h. eauto.
Qed.

Lemma deseret_idempotent s :
  deseret_toLowerCase (deseret_toLowerCase s) = deseret_toLowerCase s.
Proof.
  pattern s; apply str_pair_ind; clear s; [| intros h | intros h l t IHt IHl].
  - reflexivity.
  - cbn [deseret_toLowerCase]. now rewrite lower_latin1_idempotent.
  - rewrite deseret_pair. destruct (deseret_capital h l) eqn:E.
    + unfold deseret_capital, between in E. unbool.
      destruct E as [-> [L1 L2]].
      rewrite deseret_pair.
      replace (deseret_capital 55297 (l + 40)) with false
        by (symmetry; unfold deseret_capital, between; unbool; lia).
      rewrite (lower_latin1_high 55297) by lia.
      rewrite deseret_other by lia.
      rewrite (lower_latin1_high (l + 40)) by lia. now rewrite IHt.
    + destruct (deseret_head l t) as [r Hr]. rewrite Hr in *.
      rewrite deseret_pair.
      destruct (deseret_capital (lower_latin1 h) (lower_latin1 l)) eqn:E'.
      * exfalso. unfold deseret_capital, between in E, E'.
        assert (Hh : lower_latin1 h = h)
          by (apply lower_latin1_range; unbool; lia).
        assert (Hl : lower_latin1 l = l)
          by (apply lower_latin1_range; unbool; lia).
        rewrite Hh, Hl in E'. congruence.
      * now rewrite lower_latin1_idempotent, IHl.
Qed.

Lemma deseret_latin1 s :
  forallb (between 0 0xFF) s = true -> deseret_toLowerCase s = map lower_latin1 s.
Proof.
  induction s as [|h t IH]; [reflexivity|].
  cbn [forallb]. rewrite andb_true_iff. intros [Hh Ht].
  rewrite deseret_other, (IH Ht); [reflexivity|].
  unfold between in Hh. unbool. lia.
Qed.

Lemma deseret_caseless s c :
  caseless c = true -> In c (deseret_toLowerCase s) -> In c s.
Proof.
  intros Hc. pattern s; apply str_pair_ind; clear s;
    [| intros h | intros h l t IHt IHl].
  - intros [].
  - cbn [deseret_toLowerCase In]. intros [E|[]]. left.
    now apply lower_latin1_caseless.
  - rewrite deseret_pair. destruct (deseret_capital h l) eqn:E.
    + cbn [In]. intros [->|[<-|H]]; [now left | | right; right; auto].
      exfalso. unfold deseret_capital, caseless, between in *. unbool. lia.
    + cbn [In]. intros [H|H].
      * left. now apply lower_latin1_caseless.
      * right. apply IHl, H.
Qed.

Definition deseret : Unicode :=
  {| toLowerCase := deseret_toLowerCase;
     normalizeNFC := reference_normalizeNFC;
     normalizeNFD := reference_normalizeNFD;
     toLowerCase_idempotent := deseret_idempotent;
     toLowerCase_latin1 := deseret_latin1;
     toLowerCase_caseless := deseret_caseless |}.

(** Without the condition on lower-casing the amended C7 fails as well: the
    first pass deletes the full stop between the two halves of a surrogate
    pair, and the second pass lower-cases the letter they now form. *)
Lemma normalizeForSearch_joins_surrogates :
  let r := normalizeForSearch (U := deseret) split_deseret in
  r = [0xD801; 0xDC00]
  /\ normalizeNFC (Unicode := deseret) r = r
  /\ normalizeForSearch (U := deseret) r = [0xD801; 0xDC28].
Proof. cbv zeta. repeat split. Qed.

(* ================================================================== *)
(** * Further properties *)
(* ================================================================== *)

Lemma truthy_some mapped v : truthy mapped = Some v -> mapped = Some v.
Proof. destruct mapped as [[|? ?]|]; simpl; congruence. Qed.

Lemma match_multi_value seqs rest mapped n :
  match_multi seqs rest = Some (mapped, n) ->
  In mapped (map snd LATIN_TO_UYGHUR_ARABIC).
Proof.
  induction seqs as [|seq more IH]; cbn [match_multi]; [discriminate|].
  destruct (str_eqb _ seq); [|exact IH].
  destruct (truthy (get LATIN_TO_UYGHUR_ARABIC seq)) as [v|] eqn:T; [|exact IH].
  intros [= <- _]. apply truthy_some in T. eapply get_value, T.
Qed.

Lemma latin_values_arabic v :
  In v (map snd LATIN_TO_UYGHUR_ARABIC) -> forallb arabic_alphabet v = true.
Proof.
  assert (H : forallb (forallb arabic_alphabet)
                (map snd LATIN_TO_UYGHUR_ARABIC) = true) by reflexivity.
  rewrite forallb_forall in H. apply H.
Qed.

Lemma toArabic_char_alphabet c : forallb arabic_alphabet (toArabic_char c) = true.
Proof.
  unfold toArabic_char.
  destruct (truthy (get LATIN_TO_UYGHUR_ARABIC [c])) as [v|] eqn:T.
  - apply truthy_some in T. eapply latin_values_arabic, get_value, T.
  - destruct (is_ws c); [reflexivity|].
    unfold arabic_alphabet.
    destruct (is_digit c) eqn:D; [cbn [forallb]; now rewrite D, !orb_true_r|].
    destruct (is_punct c) eqn:P; [cbn [forallb]; now rewrite P, !orb_true_r|].
    reflexivity.
Qed.

Lemma toArabic_loop_alphabet skip rest :
  forallb arabic_alphabet (toArabic_loop skip rest) = true.
Proof.
  revert skip; induction rest as [|c tail IH]; intros skip; [reflexivity|].
  cbn [toArabic_loop]. destruct skip as [|k]; [|apply IH].
  destruct (match_multi MULTI_CHAR_LATIN (c :: tail)) as [[mapped n]|] eqn:M.
  - rewrite forallb_app, IH, andb_true_r.
    eapply latin_values_arabic, match_multi_value, M.
  - now rewrite forallb_app, IH, toArabic_char_alphabet.
Qed.

Section Extras.
Context {U : Unicode}.

(** Output alphabet of [latinToArabic] ([toArabic]): every character of the
    output is a core Arabic letter, a space, an ASCII digit or one of the
    punctuation characters of the transliteration. *)
Theorem toArabic_output_alphabet (text : str) :
  forallb arabic_alphabet (latinToArabic text) = true.
Proof.
  unfold latinToArabic, toArabic. destruct (falsy text); [reflexivity|].
  cbv zeta. apply forallb_trim, toArabic_loop_alphabet.
Qed.

(** What [normalizeForSearch] returns holds no punctuation of its class, no
    hamza, no Arabic diacritic and none of the characters that
    [CHAR_NORMALIZATIONS] rewrites or deletes, and whitespace normalization
    leaves it as it is. *)
Theorem normalizeForSearch_output (text : str) :
  let r := normalizeForSearch text in
  forallb (fun c => negb (is_search_punct c || is_hamza c || is_diacritic c
                          || is_key CHAR_NORMALIZATIONS c)) r = true
  /\ normalize_whitespace r = r.
Proof.
  destruct (normalizeForSearch_clean text) as (Hc & Hp & Hw & Ht).
  cbv zeta in *. split.
  - rewrite forallb_forall in *. intros c Hin.
    specialize (Hc c Hin). specialize (Hp c Hin). unfold rewritten in Hc.
    rewrite negb_true_iff in *. rewrite !orb_false_iff in *. tauto.
  - unfold normalize_whitespace. now rewrite Hw.
Qed.

(** The length bound of [generateSlug] for any options: when the separator
    in force is one the model covers and [maxLength] is not negative, the
    call returns a slug of at most [maxLength] characters. *)
Theorem generateSlug_length_options (text : str) (options : option SlugOptions.t)
  (sep : Z) :
  let opts := spread_options DEFAULT_OPTIONS options in
  0 <= RequiredSlugOptions.maxLength opts ->
  literal_separator (RequiredSlugOptions.separator opts) = Some sep ->
  exists slug,
    generateSlug text options = Some slug
    /\ len slug <= RequiredSlugOptions.maxLength opts.
Proof.
  intros opts Hmax Hsep. unfold generateSlug.
  destruct (falsy text).
  - exists []. split; [reflexivity | exact Hmax].
  - cbv zeta. fold opts. unfold slugifyLatin. rewrite Hsep.
    eexists; split; [reflexivity|]. now apply slug_truncate_length.
Qed.

End Extras.

(** The bound at a slug that is cut, with a [maxLength] of 7, the underscore
    as separator and both flags off. *)
Lemma generateSlug_length_options_witness :
  0 <= 7 /\ literal_separator [0x5F] = Some 0x5F
  /\ exists slug,
       generateSlug (U := reference) (utf16 "Hello World Again")
         (Some {| SlugOptions.maxLength := Some 7;
                  SlugOptions.separator := Some [0x5F];
                  SlugOptions.lowercase := Some false;
                  SlugOptions.trim := Some false |}) = Some slug
       /\ len slug <= 7.
Proof.
  split; [lia | split; [reflexivity|]].
  apply (generateSlug_length_options (U := reference) (utf16 "Hello World Again")
           (Some {| SlugOptions.maxLength := Some 7;
                    SlugOptions.separator := Some [0x5F];
                    SlugOptions.lowercase := Some false;
                    SlugOptions.trim := Some false |}) 0x5F);
    [cbn; lia | reflexivity].
Defined.

(* ================================================================== *)
(** * numbers.ts: the two numeral systems, extractNumbers, formatNumber *)
(* ================================================================== *)

Ltac undigit :=
  unfold western_unit, arabic_indic_unit, arabic_indic_digit,
    extended_arabic_indic_digit, is_digit, between in *.

Ltac split_ifs :=
  repeat match goal with
         | |- context [if ?b then _ else _] => destruct b eqn:?
         | H : context [if ?b then _ else _] |- _ => destruct b eqn:?
         end.

Lemma toWesternNumerals_map s : toWesternNumerals s = map western_unit s.
Proof.
  rewrite toWesternNumerals_subst.
  induction s as [|c t IH]; [reflexivity|].
  cbn [flat_map map]. rewrite flat_map_app, IH, lookup_arabic_indic.
  cbn [flat_map app]. rewrite lookup_extended, app_nil_r. cbn [app]. f_equal.
  undigit. split_ifs; unbool; lia.
Qed.

Lemma toArabicIndicNumerals_map s :
  toArabicIndicNumerals s = map arabic_indic_unit s.
Proof.
  rewrite toArabicIndicNumerals_subst.
  induction s as [|c t IH]; [reflexivity|].
  cbn [flat_map map]. now rewrite IH, lookup_western.
Qed.

Lemma map_fixed_iff (f : Z -> Z) (P : Z -> bool) s :
  (forall c, f c = c <-> P c = false) ->
  map f s = s <-> existsb P s = false.
Proof.
  intros H. induction s as [|c t IH]; [split; reflexivity|].
  cbn [map existsb]. rewrite orb_false_iff, <- IH, <- H.
  split; [intros E; injection E as E1 E2; now split | intros [-> ->]; reflexivity].
Qed.

Lemma existsb_orb_pointwise (P Q : Z -> bool) s :
  existsb (fun c => P c || Q c) s = existsb P s || existsb Q s.
Proof.
  induction s as [|c t IH]; [reflexivity|]. cbn [existsb]. rewrite IH.
  destruct (P c), (Q c), (existsb P t); reflexivity.
Qed.

Lemma falsy_map (f : Z -> Z) s : falsy (map f s) = falsy s.
Proof. now destruct s. Qed.

Lemma western_unit_clean c :
  (between 0x0660 0x0669 (western_unit c) || between 0x06F0 0x06F9 (western_unit c)) = false.
Proof. undigit. split_ifs; unbool; lia. Qed.

Lemma western_unit_fixed c :
  western_unit c = c
  <-> (between 0x0660 0x0669 c || between 0x06F0 0x06F9 c) = false.
Proof. undigit. split_ifs; unbool; lia. Qed.

Lemma arabic_indic_unit_clean c : is_digit (arabic_indic_unit c) = false.
Proof. undigit. split_ifs; unbool; lia. Qed.

Lemma arabic_indic_unit_fixed c : arabic_indic_unit c = c <-> is_digit c = false.
Proof. undigit. split_ifs; unbool; lia. Qed.

Lemma existsb_map_false (f : Z -> Z) (P : Z -> bool) s :
  (forall c, P (f c) = false) -> existsb P (map f s) = false.
Proof.
  intros H. induction s as [|c t IH]; [reflexivity|].
  cbn [map existsb]. now rewrite H, IH.
Qed.

Lemma len_map (f : Z -> Z) s : len (map f s) = len s.
Proof. unfold len. now rewrite length_map. Qed.

(** The result of [toWesternNumerals] holds no Arabic-Indic numeral of
    either kind; [toWesternNumerals] returns its argument unchanged exactly
    when [containsArabicIndicNumerals] is false of it; and the result has
    the length of the argument. *)
Theorem toWesternNumerals_fixed_iff (t : str) :
  containsArabicIndicNumerals (toWesternNumerals t) = false
  /\ (toWesternNumerals t = t <-> containsArabicIndicNumerals t = false)
  /\ len (toWesternNumerals t) = len t.
Proof.
  rewrite toWesternNumerals_map. unfold containsArabicIndicNumerals, test.
  rewrite falsy_map, len_map.
  split; [|split; [|reflexivity]].
  - destruct (falsy t); [reflexivity|].
    apply existsb_map_false, western_unit_clean.
  - destruct t as [|c t]; [split; reflexivity|]. cbn [falsy].
    apply map_fixed_iff, western_unit_fixed.
Qed.

(** The result of [toArabicIndicNumerals] holds no Western digit;
    [toArabicIndicNumerals] returns its argument unchanged exactly when
    [containsWesternNumerals] is false of it; and the result has the length
    of the argument. *)
Theorem toArabicIndicNumerals_fixed_iff (t : str) :
  containsWesternNumerals (toArabicIndicNumerals t) = false
  /\ (toArabicIndicNumerals t = t <-> containsWesternNumerals t = false)
  /\ len (toArabicIndicNumerals t) = len t.
Proof.
  rewrite toArabicIndicNumerals_map. unfold containsWesternNumerals, test.
  rewrite falsy_map, len_map.
  split; [|split; [|reflexivity]].
  - destruct (falsy t); [reflexivity|].
    apply existsb_map_false, arabic_indic_unit_clean.
  - destruct t as [|c t]; [split; reflexivity|]. cbn [falsy].
    apply map_fixed_iff, arabic_indic_unit_fixed.
Qed.

(** The round trip that starts from Arabic-Indic numerals:
    [toArabicIndicNumerals (toWesternNumerals t)] is [t] exactly when [t]
    holds no Western digit and no Extended Arabic-Indic digit (these two
    come back as Arabic-Indic digits). *)
Theorem toArabicIndicNumerals_toWesternNumerals (t : str) :
  toArabicIndicNumerals (toWesternNumerals t) = t
  <-> containsWesternNumerals t = false
      /\ test extended_arabic_indic_digit t = false.
Proof.
  rewrite toWesternNumerals_map, toArabicIndicNumerals_map, map_map.
  unfold containsWesternNumerals, test.
  destruct t as [|c t]; [now split|]. cbn [falsy].
  rewrite <- orb_false_iff.
  rewrite <- (existsb_orb_pointwise is_digit extended_arabic_indic_digit).
  apply map_fixed_iff. intros x. undigit. split_ifs; unbool; lia.
Qed.

Lemma trimStart_map (f : Z -> Z) s :
  (forall c, is_ws (f c) = is_ws c) -> trimStart (map f s) = map f (trimStart s).
Proof.
  intros H. induction s as [|c t IH]; [reflexivity|].
  cbn [map trimStart]. rewrite H. now destruct (is_ws c).
Qed.

Lemma trimEnd_map (f : Z -> Z) s :
  (forall c, is_ws (f c) = is_ws c) -> trimEnd (map f s) = map f (trimEnd s).
Proof.
  intros H. induction s as [|c t IH]; [reflexivity|].
  cbn [map trimEnd]. rewrite IH, H.
  destruct (trimEnd t); cbn [map]; [now destruct (is_ws c) | reflexivity].
Qed.

Lemma trim_map (f : Z -> Z) s :
  (forall c, is_ws (f c) = is_ws c) -> trim (map f s) = map f (trim s).
Proof.
  intros H. unfold trim. now rewrite trimStart_map, trimEnd_map.
Qed.

Lemma western_unit_ws c : is_ws (western_unit c) = is_ws c.
Proof.
  undigit. split_ifs; try reflexivity; unclass; unbool.
  all: match goal with
       | |- ?a = ?b => destruct a eqn:?, b eqn:?; try reflexivity; unbool; lia
       end.
Qed.

Lemma arabic_indic_unit_ws c : is_ws (arabic_indic_unit c) = is_ws c.
Proof.
  undigit. split_ifs; try reflexivity; unclass; unbool.
  all: match goal with
       | |- ?a = ?b => destruct a eqn:?, b eqn:?; try reflexivity; unbool; lia
       end.
Qed.

Lemma western_arabic_indic c : western_unit (arabic_indic_unit c) = western_unit c.
Proof. undigit. split_ifs; unbool; lia. Qed.

Lemma western_western c : western_unit (western_unit c) = western_unit c.
Proof. undigit. split_ifs; unbool; lia. Qed.

Lemma toWesternNumerals_absorbs t :
  toWesternNumerals (toArabicIndicNumerals t) = toWesternNumerals t
  /\ toWesternNumerals (toWesternNumerals t) = toWesternNumerals t.
Proof.
  rewrite !toWesternNumerals_map, toArabicIndicNumerals_map, !map_map.
  split; apply map_ext; intros c;
    [apply western_arabic_indic | apply western_western].
Qed.

Lemma parseNumber_map (f : Z -> Z) t :
  (forall c, is_ws (f c) = is_ws c) ->
  (forall c, western_unit (f c) = western_unit c) ->
  parseNumber (map f t) = parseNumber t.
Proof.
  intros W F. unfold parseNumber. rewrite falsy_map.
  destruct (falsy t); [reflexivity|]. cbv zeta.
  rewrite trim_map by exact W. rewrite !toWesternNumerals_map, map_map.
  f_equal. apply map_ext, F.
Qed.

Lemma extractNumbers_map (f : Z -> Z) t :
  (forall c, western_unit (f c) = western_unit c) ->
  extractNumbers (map f t) = extractNumbers t.
Proof.
  intros F. unfold extractNumbers. rewrite falsy_map.
  destruct (falsy t); [reflexivity|]. cbv zeta.
  rewrite !toWesternNumerals_map, map_map.
  now rewrite (map_ext _ _ F).
Qed.

(** [parseNumber] and [extractNumbers] do not depend on the numeral system
    of their argument: converting it first, with [toArabicIndicNumerals] or
    with [toWesternNumerals], changes neither result. *)
Theorem numeral_system_invariance (t : str) :
  parseNumber (toArabicIndicNumerals t) = parseNumber t
  /\ parseNumber (toWesternNumerals t) = parseNumber t
  /\ extractNumbers (toArabicIndicNumerals t) = extractNumbers t
  /\ extractNumbers (toWesternNumerals t) = extractNumbers t.
Proof.
  rewrite toWesternNumerals_map, toArabicIndicNumerals_map.
  repeat split.
  - apply parseNumber_map; [apply arabic_indic_unit_ws | apply western_arabic_indic].
  - apply parseNumber_map; [apply western_unit_ws | apply western_western].
  - apply extractNumbers_map, western_arabic_indic.
  - apply extractNumbers_map, western_western.
Qed.

Lemma digit_not_ws c : is_digit c = true -> is_ws c = false.
Proof.
  intros D. destruct (is_ws c) eqn:W; [|reflexivity]. unclass. unbool. lia.
Qed.

Lemma parseInt10_digits r :
  r <> [] -> forallb is_digit r = true ->
  parseInt10 r = number_of_integer false (decimal_value r).
Proof.
  intros N D. destruct r as [|c t]; [congruence|].
  pose proof D as D'. cbn [forallb] in D'. apply andb_true_iff in D'.
  destruct D' as [Dc _].
  rewrite parseInt10_unfold by (cbn [no_lead]; now rewrite digit_not_ws).
  assert (U : unsigned (c :: t) = c :: t).
  { cbn [unsigned]. replace ((c =? 43) || (c =? 45)) with false; [reflexivity|].
    symmetry. unclass. unbool. lia. }
  rewrite U, digit_prefix_all by exact D. cbn [falsy signed_negative].
  replace (c =? 45) with false; [reflexivity|].
  symmetry. unclass. unbool. lia.
Qed.

Lemma forallb_snoc (P : Z -> bool) s c :
  forallb P (s ++ [c]) = forallb P s && P c.
Proof. rewrite forallb_app. cbn [forallb]. now rewrite andb_true_r. Qed.

Lemma digit_runs_shape run s :
  forallb is_digit run = true ->
  Forall (fun r => r <> [] /\ forallb is_digit r = true) (digit_runs_from run s).
Proof.
  revert run; induction s as [|c t IH]; intros run R.
  - cbn [digit_runs_from]. destruct run; [constructor|].
    constructor; [split; [discriminate | exact R] | constructor].
  - cbn [digit_runs_from]. destruct (is_digit c) eqn:D.
    + apply IH. now rewrite forallb_snoc, R, D.
    + destruct run; [now apply IH|].
      constructor; [split; [discriminate | exact R] | now apply IH].
Qed.

Lemma digit_runs_nil_iff run s :
  digit_runs_from run s = [] <-> run = [] /\ existsb is_digit s = false.
Proof.
  revert run; induction s as [|c t IH]; intros run.
  - cbn [digit_runs_from existsb]. destruct run; split; try tauto; try discriminate.
    intros [? _]; discriminate.
  - cbn [digit_runs_from existsb]. destruct (is_digit c) eqn:D.
    + rewrite IH. cbn [orb]. split; [|intros [_ ?]; discriminate].
      intros [E _]. now destruct run.
    + cbn [orb]. destruct run; [rewrite IH; tauto|].
      split; [discriminate | intros [? _]; discriminate].
Qed.

Lemma western_unit_digit c :
  is_digit (western_unit c)
  = is_digit c || (between 0x0660 0x0669 c || between 0x06F0 0x06F9 c).
Proof.
  undigit. split_ifs; cbn [orb andb] in *; try reflexivity;
    unbool; try lia.
  all: match goal with
       | |- ?a = ?b => destruct a eqn:?, b eqn:?; try reflexivity; unbool; lia
       end.
Qed.

Lemma existsb_map {A B} (P : B -> bool) (f : A -> B) l :
  existsb P (map f l) = existsb (fun x => P (f x)) l.
Proof. induction l as [|x l IH]; [reflexivity|]. cbn. now rewrite IH. Qed.

Lemma extractNumbers_runs t :
  extractNumbers t = map parseInt10 (digit_runs_from [] (toWesternNumerals t)).
Proof.
  unfold extractNumbers, match_digits. destruct t as [|c t]; [reflexivity|].
  cbn [falsy]. cbv zeta.
  now destruct (digit_runs_from [] (toWesternNumerals (c :: t))).
Qed.

(** Every number that [extractNumbers] returns is the Number value of a run
    of digits: an integer that is not negative or, for a run beyond the
    doubles, the positive infinity; never [NaN], never a negative number.
    And it returns the empty array exactly when the text holds no digit of
    any of the three kinds. *)
Theorem extractNumbers_results (t : str) :
  Forall (fun n => (exists m, n = Integer false m /\ 0 <= m) \/ n = Infinity false)
         (extractNumbers t)
  /\ (extractNumbers t = []
      <-> containsWesternNumerals t = false
          /\ containsArabicIndicNumerals t = false).
Proof.
  rewrite extractNumbers_runs. split.
  - pose proof (digit_runs_shape [] (toWesternNumerals t) eq_refl) as S.
    induction S as [|r rs [N D] _ IH]; [constructor|].
    cbn [map]. constructor; [|exact IH].
    rewrite parseInt10_digits by assumption.
    destruct (number_of_integer_cases (decimal_value r)) as [(m & M & H)|H];
      rewrite H; [left; exists m; now split | now right].
  - split.
    + intros E. apply map_eq_nil in E. apply digit_runs_nil_iff in E.
      destruct E as [_ E]. rewrite toWesternNumerals_map, existsb_map in E.
      rewrite (existsb_pointwise _ _ _ western_unit_digit) in E.
      rewrite existsb_orb_pointwise in E. apply orb_false_iff in E.
      unfold containsWesternNumerals, containsArabicIndicNumerals, test.
      destruct E as [-> ->]. now destruct (falsy t).
    + intros [W A].
      replace (digit_runs_from [] (toWesternNumerals t)) with (@nil str);
        [reflexivity|].
      symmetry. apply digit_runs_nil_iff. split; [reflexivity|].
      rewrite toWesternNumerals_map, existsb_map.
      rewrite (existsb_pointwise _ _ _ western_unit_digit).
      rewrite existsb_orb_pointwise.
      unfold containsWesternNumerals, containsArabicIndicNumerals, test in *.
      destruct t as [|c t]; [reflexivity|]. cbn [falsy] in *. now rewrite W, A.
Qed.

Lemma trimStart_decompose s :
  exists l, s = l ++ trimStart s /\ forallb is_ws l = true.
Proof.
  induction s as [|c t (l & E & W)]; [now exists []|].
  cbn [trimStart]. destruct (is_ws c) eqn:C.
  - exists (c :: l). cbn [app forallb]. rewrite C, W. now rewrite <- E.
  - now exists [].
Qed.

Lemma trimEnd_decompose s :
  exists r, s = trimEnd s ++ r /\ forallb is_ws r = true.
Proof.
  induction s as [|c t (r & E & W)]; [now exists []|].
  cbn [trimEnd]. destruct (trimEnd t) as [|x t'] eqn:T.
  - cbn [app] in E. subst t. destruct (is_ws c) eqn:C.
    + exists (c :: r). cbn [app forallb]. now rewrite C, W.
    + exists r. now split.
  - exists r. cbn [app]. split; [f_equal; exact E | exact W].
Qed.

Lemma trim_decompose s :
  exists l r, s = l ++ trim s ++ r
              /\ forallb is_ws l = true /\ forallb is_ws r = true.
Proof.
  destruct (trimStart_decompose s) as (l & E & L).
  destruct (trimEnd_decompose (trimStart s)) as (r & E' & R).
  exists l, r. unfold trim. now rewrite <- E', <- E.
Qed.

Lemma digit_runs_head run s r :
  run ++ digit_prefix s <> [] -> no_digit_head r = true ->
  exists rest, digit_runs_from run (s ++ r) = (run ++ digit_prefix s) :: rest.
Proof.
  revert run; induction s as [|c t IH]; intros run N R.
  - cbn [digit_prefix app] in *. rewrite app_nil_r in *.
    destruct r as [|x r]; cbn [digit_runs_from].
    + destruct run; [congruence | now eexists].
    + cbn [no_digit_head] in R. apply negb_true_iff in R. rewrite R.
      destruct run; [congruence | now eexists].
  - cbn [digit_prefix app digit_runs_from] in *. destruct (is_digit c) eqn:D.
    + destruct (IH (run ++ [c])) as (rest & E); [|exact R|].
      * rewrite <- app_assoc. exact N.
      * exists rest. rewrite E, <- app_assoc. reflexivity.
    + rewrite app_nil_r in *. destruct run; [congruence | now eexists].
Qed.

Lemma digit_runs_skip l x :
  existsb is_digit l = false ->
  digit_runs_from [] (l ++ x) = digit_runs_from [] x.
Proof.
  induction l as [|c l IH]; [reflexivity|].
  cbn [existsb app digit_runs_from]. rewrite orb_false_iff. intros [-> H].
  now apply IH.
Qed.

Lemma ws_no_digit l : forallb is_ws l = true -> existsb is_digit l = false.
Proof.
  induction l as [|c l IH]; [reflexivity|].
  cbn [forallb existsb]. rewrite andb_true_iff. intros [C L].
  rewrite (IH L), orb_false_r.
  destruct (is_digit c) eqn:D; [|reflexivity].
  apply digit_not_ws in D. congruence.
Qed.

Lemma forallb_map {A B} (P : B -> bool) (f : A -> B) l :
  forallb P (map f l) = forallb (fun x => P (f x)) l.
Proof. induction l as [|x l IH]; [reflexivity|]. cbn. now rewrite IH. Qed.

Lemma forallb_pointwise {A} (f g : A -> bool) (l : list A) :
  (forall x, f x = g x) -> forallb f l = forallb g l.
Proof.
  intros H. induction l as [|x l IH]; [reflexivity|]. cbn. now rewrite H, IH.
Qed.

Lemma abs_number_of_integer negative x :
  abs_number (number_of_integer negative x) = number_of_integer false x.
Proof.
  destruct (number_of_integer_cases x) as [(m & _ & H)|H]; now rewrite !H.
Qed.

(** When [parseNumber] reads a number from a text, the magnitude of that
    number is the first number that [extractNumbers] finds in the text. *)
Theorem parseNumber_first_extracted (t : str) :
  parseNumber t <> NaN ->
  exists rest, extractNumbers t = abs_number (parseNumber t) :: rest.
Proof.
  intros P. rewrite extractNumbers_runs.
  destruct t as [|c0 t0]; [now contradiction P|]. remember (c0 :: t0) as t eqn:Et.
  assert (Pn : parseNumber t = parseInt10 (toWesternNumerals (trim t)))
    by (subst t; reflexivity).
  rewrite Pn in *. clear Pn Et c0 t0.
  rewrite !toWesternNumerals_map in *.
  destruct (trim_decompose t) as (l & r & E & L & R).
  set (w := map western_unit (trim t)) in *.
  assert (Ew : map western_unit t
               = map western_unit l ++ w ++ map western_unit r).
  { rewrite E at 1. now rewrite !map_app. }
  assert (L' : forallb is_ws (map western_unit l) = true).
  { rewrite forallb_map, (forallb_pointwise _ _ _ western_unit_ws). exact L. }
  assert (R' : forallb is_ws (map western_unit r) = true).
  { rewrite forallb_map, (forallb_pointwise _ _ _ western_unit_ws). exact R. }
  assert (Nw : no_lead w = true).
  { subst w. rewrite <- trim_map by apply western_unit_ws.
    apply trimEnd_no_lead, trimStart_no_lead. }
  rewrite parseInt10_unfold in * by exact Nw.
  destruct (digit_prefix (unsigned w)) as [|d ds] eqn:Dp; [now contradiction P|].
  cbn [falsy]. rewrite abs_number_of_integer.
  rewrite Ew, digit_runs_skip by now apply ws_no_digit.
  assert (Sk : digit_runs_from [] (w ++ map western_unit r)
               = digit_runs_from [] (unsigned w ++ map western_unit r)).
  { destruct w as [|x w']; [reflexivity|]. cbn [unsigned].
    destruct ((x =? 43) || (x =? 45)) eqn:S; [|reflexivity].
    cbn [app digit_runs_from].
    replace (is_digit x) with false; [reflexivity|].
    symmetry. unclass. unbool. lia. }
  rewrite Sk.
  destruct (digit_runs_head [] (unsigned w) (map western_unit r)) as (rest & Er).
  - cbn [app]. rewrite Dp. discriminate.
  - destruct (map western_unit r) as [|x r'] eqn:Exr; [reflexivity|].
    cbn [forallb] in R'. apply andb_true_iff in R'. destruct R' as [Wx _].
    cbn [no_digit_head]. destruct (is_digit x) eqn:Dx; [|reflexivity].
    apply digit_not_ws in Dx. congruence.
  - cbn [app] in Er. rewrite Er, Dp. cbn [map].
    exists (map parseInt10 rest). f_equal.
    apply parseInt10_digits; [discriminate|].
    rewrite <- Dp. apply digit_prefix_digits.
Qed.

Lemma decimal_digits_fold fuel : forall n acc,
  (0 < fuel)%nat -> 0 <= n < 10 ^ Z.of_nat fuel ->
  fold_left decimal_step (decimal_digits fuel n acc) 0
  = fold_left decimal_step acc n.
Proof.
  induction fuel as [|k IH]; intros n acc F B; [lia|].
  cbn [decimal_digits]. cbv zeta.
  assert (Hd : decimal_step (n / 10) (0x30 + n mod 10) = n).
  { unfold decimal_step. pose proof (Z.div_mod n 10). lia. }
  destruct (n <? 10) eqn:L.
  - apply Z.ltb_lt in L. cbn [fold_left]. f_equal.
    unfold decimal_step. rewrite Z.mod_small by lia. lia.
  - apply Z.ltb_ge in L. rewrite IH.
    + cbn [fold_left]. now rewrite Hd.
    + destruct k; [|lia]. change (10 ^ Z.of_nat 1) with 10 in B. lia.
    + rewrite Nat2Z.inj_succ, Z.pow_succ_r in B by lia.
      split; [apply Z.div_pos; lia | apply Z.div_lt_upper_bound; lia].
Qed.

Lemma decimal_digits_digits fuel : forall n acc,
  0 <= n -> forallb is_digit acc = true ->
  forallb is_digit (decimal_digits fuel n acc) = true.
Proof.
  induction fuel as [|k IH]; intros n acc N A; [exact A|].
  cbn [decimal_digits]. cbv zeta.
  assert (D : is_digit (0x30 + n mod 10) = true).
  { pose proof (Z.mod_pos_bound n 10). unclass. unbool. lia. }
  destruct (n <? 10).
  - cbn [forallb]. now rewrite D, A.
  - apply IH; [apply Z.div_pos; lia|]. cbn [forallb]. now rewrite D, A.
Qed.

Lemma decimal_digits_nonempty fuel n acc :
  (0 < fuel)%nat -> decimal_digits fuel n acc <> [].
Proof.
  revert n acc; induction fuel as [|k IH]; intros n acc F; [lia|].
  cbn [decimal_digits]. cbv zeta. destruct (n <? 10); [discriminate|].
  destruct k; [discriminate|]. apply IH. lia.
Qed.

Lemma trim_word w :
  forallb (fun x => negb (is_ws x)) w = true -> trim w = w.
Proof.
  intros W. unfold trim. destruct w as [|c w]; [reflexivity|].
  rewrite trimStart_fixed.
  - rewrite <- (app_nil_r (c :: w)) at 1. rewrite trimEnd_word by exact W.
    cbn [trimEnd]. now rewrite app_nil_r.
  - cbn [forallb] in W. apply andb_true_iff in W. now destruct W.
Qed.

Lemma parseNumber_nonempty s :
  s <> [] -> parseNumber s = parseInt10 (toWesternNumerals (trim s)).
Proof. destruct s; [congruence | reflexivity]. Qed.

Lemma digits_no_sign d ds :
  forallb is_digit (d :: ds) = true -> (d =? 43) || (d =? 45) = false /\ (d =? 45) = false.
Proof.
  cbn [forallb]. rewrite andb_true_iff. intros [D _]. unclass. unbool. lia.
Qed.

(** What [parseNumber] reads from a sign and digits. *)
Lemma parseNumber_signed (negative : bool) digits :
  digits <> [] -> forallb is_digit digits = true ->
  parseNumber ((if negative then [0x2D] else []) ++ digits)
  = number_of_integer negative (decimal_value digits).
Proof.
  intros N D.
  set (s := (if negative then [0x2D] else []) ++ digits).
  assert (W : forallb (fun x => negb (is_ws x)) s = true).
  { subst s. rewrite forallb_app. apply andb_true_iff. split.
    - now destruct negative.
    - rewrite forallb_forall in *. intros x Hx.
      now rewrite (digit_not_ws x (D x Hx)). }
  assert (A : existsb (fun c => between 0x0660 0x0669 c || between 0x06F0 0x06F9 c) s = false).
  { subst s. rewrite existsb_app. apply orb_false_iff. split.
    - now destruct negative.
    - destruct (existsb _ digits) eqn:E; [|reflexivity].
      apply existsb_exists in E. destruct E as (x & Hx & Ex).
      rewrite forallb_forall in D. specialize (D x Hx).
      unclass. unbool. lia. }
  assert (Ns : s <> []).
  { subst s. destruct negative; [discriminate|]. exact N. }
  assert (F : toWesternNumerals s = s).
  { rewrite toWesternNumerals_map.
    apply map_fixed_iff
      with (P := fun c => between 0x0660 0x0669 c || between 0x06F0 0x06F9 c);
      [apply western_unit_fixed | exact A]. }
  assert (Nl : no_lead s = true).
  { destruct s as [|x s']; [reflexivity|]. cbn [forallb] in W.
    apply andb_true_iff in W. now destruct W. }
  rewrite parseNumber_nonempty, trim_word, F, parseInt10_unfold by assumption.
  destruct digits as [|d ds]; [congruence|].
  destruct (digits_no_sign d ds D) as [S1 S2].
  assert (Un : unsigned s = d :: ds).
  { subst s. destruct negative; [reflexivity|]. cbn [app unsigned].
    now rewrite S1. }
  rewrite Un, digit_prefix_all by exact D. cbn [falsy]. f_equal.
  subst s. destruct negative; [reflexivity|]. cbn [app signed_negative].
  exact S2.
Qed.

Lemma digit_runs_all run digits :
  forallb is_digit digits = true ->
  digit_runs_from run digits
  = match run ++ digits with [] => [] | word => [word] end.
Proof.
  revert run; induction digits as [|d ds IH]; intros run D.
  - rewrite app_nil_r. now destruct run.
  - cbn [forallb] in D. apply andb_true_iff in D. destruct D as [Dd Dds].
    cbn [digit_runs_from]. rewrite Dd, IH by exact Dds.
    now rewrite <- app_assoc.
Qed.

Lemma extractNumbers_signed (negative : bool) digits :
  digits <> [] -> forallb is_digit digits = true ->
  extractNumbers ((if negative then [0x2D] else []) ++ digits)
  = [number_of_integer false (decimal_value digits)].
Proof.
  intros N D. rewrite extractNumbers_runs.
  assert (F : toWesternNumerals ((if negative then [0x2D] else []) ++ digits)
              = (if negative then [0x2D] else []) ++ digits).
  { rewrite toWesternNumerals_map.
    apply map_fixed_iff
      with (P := fun c => between 0x0660 0x0669 c || between 0x06F0 0x06F9 c);
      [apply western_unit_fixed|].
    rewrite existsb_app. apply orb_false_iff. split; [now destruct negative|].
    destruct (existsb _ digits) eqn:E; [|reflexivity].
    apply existsb_exists in E. destruct E as (x & Hx & Ex).
    rewrite forallb_forall in D. specialize (D x Hx).
    unclass. unbool. lia. }
  rewrite F, digit_runs_skip by now destruct negative.
  rewrite digit_runs_all by exact D. cbn [app].
  destruct digits as [|d ds]; [congruence|]. cbn [map].
  now rewrite parseInt10_digits.
Qed.

Lemma decimal_digits_value m :
  0 <= m <= 2 ^ 53 -> decimal_value (decimal_digits 16 m []) = m.
Proof.
  intros B. rewrite decimal_value_fold, decimal_digits_fold; [reflexivity | lia |].
  change (10 ^ Z.of_nat 16) with 10000000000000000.
  change (2 ^ 53) with 9007199254740992 in B. lia.
Qed.

(** What [formatNumber] writes for [NaN] or for an integer, in either
    numeral system, [parseNumber] reads back as the same number (the negative
    zero is read back as zero), and [extractNumbers] finds in it the
    magnitude of the number and nothing else (nothing at all for [NaN]). An
    infinity does not read back: it is written Infinity, which [parseNumber]
    reads as [NaN] and in which [extractNumbers] finds no number. *)
Theorem formatNumber_read_back (num : number) (system : option NumeralSystem.t)
  (s : str) :
  formatNumber num system = Some s ->
  parseNumber s = match num with
                  | Integer true 0 => Integer false 0
                  | Infinity _ => NaN
                  | _ => num
                  end
  /\ extractNumbers s = match num with
                        | NaN | Infinity _ => []
                        | Integer _ magnitude => [Integer false magnitude]
                        end.
Proof.
  intros F.
  assert (G : exists w, ToString num = Some w
                        /\ parseNumber s = parseNumber w
                        /\ extractNumbers s = extractNumbers w).
  { unfold formatNumber in F. destruct (ToString num) as [w|]; [|discriminate].
    exists w. split; [reflexivity|].
    destruct system as [[|]|]; injection F as <-; try (split; reflexivity).
    rewrite toArabicIndicNumerals_map. split.
    - apply parseNumber_map; [apply arabic_indic_unit_ws | apply western_arabic_indic].
    - apply extractNumbers_map, western_arabic_indic. }
  destruct G as (w & T & -> & ->). clear F s.
  destruct num as [|negative|negative m]; unfold ToString in T.
  { injection T as <-. split; reflexivity. }
  { injection T as <-. destruct negative; split; reflexivity. }
  destruct ((0 <=? m) && (m <=? 2 ^ 53)) eqn:B; [|discriminate].
  assert (E : w = (if negative && (0 <? m) then [0x2D] else [])
                  ++ decimal_digits 16 m []) by congruence.
  clear T. subst w. apply andb_true_iff in B. destruct B as [B1 B2].
  apply Z.leb_le in B1, B2.
  pose proof (decimal_digits_value m (conj B1 B2)) as V.
  assert (N : decimal_digits 16 m [] <> []) by (apply decimal_digits_nonempty; lia).
  assert (D : forallb is_digit (decimal_digits 16 m []) = true)
    by (apply decimal_digits_digits; [lia | reflexivity]).
  rewrite parseNumber_signed, extractNumbers_signed, V by assumption.
  rewrite !number_of_integer_exact by (split; assumption).
  split; [|reflexivity].
  destruct negative; [|reflexivity]. cbn [andb].
  destruct (0 <? m) eqn:P.
  - apply Z.ltb_lt in P. destruct m; (reflexivity || lia).
  - apply Z.ltb_ge in P. assert (m = 0) by lia. now subst m.
Qed.

Lemma digit_runs_app run a c b :
  is_digit c = false ->
  digit_runs_from run (a ++ c :: b)
  = digit_runs_from run a ++ digit_runs_from [] b.
Proof.
  intros C. revert run; induction a as [|x a IH]; intros run.
  - cbn [app digit_runs_from]. rewrite C. now destruct run.
  - cbn [app digit_runs_from]. destruct (is_digit x); [apply IH|].
    destruct run; [apply IH|]. cbn [app]. now rewrite IH.
Qed.

(** [extractNumbers] works piece by piece: for a character [c] that is no
    digit of any kind, the numbers of [a ++ c :: b] are the numbers of [a]
    followed by the numbers of [b]. *)
Theorem extractNumbers_app (a b : str) (c : Z) :
  containsWesternNumerals [c] = false ->
  containsArabicIndicNumerals [c] = false ->
  extractNumbers (a ++ c :: b) = extractNumbers a ++ extractNumbers b.
Proof.
  unfold containsWesternNumerals, containsArabicIndicNumerals, test.
  cbn [falsy existsb]. rewrite !orb_false_r. intros W A.
  rewrite !extractNumbers_runs, !toWesternNumerals_map, map_app. cbn [map].
  rewrite digit_runs_app, map_app; [reflexivity|].
  now rewrite western_unit_digit, W, A.
Qed.

(** The theorem at -12abc34: [parseNumber] reads -12, and 12 is the first
    of the two numbers in the text. *)
Lemma parseNumber_first_extracted_witness :
  parseNumber (utf16 "-12abc34") = Integer true 12
  /\ parseNumber (utf16 "-12abc34") <> NaN
  /\ exists rest,
       extractNumbers (utf16 "-12abc34")
       = abs_number (parseNumber (utf16 "-12abc34")) :: rest.
Proof.
  split; [reflexivity|].
  assert (H : parseNumber (utf16 "-12abc34") <> NaN) by discriminate.
  split; [exact H | exact (parseNumber_first_extracted (utf16 "-12abc34") H)].
Defined.

(** The theorem at -2024 written in Arabic-Indic numerals. *)
Lemma formatNumber_read_back_witness :
  let written := [0x2D; 0x0662; 0x0660; 0x0662; 0x0664] in
  formatNumber (Integer true 2024) (Some NumeralSystem.arabic_indic)
  = Some written
  /\ parseNumber written = Integer true 2024
  /\ extractNumbers written = [Integer false 2024].
Proof.
  split; [reflexivity|].
  apply (formatNumber_read_back (Integer true 2024)
           (Some NumeralSystem.arabic_indic)
           [0x2D; 0x0662; 0x0660; 0x0662; 0x0664]).
  reflexivity.
Defined.

(** The theorem at Page 123 of 456, cut at the second space. *)
Lemma extractNumbers_app_witness :
  containsWesternNumerals [0x20] = false
  /\ containsArabicIndicNumerals [0x20] = false
  /\ extractNumbers (utf16 "Page 123" ++ 0x20 :: utf16 "of 456")
     = extractNumbers (utf16 "Page 123") ++ extractNumbers (utf16 "of 456").
Proof.
  split; [reflexivity | split; [reflexivity|]].
  apply (extractNumbers_app (utf16 "Page 123") (utf16 "of 456") 0x20);
    reflexivity.
Defined.

(* ================================================================== *)
(** * detect.ts: Uyghur text and the direction of a text *)
(* ================================================================== *)

Lemma uyghur_specific_arabic c : uyghur_specific c = true -> arabic_class c = true.
Proof.
  unfold uyghur_specific. cbn [existsb]. rewrite !orb_true_iff, !Z.eqb_eq.
  intros H. decompose [or] H; subst; try reflexivity; discriminate.
Qed.

Lemma uyghur_specific_not_ws c : uyghur_specific c = true -> is_ws c = false.
Proof.
  unfold uyghur_specific. cbn [existsb]. rewrite !orb_true_iff, !Z.eqb_eq.
  intros H. decompose [or] H; subst; try reflexivity; discriminate.
Qed.

Lemma existsb_implies {A} (P Q : A -> bool) l :
  (forall x, P x = true -> Q x = true) -> existsb P l = true -> existsb Q l = true.
Proof.
  intros H E. apply existsb_exists in E. destruct E as (x & Hx & Px).
  apply existsb_exists. exists x. auto.
Qed.

(** A text with a Uyghur-specific character contains Arabic script, so that
    [isLikelyUyghur] is [containsUyghurChars]: its first test never
    decides. *)
Theorem isLikelyUyghur_containsUyghurChars (text : str) :
  (containsUyghurChars text = true -> containsArabicScript text = true)
  /\ isLikelyUyghur text = containsUyghurChars text.
Proof.
  assert (H : containsUyghurChars text = true -> containsArabicScript text = true).
  { rewrite containsUyghurChars_codepoints, containsArabicScript_codepoints.
    apply existsb_implies, uyghur_specific_arabic. }
  split; [exact H|]. unfold isLikelyUyghur.
  destruct (containsUyghurChars text); [now rewrite H | apply andb_false_r].
Qed.

(** [detectScript] answers [uyghur] exactly for the texts that
    [isLikelyUyghur] accepts and that hold no Latin letter, no Chinese and no
    Cyrillic character. *)
Theorem detectScript_uyghur (text : str) :
  detectScript text = Script.uyghur
  <-> isLikelyUyghur text = true /\ containsLatin text = false
      /\ containsChinese text = false /\ containsCyrillic text = false.
Proof.
  unfold detectScript, isLikelyUyghur. cbv zeta.
  destruct (falsy text || (len (trim text) =? 0)) eqn:E.
  - split; [discriminate|]. intros ([_ Uy]%andb_true_iff & _). exfalso.
    rewrite all_whitespace_codepoints in E.
    rewrite containsUyghurChars_codepoints in Uy.
    apply existsb_exists in Uy. destruct Uy as (c & Hc & Uc).
    rewrite forallb_forall in E. specialize (E c Hc).
    apply uyghur_specific_not_ws in Uc. congruence.
  - destruct (containsArabicScript text), (containsUyghurChars text),
      (containsLatin text), (containsChinese text), (containsCyrillic text);
      cbn; split; try discriminate; try tauto; intros (? & ? & ? & ?);
      discriminate.
Qed.

Lemma count_no_arabic chars_ : forall arabicCount totalLetters,
  existsb isArabicScriptChar chars_ = false ->
  fst (fold_left count_step chars_ (arabicCount, totalLetters)) = arabicCount.
Proof.
  induction chars_ as [|char rest IH]; intros a n H; [reflexivity|].
  cbn [existsb] in H. apply orb_false_iff in H. destruct H as [Hc Hr].
  cbn [fold_left]. unfold count_step at 2. rewrite Hc.
  destruct (test is_ws char); now apply IH.
Qed.

Lemma zero_not_primarily (y : double) :
  double_gt (double_div (double_of_Z 0) y) double_0_5 = false.
Proof. destruct y as [[|]|[|]| |[|] m e]; reflexivity. Qed.

(** A text that is primarily Arabic script contains Arabic script, so that
    [isRTL] is [isPrimarilyArabicScript], and [getTextDirection] answers
    [rtl] exactly when [isPrimarilyArabicScript] holds. *)
Theorem isRTL_isPrimarilyArabicScript (text : str) :
  (isPrimarilyArabicScript text = true -> containsArabicScript text = true)
  /\ isRTL text = isPrimarilyArabicScript text
  /\ (getTextDirection text = Direction.rtl <-> isPrimarilyArabicScript text = true).
Proof.
  assert (H : isPrimarilyArabicScript text = true -> containsArabicScript text = true).
  { unfold isPrimarilyArabicScript, containsArabicScript.
    destruct (falsy text); [discriminate|].
    destruct (existsb isArabicScriptChar (chars text)) eqn:E; [reflexivity|].
    pose proof (count_no_arabic (chars text) 0 0 E) as C.
    destruct (fold_left count_step (chars text) (0, 0)) as [a n].
    cbn [fst] in C. subst a. now rewrite zero_not_primarily, andb_false_r. }
  assert (R : isRTL text = isPrimarilyArabicScript text).
  { unfold isRTL. destruct (isPrimarilyArabicScript text);
      [now rewrite H | apply andb_false_r]. }
  split; [exact H | split; [exact R|]].
  unfold getTextDirection. rewrite R.
  destruct (isPrimarilyArabicScript text); split; congruence.
Qed.

(* ================================================================== *)
(** * detect.ts: the majority test of isPrimarilyArabicScript *)
(* ================================================================== *)

(** ** The quotient of two counts *)

Lemma double_div_normal ma ea mb eb :
  Zpos (digits2_pos ma) = 53 -> Zpos (digits2_pos mb) = 53 ->
  -52 <= ea <= 0 -> -52 <= eb <= 0 ->
  double_div (S754_finite false ma ea) (S754_finite false mb eb)
  = binary_round_aux 53 1024 false
      ((Zpos ma * 2 ^ 53) / Zpos mb) (ea - eb - 53)
      (new_location (Zpos mb) ((Zpos ma * 2 ^ 53) mod Zpos mb)).
Proof.
  intros Da Db Ea Eb. unfold double_div, SFdiv, SFdiv_core_binary.
  cbn [Zdigits2 xorb]. rewrite Da, Db. unfold fexp, emin.
  replace (Z.min (Z.max (53 + ea - (53 + eb) - 53) (3 - 1024 - 53)) (ea - eb))
    with (ea - eb - 53) by lia.
  replace (ea - eb - (ea - eb - 53)) with 53 by lia.
  rewrite Z.shiftl_mul_pow2 by lia.
  unfold Z.div, Z.modulo.
  destruct (Z.div_eucl (Zpos ma * 2 ^ 53) (Zpos mb)) as [q r]. reflexivity.
Qed.

(** ** Rounding a quotient of 53 or 54 binary digits *)

Lemma binary_round_aux_stages mx ex lx :
  binary_round_aux 53 1024 false mx ex lx
  = let '(mrs, e') := shr_fexp 53 1024 mx ex lx in
    round_finish (round_nearest_even (shr_m mrs) (loc_of_shr_record mrs)) e'.
Proof. reflexivity. Qed.

Lemma shr_fexp_53 q e l :
  Zpos (digits2_pos q) = 53 -> -1021 <= e ->
  shr_fexp 53 1024 (Zpos q) e l = (shr_record_of_loc (Zpos q) l, e).
Proof.
  intros D E. unfold shr_fexp, fexp, emin. cbn [Zdigits2]. rewrite D.
  replace (Z.max (53 + e - 53) (3 - 1024 - 53) - e) with 0 by lia. reflexivity.
Qed.

Lemma shr_fexp_54 q e l :
  Zpos (digits2_pos q) = 54 -> -1021 <= e ->
  shr_fexp 53 1024 (Zpos q) e l = (shr_1 (shr_record_of_loc (Zpos q) l), e + 1).
Proof.
  intros D E. unfold shr_fexp, fexp, emin. cbn [Zdigits2]. rewrite D.
  replace (Z.max (54 + e - 53) (3 - 1024 - 53) - e) with 1 by lia. reflexivity.
Qed.

Lemma round_finish_value m e :
  2 ^ 52 <= Zpos m <= 2 ^ 53 -> -1021 <= e <= 970 ->
  round_finish (Zpos m) e
  = if Zpos m =? 2 ^ 53 then S754_finite false (2 ^ 52)%positive (e + 1)
    else S754_finite false m e.
Proof.
  intros M E. unfold round_finish. destruct (Z.eqb_spec (Zpos m) (2 ^ 53)) as [H|H].
  - assert (D : Zpos (digits2_pos m) = 54) by (apply digits_unique; rewrite H; cbn; lia).
    rewrite shr_fexp_54 by (assumption || lia).
    injection H as ->. cbn [shr_record_of_loc shr_1 shr_m].
    replace (e + 1 <=? 1024 - 53) with true by (symmetry; apply Z.leb_le; lia).
    reflexivity.
  - assert (D : Zpos (digits2_pos m) = 53) by (apply digits_unique; lia).
    rewrite shr_fexp_53 by (assumption || lia).
    cbn [shr_record_of_loc shr_m].
    replace (e <=? 1024 - 53) with true by (symmetry; apply Z.leb_le; lia).
    reflexivity.
Qed.

Lemma above_half_finite m e :
  double_gt (S754_finite false m e) double_0_5
  = (-53 <? e) || ((e =? -53) && (2 ^ 52 <? Zpos m)).
Proof.
  unfold double_gt, double_0_5, SFltb, SFcompare.
  destruct (Z.compare_spec (-53) e) as [<-|L|G].
  - cbn [Z.ltb Z.compare Z.eqb orb andb Pos.eqb].
    change (Pos.compare_cont Eq 4503599627370496 m)
      with (4503599627370496 ?= m)%positive.
    change (2 ^ 52 <? Zpos m) with
      match (4503599627370496 ?= m)%positive with Lt => true | _ => false end.
    reflexivity.
  - replace (-53 <? e) with true by (symmetry; apply Z.ltb_lt; lia). reflexivity.
  - replace (-53 <? e) with false by (symmetry; apply Z.ltb_ge; lia).
    replace (e =? -53) with false by (symmetry; apply Z.eqb_neq; lia).
    reflexivity.
Qed.

Lemma above_half_finish m e :
  2 ^ 52 <= Zpos m <= 2 ^ 53 -> -1021 <= e <= 970 ->
  double_gt (round_finish (Zpos m) e) double_0_5
  = (-53 <? e) || ((e =? -53) && (2 ^ 52 <? Zpos m)).
Proof.
  intros M E. rewrite round_finish_value by assumption.
  destruct (Z.eqb_spec (Zpos m) (2 ^ 53)) as [H|H]; rewrite above_half_finite.
  - rewrite H. change (2 ^ 52 <? Z.pos (2 ^ 52)) with false.
    change (2 ^ 52 <? 2 ^ 53) with true. rewrite andb_false_r, andb_true_r, orb_false_r.
    destruct (Z.ltb_spec (-53) (e + 1)), (Z.ltb_spec (-53) e), (Z.eqb_spec e (-53));
      try reflexivity; lia.
  - reflexivity.
Qed.

Lemma above_half_53 q e l :
  2 ^ 52 <= Zpos q < 2 ^ 53 -> -1021 <= e <= 900 ->
  double_gt (binary_round_aux 53 1024 false (Zpos q) e l) double_0_5
  = (-53 <? e) || ((e =? -53) && ((2 ^ 52 <? Zpos q) || is_gt l)).
Proof.
  intros Q E.
  assert (D : Zpos (digits2_pos q) = 53) by (apply digits_unique; lia).
  rewrite binary_round_aux_stages, shr_fexp_53 by (assumption || lia).
  assert (R : exists m, round_nearest_even
                          (shr_m (shr_record_of_loc (Zpos q) l))
                          (loc_of_shr_record (shr_record_of_loc (Zpos q) l))
                        = Zpos m
                        /\ Zpos q <= Zpos m <= Zpos q + 1
                        /\ (Zpos q = 2 ^ 52 -> (2 ^ 52 <? Zpos m) = is_gt l)).
  { destruct l as [|[| |]]; cbn [shr_record_of_loc shr_m loc_of_shr_record
                                 round_nearest_even is_gt].
    - exists q. split; [reflexivity | split; [lia|]]. intros ->. reflexivity.
    - destruct (Z.even (Zpos q)) eqn:Ev.
      + exists q. split; [reflexivity | split; [lia|]]. intros ->. reflexivity.
      + exists (q + 1)%positive. split; [reflexivity | split; [lia|]].
        intros H. rewrite H in Ev. discriminate.
    - exists q. split; [reflexivity | split; [lia|]]. intros ->. reflexivity.
    - exists (q + 1)%positive. split; [reflexivity | split; [lia|]].
      intros H. apply Z.ltb_lt. lia. }
  destruct R as (m & -> & B & H).
  rewrite above_half_finish by lia. f_equal. f_equal.
  destruct (Z.ltb_spec (2 ^ 52) (Zpos q)) as [L|L].
  - cbn [orb]. apply Z.ltb_lt. lia.
  - cbn [orb]. apply H. lia.
Qed.

Lemma above_half_54 q e l :
  2 ^ 53 <= Zpos q < 2 ^ 54 -> -1021 <= e <= 900 ->
  double_gt (binary_round_aux 53 1024 false (Zpos q) e l) double_0_5
  = (-53 <? e + 1)
    || ((e + 1 =? -53)
        && ((2 ^ 53 + 2 <=? Zpos q)
            || ((Zpos q =? 2 ^ 53 + 1) && negb (is_exact l)))).
Proof.
  intros Q E.
  assert (D : Zpos (digits2_pos q) = 54) by (apply digits_unique; lia).
  rewrite binary_round_aux_stages, shr_fexp_54 by (assumption || lia).
  assert (R : exists m, round_nearest_even
                          (shr_m (shr_1 (shr_record_of_loc (Zpos q) l)))
                          (loc_of_shr_record (shr_1 (shr_record_of_loc (Zpos q) l)))
                        = Zpos m
                        /\ 2 ^ 52 <= Zpos m <= 2 ^ 53
                        /\ (2 ^ 52 <? Zpos m)
                           = (2 ^ 53 + 2 <=? Zpos q)
                             || ((Zpos q =? 2 ^ 53 + 1) && negb (is_exact l))).
  { destruct q as [p|p|]; [| |cbn in Q; lia].
    - (* an odd quotient *)
      destruct l as [|[| |]]; cbn [shr_record_of_loc shr_1 shr_m loc_of_shr_record
                                   round_nearest_even orb is_exact negb].
      + destruct (Z.even (Zpos p)) eqn:Ev;
          [exists p | exists (p + 1)%positive]; (split; [reflexivity|]);
          (split; [lia|]); rewrite andb_false_r, orb_false_r.
        * destruct (Z.ltb_spec (2 ^ 52) (Zpos p)), (Z.leb_spec (2 ^ 53 + 2) (Zpos p~1));
            try reflexivity; lia.
        * assert (Zpos p <> 2 ^ 52) by (intros H; rewrite H in Ev; discriminate).
          destruct (Z.ltb_spec (2 ^ 52) (Zpos (p + 1))), (Z.leb_spec (2 ^ 53 + 2) (Zpos p~1));
            try reflexivity; lia.
      + exists (p + 1)%positive. split; [reflexivity | split; [lia|]].
        rewrite andb_true_r.
        destruct (Z.ltb_spec (2 ^ 52) (Zpos (p + 1))), (Z.leb_spec (2 ^ 53 + 2) (Zpos p~1)),
          (Z.eqb_spec (Zpos p~1) (2 ^ 53 + 1)); try reflexivity; lia.
      + exists (p + 1)%positive. split; [reflexivity | split; [lia|]].
        rewrite andb_true_r.
        destruct (Z.ltb_spec (2 ^ 52) (Zpos (p + 1))), (Z.leb_spec (2 ^ 53 + 2) (Zpos p~1)),
          (Z.eqb_spec (Zpos p~1) (2 ^ 53 + 1)); try reflexivity; lia.
      + exists (p + 1)%positive. split; [reflexivity | split; [lia|]].
        rewrite andb_true_r.
        destruct (Z.ltb_spec (2 ^ 52) (Zpos (p + 1))), (Z.leb_spec (2 ^ 53 + 2) (Zpos p~1)),
          (Z.eqb_spec (Zpos p~1) (2 ^ 53 + 1)); try reflexivity; lia.
    - (* an even quotient *)
      exists p.
      assert (V : (2 ^ 52 <? Zpos p)
                  = (2 ^ 53 + 2 <=? Zpos p~0)
                    || ((Zpos p~0 =? 2 ^ 53 + 1) && negb (is_exact l))).
      { destruct (Z.ltb_spec (2 ^ 52) (Zpos p)), (Z.leb_spec (2 ^ 53 + 2) (Zpos p~0)),
          (Z.eqb_spec (Zpos p~0) (2 ^ 53 + 1)); try reflexivity; lia. }
      destruct l as [|[| |]]; cbn [shr_record_of_loc shr_1 shr_m loc_of_shr_record
                                   round_nearest_even orb];
        (split; [reflexivity | split; [lia | exact V]]). }
  destruct R as (m & -> & B & H).
  rewrite above_half_finish by lia. now rewrite H.
Qed.

Lemma new_location_exact nb r :
  is_exact (new_location nb r) = (r =? 0).
Proof.
  unfold new_location, new_location_even, new_location_odd.
  destruct (Z.even nb), (r =? 0); reflexivity.
Qed.

Lemma new_location_gt nb r :
  0 <= r < nb -> is_gt (new_location nb r) = (nb <? 2 * r).
Proof.
  intros R. unfold new_location, new_location_even, new_location_odd.
  destruct (Z.even nb) eqn:Ev; destruct (Z.eqb_spec r 0) as [->|N].
  - cbn [is_gt]. symmetry. apply Z.ltb_ge. lia.
  - cbn [is_gt]. rewrite Z.ltb_antisym. unfold Z.leb.
    rewrite (Z.compare_antisym nb (2 * r)).
    destruct (nb ?= 2 * r); reflexivity.
  - cbn [is_gt]. symmetry. apply Z.ltb_ge. lia.
  - cbn [is_gt].
    assert (O : Z.odd nb = true) by (rewrite <- Z.negb_even, Ev; reflexivity).
    apply Z.odd_spec in O. destruct O as [k O].
    destruct (Z.compare_spec (2 * r + 1) nb), (Z.ltb_spec nb (2 * r));
      try reflexivity; lia.
Qed.

(** The quotient of two counts, [a] of the [b] counted, has the
    comparison with one half that the counts have. *)
Lemma half_of_counts a b :
  0 <= a <= b -> 1 <= b < 2 ^ 53 ->
  double_gt (double_div (double_of_Z a) (double_of_Z b)) double_0_5
  = (b <? 2 * a).
Proof.
  intros A B. destruct (Z.eqb_spec a 0) as [->|Na].
  { rewrite zero_not_primarily. symmetry. apply Z.ltb_ge. lia. }
  destruct (double_of_Z_normal a) as (ma & ea & -> & Da & Ea & Ma); [lia|].
  destruct (double_of_Z_normal b) as (mb & eb & -> & Db & Eb & Mb); [lia|].
  rewrite double_div_normal by assumption.
  pose proof (digits_bounds ma) as Ba. rewrite Da in Ba.
  pose proof (digits_bounds mb) as Bb. rewrite Db in Bb.
  change (2 ^ (53 - 1)) with (2 ^ 52) in *.
  set (Q := Zpos ma * 2 ^ 53).
  pose proof (Z.div_mod Q (Zpos mb) ltac:(lia)) as Dv.
  pose proof (Z.mod_pos_bound Q (Zpos mb) ltac:(lia)) as Rb.
  set (q := Q / Zpos mb) in *. set (r := Q mod Zpos mb) in *.
  assert (Pa : 0 < 2 ^ (- ea)) by (apply Z.pow_pos_nonneg; lia).
  assert (Pb : 0 < 2 ^ (- eb)) by (apply Z.pow_pos_nonneg; lia).
  set (pa := 2 ^ (- ea)) in *. set (pb := 2 ^ (- eb)) in *.
  assert (Qv : Q = Zpos ma * 9007199254740992) by reflexivity.
  change (2 ^ 52) with 4503599627370496 in *.
  change (2 ^ 53) with 9007199254740992 in *.
  assert (Hq : 4503599627370496 <= q < 18014398509481984) by nia.
  assert (T : ea - eb = 0 /\ pa = pb \/ ea - eb = -1 /\ pa = 2 * pb
              \/ ea - eb <= -2 /\ 4 * pb <= pa).
  { destruct (Z.lt_trichotomy (ea - eb) 0) as [Lt|[Eq|Gt]].
    - right. assert (E : pa = pb * 2 ^ (eb - ea)).
      { subst pa pb. rewrite <- Z.pow_add_r by lia. f_equal. lia. }
      destruct (Z.eq_dec (ea - eb) (-1)) as [E1|E1].
      + left. split; [exact E1|]. rewrite E.
        replace (eb - ea) with 1 by lia. change (2 ^ 1) with 2. lia.
      + right. split; [lia|]. rewrite E.
        assert (2 ^ 2 <= 2 ^ (eb - ea)) by (apply Z.pow_le_mono_r; lia).
        change (2 ^ 2) with 4 in *. nia.
    - left. split; [exact Eq|]. subst pa pb. f_equal. lia.
    - exfalso. assert (E : pb = pa * 2 ^ (ea - eb)).
      { subst pa pb. rewrite <- Z.pow_add_r by lia. f_equal. lia. }
      assert (2 ^ 1 <= 2 ^ (ea - eb)) by (apply Z.pow_le_mono_r; lia).
      change (2 ^ 1) with 2 in *. nia. }
  destruct q as [|qp|qp] eqn:Eq; try lia.
  destruct (Z.ltb_spec (Zpos qp) 9007199254740992) as [Lq|Lq].
  - rewrite above_half_53 by (cbn; lia).
    rewrite new_location_gt by exact Rb.
    change (2 ^ 52) with 4503599627370496.
    destruct T as [[T P]|[[T P]|[T P]]].
    + replace (ea - eb - 53) with (-53) by lia.
      change (-53 <? -53) with false. change (-53 =? -53) with true.
      cbn [orb andb].
      assert (b < 2 * a) by nia.
      replace (b <? 2 * a) with true by (symmetry; apply Z.ltb_lt; lia).
      destruct (Z.ltb_spec 4503599627370496 (Zpos qp)) as [L1|L1]; [reflexivity|].
      cbn [orb]. apply Z.ltb_lt. nia.
    + replace (ea - eb - 53) with (-54) by lia.
      change (-53 <? -54) with false. change (-54 =? -53) with false.
      cbn [orb andb]. symmetry. apply Z.ltb_ge. nia.
    + replace (-53 <? ea - eb - 53) with false by (symmetry; apply Z.ltb_ge; lia).
      replace (ea - eb - 53 =? -53) with false by (symmetry; apply Z.eqb_neq; lia).
      cbn [orb andb]. symmetry. apply Z.ltb_ge. nia.
  - rewrite above_half_54 by (cbn; lia).
    rewrite new_location_exact.
    change (2 ^ 53) with 9007199254740992.
    destruct T as [[T P]|[[T P]|[T P]]].
    + replace (ea - eb - 53 + 1) with (-52) by lia.
      change (-53 <? -52) with true. cbn [orb].
      symmetry. apply Z.ltb_lt. nia.
    + replace (ea - eb - 53 + 1) with (-53) by lia.
      change (-53 <? -53) with false. change (-53 =? -53) with true.
      cbn [orb andb].
      destruct (Z.ltb_spec b (2 * a)) as [L2|L2].
      * assert (Zpos mb + 1 <= Zpos ma) by nia.
        destruct (Z.leb_spec (9007199254740992 + 2) (Zpos qp)) as [L3|L3];
          [reflexivity|]. cbn [orb].
        assert (Zpos qp = 9007199254740992 + 1) by nia.
        replace (Zpos qp =? 9007199254740992 + 1) with true
          by (symmetry; apply Z.eqb_eq; assumption).
        replace (r =? 0) with false by (symmetry; apply Z.eqb_neq; nia).
        reflexivity.
      * assert (Zpos ma <= Zpos mb) by nia.
        assert (Hz : Zpos qp = 9007199254740992 /\ r = 0) by nia.
        destruct Hz as [Hz1 Hz2]. rewrite Hz1, Hz2. reflexivity.
    + replace (-53 <? ea - eb - 53 + 1) with false by (symmetry; apply Z.ltb_ge; lia).
      replace (ea - eb - 53 + 1 =? -53) with false by (symmetry; apply Z.eqb_neq; lia).
      cbn [orb andb]. symmetry. apply Z.ltb_ge. nia.
Qed.

Lemma count_fold chars_ : forall arabicCount totalLetters,
  fold_left count_step chars_ (arabicCount, totalLetters)
  = (arabicCount
     + Z.of_nat (length (filter isArabicScriptChar
                           (filter (fun char => negb (test is_ws char)) chars_))),
     totalLetters
     + Z.of_nat (length (filter (fun char => negb (test is_ws char)) chars_))).
Proof.
  induction chars_ as [|char rest IH]; intros a n.
  - cbn. f_equal; lia.
  - cbn [fold_left filter]. unfold count_step at 2.
    destruct (test is_ws char); cbn [negb]; [apply IH|].
    cbn [filter]. rewrite IH.
    destruct (isArabicScriptChar char); cbn [length]; f_equal; lia.
Qed.

Lemma length_chars s : (length (chars s) <= length s)%nat.
Proof.
  pattern s; apply str_pair_ind; clear s; [cbn; lia | intros h; cbn; lia |].
  intros h l t IHt IHl. rewrite chars_pair.
  destruct (is_high h && is_low l); cbn [length] in *; lia.
Qed.

Lemma length_filter {A} (f : A -> bool) l : (length (filter f l) <= length l)%nat.
Proof.
  induction l as [|x l IH]; [reflexivity|]. cbn [filter].
  destruct (f x); cbn [length]; lia.
Qed.

(** For a text of fewer than 2^53 code units, as every string is,
    [isPrimarilyArabicScript] holds exactly when more than half of the
    characters that are no whitespace are Arabic script: the quotient of the
    two counts, rounded to a double, is above 0.5 exactly when twice the
    number of Arabic-script characters exceeds the number of characters
    counted. *)
Theorem isPrimarilyArabicScript_majority (text : str) :
  len text < 2 ^ 53 ->
  isPrimarilyArabicScript text
  = (Z.of_nat (length (letters text))
     <? 2 * Z.of_nat (length (filter isArabicScriptChar (letters text)))).
Proof.
  intros L. unfold isPrimarilyArabicScript, letters.
  destruct (falsy text) eqn:F; [destruct text; [reflexivity | discriminate]|].
  rewrite count_fold.
  set (ls := filter (fun char => negb (test is_ws char)) (chars text)).
  set (total := Z.of_nat (length ls)).
  set (arabic_ := Z.of_nat (length (filter isArabicScriptChar ls))).
  assert (B1 : 0 <= arabic_ <= total).
  { subst arabic_ total. pose proof (length_filter isArabicScriptChar ls). lia. }
  assert (B2 : total < 2 ^ 53).
  { subst total ls. unfold len in L.
    pose proof (length_filter (fun char => negb (test is_ws char)) (chars text)).
    pose proof (length_chars text). lia. }
  cbn [Z.add]. destruct (Z.gtb_spec total 0) as [G|G].
  - cbn [andb]. apply half_of_counts; lia.
  - cbn [andb]. symmetry. apply Z.ltb_ge. lia.
Qed.


(** The theorem at a text of two Latin letters, a space and three Arabic
    letters: three of the five characters counted are Arabic script. *)
Lemma isPrimarilyArabicScript_majority_witness :
  len (utf16 "ab " ++ [0x0646; 0x0648; 0x0632]) < 2 ^ 53
  /\ isPrimarilyArabicScript (utf16 "ab " ++ [0x0646; 0x0648; 0x0632])
     = (5 <? 2 * 3).
Proof.
  split; [reflexivity|].
  exact (isPrimarilyArabicScript_majority
           (utf16 "ab " ++ [0x0646; 0x0648; 0x0632]) eq_refl).
Defined.

(* ================================================================== *)
(** * normalize.ts: trimAndNormalize and normalizeUyghur *)
(* ================================================================== *)

Lemma squeeze_blanks_normal b s : blank_normal b (squeeze_blanks_from b s) = true.
Proof.
  revert b; induction s as [|c t IH]; intros b; [reflexivity|].
  cbn [squeeze_blanks_from]. destruct ((c =? 32) || (c =? 9)) eqn:B.
  - destruct b; cbn [app]; [apply IH|].
    cbn [blank_normal]. change ((32 =? 32) || (32 =? 9)) with true.
    cbv iota. now rewrite IH.
  - cbn [blank_normal]. rewrite B. apply IH.
Qed.

Lemma blank_normal_fixed b s :
  blank_normal b s = true -> squeeze_blanks_from b s = s.
Proof.
  revert b; induction s as [|c t IH]; intros b; [reflexivity|].
  cbn [blank_normal squeeze_blanks_from]. destruct ((c =? 32) || (c =? 9)).
  - rewrite !andb_true_iff, negb_true_iff, Z.eqb_eq. intros [[-> ->] H].
    cbn [app]. now rewrite IH.
  - intros H. now rewrite IH.
Qed.

Lemma newline_normal_le j k s :
  (k <= j)%nat -> newline_normal j s = true -> newline_normal k s = true.
Proof.
  revert j k; induction s as [|c t IH]; intros j k L; [reflexivity|].
  cbn [newline_normal]. destruct (c =? 10); [|auto].
  rewrite !andb_true_iff, !Nat.ltb_lt. intros [J H]. split; [lia|].
  apply (IH (S j)); [lia | exact H].
Qed.

Lemma limit_newlines_normal k s :
  newline_normal k (limit_newlines_from k s) = true.
Proof.
  revert k; induction s as [|c t IH]; intros k; [reflexivity|].
  cbn [limit_newlines_from]. destruct (c =? 10) eqn:C.
  - destruct (k <? 2)%nat eqn:K; cbn [app].
    + apply Z.eqb_eq in C. subst c. cbn [newline_normal].
      change (10 =? 10) with true. cbv iota. now rewrite K, IH.
    + apply (newline_normal_le (S k)); [lia | apply IH].
  - cbn [newline_normal]. rewrite C. apply IH.
Qed.

Lemma newline_normal_fixed k s :
  newline_normal k s = true -> limit_newlines_from k s = s.
Proof.
  revert k; induction s as [|c t IH]; intros k; [reflexivity|].
  cbn [newline_normal limit_newlines_from]. destruct (c =? 10) eqn:C.
  - rewrite andb_true_iff. intros [-> H]. apply Z.eqb_eq in C. subst c.
    cbn [app]. now rewrite IH.
  - intros H. now rewrite IH.
Qed.

Lemma limit_newlines_blank_normal s : forall k b,
  ((0 < k)%nat -> b = false) ->
  blank_normal b s = true -> blank_normal b (limit_newlines_from k s) = true.
Proof.
  induction s as [|c t IH]; intros k b K; [reflexivity|].
  cbn [blank_normal limit_newlines_from]. destruct (c =? 10) eqn:C.
  - apply Z.eqb_eq in C. subst c. change ((10 =? 32) || (10 =? 9)) with false.
    cbv iota. intros H. destruct (k <? 2)%nat eqn:L; cbn [app].
    + cbn [blank_normal]. change ((10 =? 32) || (10 =? 9)) with false.
      cbv iota. apply IH; [reflexivity | exact H].
    + apply Nat.ltb_ge in L. rewrite K by lia. apply IH; [reflexivity | exact H].
  - cbn [blank_normal]. destruct ((c =? 32) || (c =? 9)).
    + rewrite !andb_true_iff. intros [E H]. split; [exact E|].
      apply IH; [lia | exact H].
    + apply IH. lia.
Qed.

Lemma forallb_squeeze_blanks (P : Z -> bool) b s :
  P 0x20 = true -> forallb P s = true ->
  forallb P (squeeze_blanks_from b s) = true.
Proof.
  intros Sp. revert b; induction s as [|c t IH]; intros b; [reflexivity|].
  cbn [forallb squeeze_blanks_from]. rewrite andb_true_iff. intros [Hc Ht].
  destruct ((c =? 32) || (c =? 9)).
  - rewrite forallb_app, IH by exact Ht. now destruct b; cbn; rewrite ?Sp.
  - cbn [forallb]. now rewrite Hc, IH.
Qed.

Lemma squeeze_blanks_no_tab b s :
  forallb (fun c => negb (c =? 0x09)) (squeeze_blanks_from b s) = true.
Proof.
  revert b; induction s as [|c t IH]; intros b; [reflexivity|].
  cbn [squeeze_blanks_from]. destruct ((c =? 32) || (c =? 9)) eqn:B.
  - rewrite forallb_app, IH. now destruct b.
  - cbn [forallb]. rewrite IH. apply orb_false_iff in B. destruct B as [_ ->].
    reflexivity.
Qed.

Lemma forallb_limit_newlines (P : Z -> bool) k s :
  forallb P s = true -> forallb P (limit_newlines_from k s) = true.
Proof.
  revert k; induction s as [|c t IH]; intros k; [reflexivity|].
  cbn [forallb limit_newlines_from]. rewrite andb_true_iff. intros [Hc Ht].
  destruct (c =? 10) eqn:C.
  - apply Z.eqb_eq in C. subst c. rewrite forallb_app, IH by exact Ht.
    destruct (k <? 2)%nat; cbn; now rewrite ?Hc.
  - cbn [forallb]. now rewrite Hc, IH.
Qed.

(** ** The ends of a trimmed text *)

Lemma trimEnd_form s :
  trimEnd s = [] \/ exists w z, trimEnd s = w ++ [z] /\ is_ws z = false.
Proof.
  induction s as [|c t IH]; [now left|]. cbn [trimEnd].
  destruct (trimEnd t) as [|x t'] eqn:T.
  - destruct (is_ws c) eqn:C; [now left|]. right. now exists [], c.
  - right. destruct IH as [IH|(w & z & E & Hz)]; [discriminate|].
    exists (c :: w), z. cbn [app]. now rewrite E.
Qed.

Lemma trim_form s :
  trim s = []
  \/ no_lead (trim s) = true
     /\ exists w z, trim s = w ++ [z] /\ is_ws z = false.
Proof.
  unfold trim. destruct (trimEnd_form (trimStart s)) as [E|F]; [now left|].
  right. split; [apply trimEnd_no_lead, trimStart_no_lead | exact F].
Qed.

Lemma trim_ends s w z :
  no_lead s = true -> s = w ++ [z] -> is_ws z = false -> trim s = s.
Proof.
  intros L E Hz. unfold trim. rewrite trimStart_fixed by exact L.
  rewrite E, trimEnd_app_word by exact Hz. reflexivity.
Qed.

Lemma squeeze_blanks_last b w z :
  is_ws z = false ->
  squeeze_blanks_from b (w ++ [z]) = squeeze_blanks_from b w ++ [z].
Proof.
  intros Hz. revert b; induction w as [|c t IH]; intros b.
  - cbn [app squeeze_blanks_from].
    replace ((z =? 32) || (z =? 9)) with false; [reflexivity|].
    symmetry. unclass. unbool. lia.
  - cbn [app squeeze_blanks_from]. rewrite !IH.
    destruct ((c =? 32) || (c =? 9)); [now rewrite app_assoc | reflexivity].
Qed.

Lemma limit_newlines_last k w z :
  is_ws z = false ->
  limit_newlines_from k (w ++ [z]) = limit_newlines_from k w ++ [z].
Proof.
  intros Hz. revert k; induction w as [|c t IH]; intros k.
  - cbn [app limit_newlines_from].
    replace (z =? 10) with false; [reflexivity|].
    symmetry. unclass. unbool. lia.
  - cbn [app limit_newlines_from]. rewrite !IH.
    destruct (c =? 10); [now rewrite app_assoc | reflexivity].
Qed.

Lemma squeeze_blanks_no_lead s :
  no_lead s = true -> no_lead (squeeze_blanks_from false s) = true.
Proof.
  destruct s as [|c t]; [reflexivity|]. cbn [no_lead squeeze_blanks_from].
  rewrite negb_true_iff. intros C.
  replace ((c =? 32) || (c =? 9)) with false; [cbn [no_lead]; now rewrite C|].
  symmetry. unclass. unbool. lia.
Qed.

Lemma limit_newlines_no_lead s :
  no_lead s = true -> no_lead (limit_newlines_from 0 s) = true.
Proof.
  destruct s as [|c t]; [reflexivity|]. cbn [no_lead limit_newlines_from].
  rewrite negb_true_iff. intros C.
  replace (c =? 10) with false; [cbn [no_lead]; now rewrite C|].
  symmetry. unclass. unbool. lia.
Qed.

Lemma replaceAll_absent p pat to s :
  existsb (Z.eqb p) s = false -> replaceAll (p :: pat) to s = s.
Proof.
  unfold replaceAll. induction s as [|c t IH]; [reflexivity|].
  cbn [existsb]. rewrite orb_false_iff. intros [C H].
  cbn [replaceAll_from]. unfold starts_with. cbn [length firstn str_eqb].
  rewrite Z.eqb_sym, C. cbn [andb]. now rewrite IH.
Qed.

Lemma no_cr_after_replace s :
  existsb (Z.eqb 0x0D) (replaceAll [0x0D] [0x0A] s) = false.
Proof.
  rewrite replaceAll_unit. induction s as [|c t IH]; [reflexivity|].
  cbn [flat_map]. rewrite existsb_app, IH, orb_false_r.
  destruct (13 =? c) eqn:C; [reflexivity|]. cbn [existsb]. now rewrite C.
Qed.

Lemma existsb_negb_forallb {A} (P : A -> bool) l :
  existsb P l = false <-> forallb (fun x => negb (P x)) l = true.
Proof.
  induction l as [|x l IH]; [split; reflexivity|]. cbn [existsb forallb].
  rewrite orb_false_iff, andb_true_iff, negb_true_iff, IH. reflexivity.
Qed.

(** The form of the result of [trimAndNormalize]. *)
Lemma trimAndNormalize_form t :
  let r := trimAndNormalize t in
  forallb (fun c => negb (0x0D =? c)) r = true
  /\ forallb (fun c => negb (c =? 0x09)) r = true
  /\ trim r = r
  /\ blank_normal false r = true
  /\ newline_normal 0 r = true.
Proof.
  unfold trimAndNormalize. destruct (falsy t); [now repeat split|]. cbv zeta.
  set (s2 := replaceAll [13] [10] (replaceAll [13; 10] [10] t)).
  assert (C2 : forallb (fun c => negb (0x0D =? c)) s2 = true)
    by apply existsb_negb_forallb, no_cr_after_replace.
  pose proof (forallb_trim _ _ C2) as C3.
  split; [|split; [|split; [|split]]].
  - apply forallb_limit_newlines, forallb_squeeze_blanks; [reflexivity | exact C3].
  - apply forallb_limit_newlines, squeeze_blanks_no_tab.
  - destruct (trim_form s2) as [E|(L & w & z & E & Hz)]; [now rewrite E|].
    apply (trim_ends _ (limit_newlines_from 0 (squeeze_blanks_from false w)) z);
      [| |exact Hz].
    + apply limit_newlines_no_lead, squeeze_blanks_no_lead, L.
    + rewrite E, squeeze_blanks_last, limit_newlines_last by exact Hz.
      reflexivity.
  - apply limit_newlines_blank_normal; [lia | apply squeeze_blanks_normal].
  - apply limit_newlines_normal.
Qed.

(** [trimAndNormalize] is idempotent. *)
Theorem trimAndNormalize_idempotent (t : str) :
  trimAndNormalize (trimAndNormalize t) = trimAndNormalize t.
Proof.
  destruct (trimAndNormalize_form t) as (C & _ & T & B & N).
  cbv zeta in *. set (r := trimAndNormalize t) in *.
  unfold trimAndNormalize at 1. destruct (falsy r) eqn:F.
  { destruct r; [reflexivity | discriminate]. }
  cbv zeta. apply existsb_negb_forallb in C.
  rewrite (replaceAll_absent 13 [10] [10] r C), (replaceAll_absent 13 [] [10] r C).
  now rewrite T, blank_normal_fixed, newline_normal_fixed.
Qed.

Lemma blank_normal_app b u w :
  blank_normal b (u ++ w) = true -> exists b', blank_normal b' w = true.
Proof.
  revert b; induction u as [|c t IH]; intros b; [now exists b|].
  cbn [app blank_normal]. destruct ((c =? 32) || (c =? 9)).
  - rewrite !andb_true_iff. intros [_ H]. now apply IH in H.
  - apply IH.
Qed.

Lemma newline_normal_app k u w :
  newline_normal k (u ++ w) = true -> exists k', newline_normal k' w = true.
Proof.
  revert k; induction u as [|c t IH]; intros k; [now exists k|].
  cbn [app newline_normal]. destruct (c =? 10).
  - rewrite !andb_true_iff. intros [_ H]. now apply IH in H.
  - apply IH.
Qed.

(** The result of [trimAndNormalize] holds no carriage return and no tab,
    it has no whitespace at its ends, and nowhere in it do two spaces or
    three line feeds follow one another. *)
Theorem trimAndNormalize_output (t : str) :
  let r := trimAndNormalize t in
  forallb (fun c => negb (c =? 0x0D) && negb (c =? 0x09)) r = true
  /\ trim r = r
  /\ (forall u v, r <> u ++ [0x20; 0x20] ++ v)
  /\ (forall u v, r <> u ++ [0x0A; 0x0A; 0x0A] ++ v).
Proof.
  destruct (trimAndNormalize_form t) as (C & Tb & T & B & N).
  cbv zeta in *. set (r := trimAndNormalize t) in *.
  split; [|split; [exact T | split]].
  - rewrite forallb_forall in *. intros c Hc.
    specialize (C c Hc). specialize (Tb c Hc). rewrite Z.eqb_sym.
    now rewrite C, Tb.
  - intros u v E. rewrite E in B. apply blank_normal_app in B.
    destruct B as [b' B]. cbn in B. now rewrite andb_false_r in B.
  - intros u v E. rewrite E in N. apply newline_normal_app in N.
    destruct N as [k' N]. cbn [app newline_normal] in N.
    change (10 =? 10) with true in N. cbv iota in N.
    rewrite !andb_true_iff, !Nat.ltb_lt in N. lia.
Qed.

Section NormalizeUyghurFacts.
Context {U : Unicode}.

(** The result of [normalizeUyghur] holds no key of [CHAR_NORMALIZATIONS]
    (no variant letter and no zero-width character), its whitespace is single
    spaces between words, and it is a fixed point of [normalizeUyghur] as
    soon as the platform's NFC normalization leaves it unchanged. *)
Theorem normalizeUyghur_output (t : str) :
  let r := normalizeUyghur t in
  forallb (fun c => negb (is_key CHAR_NORMALIZATIONS c)) r = true
  /\ replace_ws_runs [0x20] r = r /\ trim r = r
  /\ (normalizeNFC r = r -> normalizeUyghur r = r).
Proof.
  cbv zeta. pose proof (normalizeUyghur_no_key t) as K.
  assert (W : replace_ws_runs [0x20] (normalizeUyghur t) = normalizeUyghur t
              /\ trim (normalizeUyghur t) = normalizeUyghur t).
  { rewrite normalizeUyghur_subst. destruct (falsy t); [now split|].
    apply normalize_whitespace_fixed. }
  destruct W as [W1 W2]. split; [exact K | split; [exact W1 | split; [exact W2|]]].
  intros N. rewrite (normalizeUyghur_subst (normalizeUyghur t)).
  destruct (falsy (normalizeUyghur t)) eqn:F.
  { destruct (normalizeUyghur t); [reflexivity | discriminate]. }
  now rewrite N, lookup_normalization_fixed, W1, W2.
Qed.

End NormalizeUyghurFacts.

(* ================================================================== *)
(** * transliterate.ts: toULY and the marks it drops *)
(* ================================================================== *)

(** ** [toULY], code unit by code unit *)

Lemma get_long_key tbl key :
  forallb (fun kv => (length (fst kv) =? 1)%nat) tbl = true ->
  (1 < length key)%nat -> get tbl key = None.
Proof.
  intros K L. destruct (get tbl key) as [v|] eqn:G; [|reflexivity].
  apply get_entry in G. rewrite forallb_forall in K. specialize (K _ G).
  cbn [fst] in K. apply Nat.eqb_eq in K. lia.
Qed.

Lemma uly_of_surrogate c : is_high c || is_low c = true -> uly_of c = [].
Proof.
  intros S. unfold uly_of, toULY_step.
  destruct (get COMPLETE_ARABIC_TO_LATIN [c]) as [v|] eqn:G.
  - exfalso. apply get_entry in G.
    assert (K : forallb (fun kv => forallb (fun x => negb (is_high x || is_low x)) (fst kv))
                  COMPLETE_ARABIC_TO_LATIN = true) by reflexivity.
    rewrite forallb_forall in K. specialize (K _ G). cbn [fst forallb] in K.
    rewrite S in K. discriminate.
  - unfold test. cbn [existsb]. rewrite !orb_false_r.
    replace (is_ws c) with false by (symmetry; clear G; unclass; unbool; lia).
    replace (is_alnum c) with false by (symmetry; clear G; unclass; unbool; lia).
    replace (is_punct c) with false by (symmetry; clear G; unclass; unbool; lia).
    reflexivity.
Qed.

Lemma toULY_step_pair h l :
  is_high h && is_low l = true -> toULY_step [] [h; l] = [].
Proof.
  intros S. unfold toULY_step.
  rewrite get_long_key by (reflexivity || (cbn; lia)).
  now destruct (surrogates_in_no_class h l S) as (-> & -> & ->).
Qed.

Lemma toULY_units t : flat_map (toULY_step []) (chars t) = flat_map uly_of t.
Proof.
  pattern t; apply str_pair_ind; clear t; [reflexivity | reflexivity |].
  intros h l t IHt IHl. rewrite chars_pair.
  destruct (is_high h && is_low l) eqn:S.
  - cbn [flat_map]. rewrite toULY_step_pair, IHt by exact S.
    apply andb_true_iff in S. destruct S as [Sh Sl].
    rewrite (uly_of_surrogate h), (uly_of_surrogate l); [reflexivity| |].
    + now rewrite Sl, orb_true_r.
    + now rewrite Sh.
  - cbn [flat_map] in *. now rewrite IHl.
Qed.

Lemma toULY_flat_map t :
  toULY t = trim (replace_ws_runs [0x20] (flat_map uly_of t)).
Proof.
  unfold toULY. destruct t as [|c t]; [reflexivity|]. cbn [falsy]. cbv zeta.
  now rewrite toULY_loop, toULY_units.
Qed.

Lemma flat_map_remove (f : Z -> str) (cls : Z -> bool) s :
  (forall c, cls c = true -> f c = []) ->
  flat_map f (remove cls s) = flat_map f s.
Proof.
  intros H. unfold remove. induction s as [|c t IH]; [reflexivity|].
  cbn [filter flat_map]. destruct (cls c) eqn:C; cbn [negb flat_map].
  - now rewrite IH, (H c C).
  - now rewrite IH.
Qed.

Lemma uly_of_diacritic c : is_diacritic c = true -> uly_of c = [].
Proof.
  intros D.
  assert (H : forallb (fun x => falsy (uly_of x))
                [0x064b; 0x064c; 0x064d; 0x064e; 0x064f; 0x0650; 0x0651; 0x0652]
              = true) by (vm_compute; reflexivity).
  rewrite forallb_forall in H.
  assert (I : In c [0x064b; 0x064c; 0x064d; 0x064e; 0x064f; 0x0650; 0x0651; 0x0652]).
  { unfold is_diacritic, between in D. unbool. cbn [In]. lia. }
  specialize (H c I). now destruct (uly_of c).
Qed.

Lemma uly_of_hamza c : is_hamza c = true -> uly_of c = [].
Proof.
  intros D.
  assert (H : forallb (fun x => falsy (uly_of x))
                [0x0626; 0x0621; 0x0623; 0x0625; 0x0622; 0x0624] = true)
    by (vm_compute; reflexivity).
  rewrite forallb_forall in H.
  assert (I : In c [0x0626; 0x0621; 0x0623; 0x0625; 0x0622; 0x0624]).
  { unfold is_hamza in D. unbool. cbn [In]. lia. }
  specialize (H c I). now destruct (uly_of c).
Qed.

(** [toULY] drops the Arabic diacritics and the hamza characters itself:
    removing them first, with [removeDiacritics] or with [removeHamza], does
    not change its result. *)
Theorem toULY_ignores_marks (t : str) :
  toULY (removeDiacritics t) = toULY t /\ toULY (removeHamza t) = toULY t.
Proof.
  rewrite removeDiacritics_remove, removeHamza_remove, !toULY_flat_map.
  rewrite (flat_map_remove _ _ _ uly_of_diacritic).
  rewrite (flat_map_remove _ _ _ uly_of_hamza). split; reflexivity.
Qed.

(* ================================================================== *)
(** * slug.ts: valid slugs and sanitizeSlug *)
(* ================================================================== *)

Lemma squeeze_normal b sep s : sep_normal b sep (squeeze_from b sep s) = true.
Proof.
  revert b; induction s as [|c t IH]; intros b; [reflexivity|].
  cbn [squeeze_from]. destruct (c =? sep) eqn:C.
  - destruct b; cbn [app]; [apply IH|].
    cbn [sep_normal]. rewrite Z.eqb_refl. now rewrite IH.
  - cbn [sep_normal]. rewrite C. apply IH.
Qed.

Lemma sep_normal_fixed b sep s :
  sep_normal b sep s = true -> squeeze_from b sep s = s.
Proof.
  revert b; induction s as [|c t IH]; intros b; [reflexivity|].
  cbn [sep_normal squeeze_from]. destruct (c =? sep) eqn:C.
  - rewrite andb_true_iff, negb_true_iff. intros [-> H].
    apply Z.eqb_eq in C. subst c. cbn [app]. now rewrite IH.
  - intros H. now rewrite IH.
Qed.

Lemma sep_normal_weaken b sep s :
  sep_normal b sep s = true -> sep_normal false sep s = true.
Proof.
  destruct s as [|c t]; [reflexivity|]. cbn [sep_normal].
  destruct (c =? sep); [|auto]. rewrite andb_true_iff. now intros [_ ->].
Qed.

Lemma sep_normal_app b sep u w :
  sep_normal b sep (u ++ w) = true ->
  sep_normal b sep u = true /\ sep_normal false sep w = true.
Proof.
  revert b; induction u as [|c t IH]; intros b.
  - cbn [app]. intros H. split; [reflexivity | now apply sep_normal_weaken in H].
  - cbn [app sep_normal]. destruct (c =? sep).
    + rewrite !andb_true_iff. intros [B H]. apply IH in H. tauto.
    + apply IH.
Qed.

Lemma sep_normal_snoc sep u : forall b,
  sep_normal b sep (u ++ [sep]) = true -> u = [] \/ last u 0 <> sep.
Proof.
  induction u as [|c t IH]; intros b H; [now left|]. right.
  cbn [app sep_normal] in H.
  assert (T : sep_normal (c =? sep) sep (t ++ [sep]) = true).
  { destruct (c =? sep); [|exact H]. apply andb_true_iff in H. tauto. }
  destruct t as [|x t'].
  - cbn [app sep_normal last] in *. rewrite Z.eqb_refl in T.
    destruct (c =? sep) eqn:C; [discriminate | now apply Z.eqb_neq].
  - apply IH in T. destruct T as [T|T]; [discriminate | exact T].
Qed.

Lemma sep_normal_head sep t :
  sep_normal true sep t = true -> t = [] \/ hd 0 t <> sep.
Proof.
  destruct t as [|c t]; [now left|]. cbn [sep_normal hd]. right.
  destruct (c =? sep) eqn:C; [discriminate | now apply Z.eqb_neq].
Qed.

Lemma hd_app (u w : str) : u <> [] -> hd 0 (u ++ w) = hd 0 u.
Proof. destruct u; [congruence | reflexivity]. Qed.

Lemma strip_ends_clean sep s :
  sep_normal false sep s = true ->
  clean_ends sep (strip_ends sep s)
  /\ sep_normal false sep (strip_ends sep s) = true
  /\ (forall P : Z -> bool, forallb P s = true ->
                            forallb P (strip_ends sep s) = true).
Proof.
  intros N. unfold strip_ends.
  set (s1 := match s with
             | [] => []
             | c :: t => if c =? sep then t else s
             end).
  assert (H1 : (s1 = [] \/ hd 0 s1 <> sep) /\ sep_normal false sep s1 = true
               /\ forall P : Z -> bool, forallb P s = true -> forallb P s1 = true).
  { subst s1. destruct s as [|c t];
      [split; [now left | split; [reflexivity | intros; reflexivity]]|].
    cbn [sep_normal] in N. destruct (c =? sep) eqn:C.
    - cbn [negb andb] in N. split; [now apply sep_normal_head|].
      split; [now apply sep_normal_weaken in N|].
      intros P HP. cbn [forallb] in HP. apply andb_true_iff in HP. tauto.
    - split; [right; now apply Z.eqb_neq|]. split; [|auto].
      cbn [sep_normal]. now rewrite C. }
  clearbody s1. destruct H1 as (Hh & Hn & Hp).
  destruct (rev s1) as [|c t'] eqn:R.
  { assert (s1 = []) by (rewrite <- (rev_involutive s1), R; reflexivity).
    subst s1. split; [now left | split; [reflexivity | intros; reflexivity]]. }
  assert (E : s1 = rev t' ++ [c]) by (rewrite <- (rev_involutive s1), R; reflexivity).
  destruct (c =? sep) eqn:C.
  - apply Z.eqb_eq in C. subst c. rewrite E in Hn.
    pose proof (sep_normal_snoc _ _ _ Hn) as L.
    apply sep_normal_app in Hn. destruct Hn as [Hn _].
    split; [|split; [exact Hn|]].
    + destruct (rev t') as [|x w]; [now left|]. right.
      destruct L as [L|L]; [discriminate|]. split; [|exact L].
      destruct Hh as [Hh|Hh]; [rewrite E in Hh; discriminate|].
      rewrite E in Hh. exact Hh.
    + intros P HP. apply Hp in HP. rewrite E, forallb_app in HP.
      apply andb_true_iff in HP. tauto.
  - split; [|split; [exact Hn | exact Hp]].
    right. destruct Hh as [Hh|Hh]; [rewrite E in Hh; now destruct (rev t')|].
    split; [exact Hh|]. rewrite E, last_last. now apply Z.eqb_neq.
Qed.

Lemma strip_ends_fixed sep s : clean_ends sep s -> strip_ends sep s = s.
Proof.
  intros [->|[Hh Hl]]; [reflexivity|]. unfold strip_ends.
  destruct s as [|c t]; [reflexivity|]. cbn [hd] in Hh.
  apply Z.eqb_neq in Hh. rewrite Hh.
  destruct (rev (c :: t)) as [|z w] eqn:R; [reflexivity|].
  assert (E : c :: t = rev w ++ [z])
    by (rewrite <- (rev_involutive (c :: t)), R; reflexivity).
  rewrite E, last_last in Hl. apply Z.eqb_neq in Hl. now rewrite Hl.
Qed.

(** ** The characters and the ends of a slug *)

Lemma literal_separator_unit separator sep :
  literal_separator separator = Some sep ->
  separator = [sep] /\ class_separator separator = Some (Z.eqb sep).
Proof.
  unfold literal_separator, class_separator.
  destruct separator as [|c [|]]; try discriminate.
  destruct (between 0 127 c) eqn:B; [|discriminate]. cbn [andb].
  destruct (regexp_syntax_char c) eqn:R; [discriminate|]. cbn [negb].
  intros [= ->]. split; [reflexivity|].
  replace ((sep =? 92) || (sep =? 93)) with false; [reflexivity|].
  symmetry. apply orb_false_iff.
  unfold regexp_syntax_char in R. cbn [existsb] in R.
  rewrite !orb_false_iff in R. tauto.
Qed.

Lemma forallb_removelast (P : Z -> bool) s :
  forallb P s = true -> forallb P (removelast s) = true.
Proof.
  induction s as [|c t IH]; [reflexivity|]. cbn [forallb removelast].
  rewrite andb_true_iff. intros [Hc Ht]. destruct t; [reflexivity|].
  cbn [forallb]. rewrite Hc. now apply IH.
Qed.

Lemma forallb_last (P : Z -> bool) s :
  s <> [] -> forallb P s = true -> P (last s 0) = true.
Proof.
  induction s as [|c t IH]; [congruence|]. intros _. cbn [forallb last].
  rewrite andb_true_iff. intros [Hc Ht]. destruct t; [exact Hc|].
  apply IH; [discriminate | exact Ht].
Qed.

Lemma isValidSlug_intro separator sep r :
  literal_separator separator = Some sep ->
  r <> [] ->
  forallb (fun c => is_lower c || is_digit c || (c =? sep)) r = true ->
  hd 0 r <> sep -> last r 0 <> sep ->
  isValidSlug r (Some {| ValidSlugOptions.separator := Some separator |})
  = Some true.
Proof.
  intros L N A Hh Hl. destruct (literal_separator_unit _ _ L) as [-> C].
  unfold isValidSlug. destruct r as [|c rest]; [congruence|].
  cbn [falsy]. cbv zeta. rewrite C. f_equal.
  assert (unit_of : forall x, is_lower x || is_digit x || (x =? sep) = true ->
                              x <> sep -> is_lower x || is_digit x = true).
  { intros x H X. apply orb_true_iff in H. destruct H as [H|H]; [exact H|].
    apply Z.eqb_eq in H. congruence. }
  pose proof (forallb_last _ _ N A) as Al. cbv beta in Al.
  cbn [forallb] in A. apply andb_true_iff in A. destruct A as [Ac Ar].
  cbn [hd] in Hh. destruct rest as [|x rest']; [now apply unit_of|].
  rewrite (unit_of c Ac Hh). cbn [andb].
  change (last (c :: x :: rest') 0) with (last (x :: rest') 0) in *.
  rewrite (unit_of _ Al Hl), andb_true_r.
  apply forallb_removelast.
  erewrite forallb_pointwise; [exact Ar|]. intros y. cbv beta.
  now rewrite (Z.eqb_sym sep y).
Qed.

Lemma forallb_filter_both (P Q R : Z -> bool) s :
  (forall c, P c = true -> Q c = true -> R c = true) ->
  forallb P s = true -> forallb R (filter Q s) = true.
Proof.
  intros H. induction s as [|c t IH]; [reflexivity|].
  cbn [forallb filter]. rewrite andb_true_iff. intros [Hc Ht].
  destruct (Q c) eqn:Qc; [|now apply IH].
  cbn [forallb]. now rewrite (H c Hc Qc), IH.
Qed.

Lemma forallb_squeeze (P : Z -> bool) b sep s :
  forallb P s = true -> forallb P (squeeze_from b sep s) = true.
Proof.
  revert b; induction s as [|c t IH]; intros b; [reflexivity|].
  cbn [forallb squeeze_from]. rewrite andb_true_iff. intros [Hc Ht].
  destruct (c =? sep) eqn:C.
  - apply Z.eqb_eq in C. subst c. rewrite forallb_app, IH by exact Ht.
    destruct b; cbn; now rewrite ?Hc.
  - cbn [forallb]. now rewrite Hc, IH.
Qed.

Lemma not_upper_unit c sep :
  negb (is_upper c) || (c =? sep) = true ->
  is_alnum c || (c =? sep) = true ->
  is_lower c || is_digit c || (c =? sep) = true.
Proof.
  destruct (c =? sep); [now rewrite !orb_true_r|]. rewrite !orb_false_r.
  unfold is_alnum, is_letter. destruct (is_upper c), (is_lower c), (is_digit c);
    cbn; congruence.
Qed.

(** What the last steps of [slugifyLatin] and [sanitizeSlug] make of a text
    whose capitals, if any, are separators. *)
Lemma slug_tail_shape sep s :
  forallb (fun c => negb (is_upper c) || (c =? sep)) s = true ->
  let r := strip_ends sep
             (squeeze_from false sep
                (filter (fun c => is_alnum c || (c =? sep)) s)) in
  forallb (fun c => is_lower c || is_digit c || (c =? sep)) r = true
  /\ sep_normal false sep r = true /\ clean_ends sep r.
Proof.
  intros H. cbv zeta.
  set (q := squeeze_from false sep (filter (fun c => is_alnum c || (c =? sep)) s)).
  assert (Q : forallb (fun c => is_lower c || is_digit c || (c =? sep)) q = true).
  { apply forallb_squeeze.
    apply (forallb_filter_both (fun c => negb (is_upper c) || (c =? sep)));
      [intros c; apply not_upper_unit | exact H]. }
  destruct (strip_ends_clean sep q (squeeze_normal false sep _)) as (C & N & P).
  split; [now apply P | split; assumption].
Qed.

(** ** The truncation keeps the ends clean *)

Lemma occurs_at_unit sep s k :
  occurs_at [sep] s k -> s = firstn k s ++ sep :: skipn (S k) s.
Proof.
  unfold occurs_at. cbn [length]. intros [B E].
  rewrite <- (firstn_skipn k s) at 1. f_equal.
  destruct (skipn k s) as [|x r] eqn:Sk; [discriminate|].
  cbn [firstn] in E. injection E as ->.
  change (S k) with (1 + k)%nat. rewrite <- skipn_skipn, Sk. reflexivity.
Qed.

Lemma occurs_at_last sep s :
  s <> [] -> last s 0 = sep -> occurs_at [sep] s (length s - 1).
Proof.
  intros N L. destruct (exists_last N) as (u & z & E). subst s.
  rewrite last_last in L. subst z. unfold occurs_at.
  rewrite length_app. cbn [length]. split; [lia|].
  replace (length u + 1 - 1)%nat with (length u) by lia.
  rewrite skipn_app, skipn_all, Nat.sub_diag. reflexivity.
Qed.

Lemma forallb_firstn (P : Z -> bool) n s :
  forallb P s = true -> forallb P (firstn n s) = true.
Proof.
  revert n; induction s as [|c t IH]; intros n; [now destruct n|].
  destruct n; [reflexivity|]. cbn [forallb firstn].
  rewrite !andb_true_iff. intros [Hc Ht]. split; [exact Hc | now apply IH].
Qed.

Lemma sep_normal_firstn sep n s :
  sep_normal false sep s = true -> sep_normal false sep (firstn n s) = true.
Proof.
  intros H. rewrite <- (firstn_skipn n s) in H.
  now apply sep_normal_app in H.
Qed.

Lemma hd_firstn n (s : str) : (0 < n)%nat -> hd 0 (firstn n s) = hd 0 s.
Proof. destruct n; [lia|]. now destruct s. Qed.

Lemma slug_truncate_clean s options sep :
  RequiredSlugOptions.separator options = [sep] ->
  1 <= RequiredSlugOptions.maxLength options ->
  double_gt (double_of_Z (RequiredSlugOptions.maxLength options - 1))
            (double_mul (double_of_Z (RequiredSlugOptions.maxLength options))
                        double_0_7) = true ->
  sep_normal false sep s = true -> clean_ends sep s ->
  clean_ends sep (slug_truncate s options)
  /\ sep_normal false sep (slug_truncate s options) = true
  /\ (forall P : Z -> bool, forallb P s = true ->
                            forallb P (slug_truncate s options) = true).
Proof.
  intros Es M T N C. unfold slug_truncate. cbv zeta. rewrite Es.
  set (m := RequiredSlugOptions.maxLength options) in *.
  destruct (len s >? m) eqn:G; [|split; [exact C | split; [exact N | auto]]].
  apply Z.gtb_lt in G. unfold len in G. unfold substring0.
  set (n := Z.to_nat m). assert (Hn : (1 <= n < length s)%nat) by lia.
  set (cut := firstn n s).
  assert (Lc : length cut = n) by (subst cut; rewrite length_firstn; lia).
  assert (Nc : sep_normal false sep cut = true) by now apply sep_normal_firstn.
  destruct C as [C|[Hh Hl]]; [subst s; cbn in Hn; lia|].
  assert (Hc : hd 0 cut <> sep) by (subst cut; rewrite hd_firstn by lia; exact Hh).
  assert (Pc : forall P : Z -> bool, forallb P s = true -> forallb P cut = true)
    by (intros P HP; now apply forallb_firstn).
  assert (cut_ne : cut <> []) by (intros E; rewrite E in Lc; cbn in Lc; lia).
  destruct (lastIndexOf_spec cut [sep]) as [[E No]|(k & E & Occ & Last)]; rewrite E.
  - rewrite minus_one_not_greater
      by (apply double_mul_0_7_sign, double_of_Z_sign; lia).
    split; [|split; [exact Nc | exact Pc]].
    right. split; [exact Hc|]. intros L.
    exact (No _ (occurs_at_last sep cut cut_ne L)).
  - destruct (double_gt (double_of_Z (Z.of_nat k)) _) eqn:D.
    + rewrite Nat2Z.id.
      pose proof (occurs_at_unit _ _ _ Occ) as Ec.
      assert (K : (0 < k)%nat).
      { destruct k; [|lia]. exfalso. apply Hc. rewrite Ec. reflexivity. }
      split; [|split; [now apply sep_normal_firstn
                      | intros P HP; now apply forallb_firstn, Pc]].
      right. split; [now rewrite hd_firstn by lia|].
      rewrite Ec in Nc.
      change (sep :: skipn (S k) cut) with ([sep] ++ skipn (S k) cut) in Nc.
      rewrite app_assoc in Nc. apply sep_normal_app in Nc. destruct Nc as [Nc _].
      apply sep_normal_snoc in Nc. destruct Nc as [Nc|Nc]; [|exact Nc].
      exfalso. apply (f_equal (@length Z)) in Nc. rewrite length_firstn in Nc.
      destruct Occ as [B _]. cbn [length] in *. lia.
    + split; [|split; [exact Nc | exact Pc]].
      right. split; [exact Hc|]. intros L.
      pose proof (occurs_at_last sep cut cut_ne L) as O.
      apply Last in O. destruct Occ as [B _]. cbn [length] in B.
      assert (k = (n - 1)%nat) by lia. subst k.
      replace (Z.of_nat (n - 1)) with (m - 1) in D by lia. congruence.
Qed.

Lemma isValidSlug_same_separator slug options :
  isValidSlug slug (same_separator options)
  = isValidSlug slug
      (Some {| ValidSlugOptions.separator :=
                 Some (RequiredSlugOptions.separator
                         (spread_options DEFAULT_OPTIONS options)) |}).
Proof. destruct options as [[m [s|] l t]|]; reflexivity. Qed.

Lemma forallb_impl (P Q : Z -> bool) s :
  (forall c, P c = true -> Q c = true) ->
  forallb P s = true -> forallb Q s = true.
Proof.
  intros H. rewrite !forallb_forall. intros A c Hc. now apply H, A.
Qed.

Lemma filter_fixed (Q : Z -> bool) s : forallb Q s = true -> filter Q s = s.
Proof.
  induction s as [|c t IH]; [reflexivity|]. cbn [forallb filter].
  rewrite andb_true_iff. intros [-> Ht]. now rewrite IH.
Qed.

Lemma forallb_filter (P Q : Z -> bool) s :
  forallb P s = true -> forallb P (filter Q s) = true.
Proof.
  intros H. rewrite forallb_forall in *. intros c Hc.
  apply filter_In in Hc. now apply H.
Qed.

Lemma forallb_filter_self (Q : Z -> bool) s : forallb Q (filter Q s) = true.
Proof.
  apply forallb_forall. intros c Hc. now apply filter_In in Hc.
Qed.

Lemma lower_latin1_fixed s :
  forallb (fun c => negb (is_upper c) && between 0 0x7F c) s = true ->
  map lower_latin1 s = s.
Proof.
  induction s as [|c t IH]; [reflexivity|]. cbn [forallb map].
  rewrite !andb_true_iff, negb_true_iff. intros [[Hu Hb] Ht].
  rewrite IH by exact Ht. f_equal. unfold lower_latin1. rewrite Hu.
  replace (between 192 222 c) with false; [reflexivity|].
  symmetry. unfold between in *. unbool. lia.
Qed.

Lemma slug_char_ascii sep c :
  between 0 0x7F sep = true -> is_alnum c || (c =? sep) = true ->
  between 0 0x7F c = true.
Proof.
  intros S. rewrite orb_true_iff, Z.eqb_eq. intros [A| ->]; [|exact S].
  unclass. unbool. lia.
Qed.

Lemma literal_separator_ascii separator sep :
  literal_separator separator = Some sep -> between 0 0x7F sep = true.
Proof.
  unfold literal_separator. destruct separator as [|c [|]]; try discriminate.
  destruct (between 0 127 c) eqn:B; [|discriminate].
  destruct (negb (regexp_syntax_char c)); [|discriminate]. now intros [= <-].
Qed.

Section SlugValidity.
Context {U : Unicode}.

(** Lower casing leaves no capital of the ASCII alphabet: a fact of the
    platform that the laws of [Unicode] do not include. *)
Hypothesis toLowerCase_no_capital :
  forall s, forallb (fun c => negb (is_upper c)) (toLowerCase s) = true.

Lemma generateSlug_shape (text : str) (options : option SlugOptions.t)
  (sep : Z) :
  let opts := spread_options DEFAULT_OPTIONS options in
  let maxLength := RequiredSlugOptions.maxLength opts in
  literal_separator (RequiredSlugOptions.separator opts) = Some sep ->
  RequiredSlugOptions.lowercase opts = true ->
  RequiredSlugOptions.trim opts = true ->
  1 <= maxLength ->
  double_gt (double_of_Z (maxLength - 1))
            (double_mul (double_of_Z maxLength) double_0_7) = true ->
  exists slug,
    generateSlug text options = Some slug
    /\ forallb (fun c => is_lower c || is_digit c || (c =? sep)) slug = true
    /\ sep_normal false sep slug = true /\ clean_ends sep slug.
Proof.
  intros opts maxLength L Lc Tr M T. unfold generateSlug.
  destruct (falsy text);
    [exists []; split; [reflexivity | split; [reflexivity | split; [reflexivity | now left]]]|].
  cbv zeta. fold opts. unfold slugifyLatin. rewrite L.
  eexists. split; [reflexivity|].
  destruct (literal_separator_unit _ _ L) as [Es _].
  unfold slug_filter. cbv zeta. rewrite Lc, Tr.
  set (s := replace_ws_runs [sep] _).
  assert (S : forallb (fun c => negb (is_upper c) || (c =? sep)) s = true).
  { subst s. apply forallb_replace_ws.
    - cbn [forallb]. now rewrite Z.eqb_refl, orb_true_r.
    - eapply forallb_impl; [|apply toLowerCase_no_capital].
      intros c ->. reflexivity. }
  destruct (slug_tail_shape sep s S) as (A & N & C). cbv zeta in A, N, C.
  set (f := strip_ends sep _) in *.
  destruct (slug_truncate_clean f opts sep Es M T N C) as (C' & N' & P).
  split; [now apply P | split; assumption].
Qed.

Lemma valid_of_shape separator sep slug :
  literal_separator separator = Some sep ->
  forallb (fun c => is_lower c || is_digit c || (c =? sep)) slug = true ->
  clean_ends sep slug ->
  slug = []
  \/ isValidSlug slug (Some {| ValidSlugOptions.separator := Some separator |})
     = Some true.
Proof.
  intros L A C. destruct slug as [|c r]; [now left|]. right.
  destruct C as [E|[Hh Hl]]; [discriminate|].
  apply (isValidSlug_intro _ sep); (assumption || discriminate).
Qed.

(** A slug made by [generateSlug] is empty or accepted by [isValidSlug]
    called with the same separator, for options that lower-case and trim,
    with a separator of one ordinary ASCII character and a [maxLength] that
    is an integer, at least 1, for which [maxLength - 1 > maxLength * 0.7]
    holds in double precision (as it does for the default 100; for 1, 2 and
    3 it does not, and the cut can then end in a separator). *)
Theorem generateSlug_valid (text : str) (options : option SlugOptions.t)
  (sep : Z) :
  let opts := spread_options DEFAULT_OPTIONS options in
  let maxLength := RequiredSlugOptions.maxLength opts in
  literal_separator (RequiredSlugOptions.separator opts) = Some sep ->
  RequiredSlugOptions.lowercase opts = true ->
  RequiredSlugOptions.trim opts = true ->
  1 <= maxLength ->
  double_gt (double_of_Z (maxLength - 1))
            (double_mul (double_of_Z maxLength) double_0_7) = true ->
  exists slug,
    generateSlug text options = Some slug
    /\ (slug = [] \/ isValidSlug slug (same_separator options) = Some true).
Proof.
  intros opts maxLength L Lc Tr M T.
  destruct (generateSlug_shape text options sep L Lc Tr M T)
    as (slug & E & A & _ & C).
  exists slug. split; [exact E|]. rewrite isValidSlug_same_separator.
  now apply (valid_of_shape _ sep).
Qed.

(** The steps of [sanitizeSlug] after the lower casing. *)
Lemma sanitizeSlug_steps slug options sep :
  let opts := spread_options DEFAULT_OPTIONS options in
  literal_separator (RequiredSlugOptions.separator opts) = Some sep ->
  sanitizeSlug slug options
  = Some (if falsy slug then []
          else
            let lowered := if RequiredSlugOptions.lowercase opts
                           then toLowerCase slug else slug in
            let squeezed :=
              squeeze_from false sep
                (filter (fun c => is_alnum c || (c =? sep)) lowered) in
            if RequiredSlugOptions.trim opts then strip_ends sep squeezed
            else squeezed).
Proof.
  intros opts L. unfold sanitizeSlug. destruct (falsy slug); [reflexivity|].
  cbv zeta. fold opts. now rewrite L.
Qed.

(** A slug cleaned by [sanitizeSlug] is empty or accepted by [isValidSlug]
    called with the same separator, for options that lower-case and trim and
    a separator of one ordinary ASCII character. *)
Theorem sanitizeSlug_valid (slug : str) (options : option SlugOptions.t)
  (sep : Z) :
  let opts := spread_options DEFAULT_OPTIONS options in
  literal_separator (RequiredSlugOptions.separator opts) = Some sep ->
  RequiredSlugOptions.lowercase opts = true ->
  RequiredSlugOptions.trim opts = true ->
  exists r,
    sanitizeSlug slug options = Some r
    /\ (r = [] \/ isValidSlug r (same_separator options) = Some true).
Proof.
  intros opts L Lc Tr. rewrite (sanitizeSlug_steps slug options sep L).
  fold opts. rewrite Lc, Tr. eexists. split; [reflexivity|].
  destruct (falsy slug); [now left|]. cbv zeta.
  assert (S : forallb (fun c => negb (is_upper c) || (c =? sep))
                      (toLowerCase slug) = true).
  { eapply forallb_impl; [|apply toLowerCase_no_capital]. intros c ->. reflexivity. }
  destruct (slug_tail_shape sep _ S) as (A & _ & C). cbv zeta in A, C.
  rewrite isValidSlug_same_separator. now apply (valid_of_shape _ sep).
Qed.

Lemma sanitizeSlug_fixed (slug : str) (options : option SlugOptions.t)
  (r : str) :
  sanitizeSlug slug options = Some r -> sanitizeSlug r options = Some r.
Proof.
  set (opts := spread_options DEFAULT_OPTIONS options).
  destruct (literal_separator (RequiredSlugOptions.separator opts)) as [sep|] eqn:L.
  2:{ unfold sanitizeSlug. fold opts. rewrite L.
      destruct (falsy slug); [intros [= <-]; reflexivity | discriminate]. }
  rewrite !(sanitizeSlug_steps _ options sep L). fold opts.
  intros [= E]. f_equal. destruct (falsy slug); [now subst r|].
  cbv zeta in *.
  set (lowered := if RequiredSlugOptions.lowercase opts then toLowerCase slug
                  else slug) in *.
  set (q := squeeze_from false sep
              (filter (fun c => is_alnum c || (c =? sep)) lowered)) in *.
  assert (Qa : forallb (fun c => is_alnum c || (c =? sep)) q = true)
    by apply forallb_squeeze, forallb_filter_self.
  assert (Qu : RequiredSlugOptions.lowercase opts = true ->
               forallb (fun c => negb (is_upper c)) q = true).
  { intros Lc. subst q lowered. rewrite Lc.
    apply forallb_squeeze, forallb_filter, toLowerCase_no_capital. }
  pose proof (squeeze_normal false sep
                (filter (fun c => is_alnum c || (c =? sep)) lowered)) as Qn.
  fold q in Qn.
  destruct (strip_ends_clean sep q Qn) as (Sc & Sn & Sp).
  assert (Ra : forallb (fun c => is_alnum c || (c =? sep)) r = true)
    by (subst r; destruct (RequiredSlugOptions.trim opts); auto).
  assert (Ru : RequiredSlugOptions.lowercase opts = true ->
               forallb (fun c => negb (is_upper c)) r = true)
    by (intros Lc; subst r; destruct (RequiredSlugOptions.trim opts); auto).
  assert (Rn : sep_normal false sep r = true)
    by (subst r; destruct (RequiredSlugOptions.trim opts); auto).
  assert (Rc : RequiredSlugOptions.trim opts = true -> clean_ends sep r)
    by (intros Tr; subst r; now rewrite Tr).
  clear E. destruct (falsy r) eqn:F; [now destruct r|].
  assert (Lr : (if RequiredSlugOptions.lowercase opts then toLowerCase r else r) = r).
  { destruct (RequiredSlugOptions.lowercase opts) eqn:Lc; [|reflexivity].
    pose proof (literal_separator_ascii _ _ L) as As.
    rewrite toLowerCase_latin1.
    - apply lower_latin1_fixed. specialize (Ru eq_refl).
      rewrite forallb_forall in *. intros c Hc.
      rewrite (Ru c Hc). apply (slug_char_ascii sep c As), Ra, Hc.
    - rewrite forallb_forall in *. intros c Hc.
      pose proof (slug_char_ascii sep c As (Ra c Hc)) as B.
      unfold between in *. unbool. lia. }
  rewrite Lr, filter_fixed, sep_normal_fixed by assumption.
  destruct (RequiredSlugOptions.trim opts); [|reflexivity].
  now apply strip_ends_fixed, Rc.
Qed.

(** [sanitizeSlug] is idempotent, for every options value whose separator
    in force is one ASCII character that is no syntax character of a
    pattern, whatever the flags and [maxLength]: it returns a slug, and it
    returns that slug unchanged. *)
Theorem sanitizeSlug_idempotent (slug : str) (options : option SlugOptions.t)
  (sep : Z) :
  let opts := spread_options DEFAULT_OPTIONS options in
  literal_separator (RequiredSlugOptions.separator opts) = Some sep ->
  exists r,
    sanitizeSlug slug options = Some r /\ sanitizeSlug r options = Some r.
Proof.
  intros opts L.
  pose proof (sanitizeSlug_steps slug options sep L) as E.
  eexists. split; [exact E|]. exact (sanitizeSlug_fixed _ _ _ E).
Qed.

(** [sanitizeSlug] returns a slug made by [generateSlug] unchanged, under
    the same options, when these lower-case and trim, the separator is one
    ordinary ASCII character that is no capital letter, and [maxLength] is
    as for the validity of the slug: an integer, at least 1, for which
    [maxLength - 1 > maxLength * 0.7] holds in double precision. *)
Theorem sanitizeSlug_generateSlug (text : str) (options : option SlugOptions.t)
  (sep : Z) :
  let opts := spread_options DEFAULT_OPTIONS options in
  let maxLength := RequiredSlugOptions.maxLength opts in
  literal_separator (RequiredSlugOptions.separator opts) = Some sep ->
  is_upper sep = false ->
  RequiredSlugOptions.lowercase opts = true ->
  RequiredSlugOptions.trim opts = true ->
  1 <= maxLength ->
  double_gt (double_of_Z (maxLength - 1))
            (double_mul (double_of_Z maxLength) double_0_7) = true ->
  exists slug,
    generateSlug text options = Some slug
    /\ sanitizeSlug slug options = Some slug.
Proof.
  intros opts maxLength L Us Lc Tr M T.
  destruct (generateSlug_shape text options sep L Lc Tr M T)
    as (slug & E & A & N & C).
  exists slug. split; [exact E|].
  rewrite (sanitizeSlug_steps slug options sep L). fold opts.
  rewrite Lc, Tr. f_equal. destruct (falsy slug) eqn:F; [now destruct slug|].
  cbv zeta. pose proof (literal_separator_ascii _ _ L) as As.
  assert (Au : forallb (fun c => negb (is_upper c) && between 0 0x7F c) slug = true).
  { eapply forallb_impl; [|exact A]. intros c H. cbv beta in *.
    apply orb_true_iff in H. destruct H as [H|H].
    - clear -H. unclass. unbool. lia.
    - apply Z.eqb_eq in H. subst c. now rewrite Us, As. }
  rewrite toLowerCase_latin1.
  2:{ eapply forallb_impl; [|exact Au]. intros c H. cbv beta in *.
      apply andb_true_iff in H. destruct H as [_ H].
      unfold between in *. unbool. lia. }
  rewrite lower_latin1_fixed by exact Au.
  rewrite filter_fixed.
  - rewrite sep_normal_fixed by exact N. now apply strip_ends_fixed.
  - eapply forallb_impl; [|exact A]. intros c H. cbv beta in *.
    unfold is_alnum, is_letter.
    destruct (is_lower c), (is_digit c), (c =? sep), (is_upper c); cbn in *; congruence.
Qed.

End SlugValidity.

(** The small Unicode instance leaves no capital. *)
Lemma reference_no_capital s :
  forallb (fun c => negb (is_upper c)) (toLowerCase (Unicode := reference) s)
  = true.
Proof.
  change (toLowerCase (Unicode := reference) s) with (map lower_latin1 s).
  induction s as [|c t IH]; [reflexivity|]. cbn [map forallb]. rewrite IH.
  rewrite andb_true_r. unfold lower_latin1.
  destruct (is_upper c || between 192 222 c && negb (c =? 215)) eqn:E;
    cbv iota.
  - clear IH. unclass. unbool. lia.
  - apply orb_false_iff in E. destruct E as [-> _]. reflexivity.
Qed.

(** The theorem at a title of the README, with the default options. *)
Lemma generateSlug_valid_witness :
  1 <= 100
  /\ double_gt (double_of_Z (100 - 1)) (double_mul (double_of_Z 100) double_0_7)
     = true
  /\ exists slug,
       generateSlug (U := reference) (utf16 "The Story of Nozugum") None
       = Some slug
       /\ (slug = [] \/ isValidSlug slug (same_separator None) = Some true).
Proof.
  split; [lia | split; [vm_compute; reflexivity|]].
  apply (generateSlug_valid (U := reference) reference_no_capital
           (utf16 "The Story of Nozugum") None 0x2D);
    [reflexivity | reflexivity | reflexivity | cbv; discriminate
    | vm_compute; reflexivity].
Defined.

(** The theorem at a slug with capitals, doubled separators and other
    characters. *)
Lemma sanitizeSlug_valid_witness :
  exists r,
    sanitizeSlug (U := reference) (utf16 "--Hello__World--!!") None = Some r
    /\ (r = [] \/ isValidSlug r (same_separator None) = Some true).
Proof.
  apply (sanitizeSlug_valid (U := reference) reference_no_capital
           (utf16 "--Hello__World--!!") None 0x2D); reflexivity.
Defined.

(** The theorem at a slug with doubled separators and other characters,
    for the underscore as separator and both flags off. *)
Lemma sanitizeSlug_idempotent_witness :
  literal_separator [0x5F] = Some 0x5F
  /\ exists r,
       sanitizeSlug (U := reference) (utf16 "__Hello__World!!__")
         (Some {| SlugOptions.maxLength := None;
                  SlugOptions.separator := Some [0x5F];
                  SlugOptions.lowercase := Some false;
                  SlugOptions.trim := Some false |}) = Some r
       /\ sanitizeSlug (U := reference) r
            (Some {| SlugOptions.maxLength := None;
                     SlugOptions.separator := Some [0x5F];
                     SlugOptions.lowercase := Some false;
                     SlugOptions.trim := Some false |}) = Some r.
Proof.
  split; [reflexivity|].
  apply (sanitizeSlug_idempotent (U := reference) reference_no_capital
           (utf16 "__Hello__World!!__")
           (Some {| SlugOptions.maxLength := None;
                    SlugOptions.separator := Some [0x5F];
                    SlugOptions.lowercase := Some false;
                    SlugOptions.trim := Some false |}) 0x5F).
  reflexivity.
Defined.

(** The theorem at a title of the README, with the default options. *)
Lemma sanitizeSlug_generateSlug_witness :
  is_upper 0x2D = false
  /\ exists slug,
       generateSlug (U := reference) (utf16 "The Story of Nozugum") None
       = Some slug
       /\ sanitizeSlug (U := reference) slug None = Some slug.
Proof.
  split; [reflexivity|].
  apply (sanitizeSlug_generateSlug (U := reference) reference_no_capital
           (utf16 "The Story of Nozugum") None 0x2D);
    [reflexivity | reflexivity | reflexivity | reflexivity | cbv; discriminate
    | vm_compute; reflexivity].
Defined.

(* ================================================================== *)
(** * transliterate.ts: the round trip from Latin script *)
(* ================================================================== *)

(** ** Trimming before whitespace normalization changes nothing *)

Lemma trimStart_replace_ws b x :
  trimStart (replace_ws_from b [0x20] x)
  = replace_ws_from false [0x20] (trimStart x).
Proof.
  revert b; induction x as [|c t IH]; intros b; [reflexivity|].
  cbn [replace_ws_from trimStart]. destruct (is_ws c) eqn:C.
  - destruct b; cbn [app trimStart]; [apply IH|].
    change (is_ws 32) with true. cbv iota. apply IH.
  - cbn [trimStart replace_ws_from]. now rewrite C.
Qed.

Lemma trimEnd_app_ws pre x :
  forallb is_ws pre = true ->
  trimEnd (pre ++ x) = match trimEnd x with [] => [] | _ => pre ++ trimEnd x end.
Proof.
  induction pre as [|c p IH]; intros W.
  - cbn [app]. now destruct (trimEnd x).
  - cbn [forallb] in W. apply andb_true_iff in W. destruct W as [Wc Wp].
    cbn [app trimEnd]. rewrite IH by exact Wp.
    destruct (trimEnd x) as [|y r]; [now rewrite Wc|].
    now destruct p.
Qed.

Lemma replace_ws_all_ws b x :
  forallb is_ws x = true -> forallb is_ws (replace_ws_from b [0x20] x) = true.
Proof. intros W. now apply forallb_replace_ws. Qed.

Lemma trimEnd_replace_ws b x :
  trimEnd (replace_ws_from b [0x20] x)
  = trimEnd (replace_ws_from b [0x20] (trimEnd x)).
Proof.
  revert b; induction x as [|c t IH]; intros b; [reflexivity|].
  cbn [trimEnd]. destruct (trimEnd t) as [|y r] eqn:T.
  - assert (Wt : forallb is_ws t = true) by now apply trimEnd_nil_iff.
    assert (E : forall b', trimEnd (replace_ws_from b' [0x20] t) = []).
    { intros b'. now apply trimEnd_nil_iff, replace_ws_all_ws. }
    cbn [replace_ws_from]. destruct (is_ws c) eqn:C.
    + rewrite trimEnd_app_ws by (destruct b; reflexivity). now rewrite E.
    + rewrite trimEnd_cons_word, E by exact C.
      cbn [replace_ws_from]. rewrite C. cbn [trimEnd]. now rewrite C.
  - cbn [replace_ws_from]. destruct (is_ws c) eqn:C.
    + rewrite !trimEnd_app_ws by (destruct b; reflexivity). now rewrite IH.
    + rewrite !trimEnd_cons_word by exact C. now rewrite IH.
Qed.

Lemma normalize_whitespace_trim x :
  normalize_whitespace (trim x) = normalize_whitespace x.
Proof.
  unfold normalize_whitespace, replace_ws_runs, trim.
  rewrite (trimStart_replace_ws false (trimEnd (trimStart x))).
  rewrite (trimStart_fixed (trimEnd (trimStart x)))
    by apply trimEnd_no_lead, trimStart_no_lead.
  rewrite <- trimEnd_replace_ws. now rewrite trimStart_replace_ws.
Qed.

Lemma uly_char_units c : uly_char c = true -> In c uly_units.
Proof.
  unfold uly_char, uly_units. rewrite !in_app_iff, !orb_true_iff.
  intros [[[H|H]|H]|H].
  - right; left. unfold uly_letter in H.
    destruct (get LATIN_TO_UYGHUR_ARABIC [c]) as [v|] eqn:G; [|discriminate].
    apply get_entry in G. apply in_map_iff. now exists ([c], v).
  - apply Z.eqb_eq in H. subst c. left. right; left; reflexivity.
  - right; right; left.
    unfold is_digit, between in H. unbool. cbn [In]. lia.
  - right; right; right.
    unfold is_punct in H. unbool. cbn [In]. lia.
Qed.

Lemma uly_text_head a rest :
  uly_text (a :: rest) = true ->
  In a uly_units /\ uly_text rest = true
  /\ (a = 0x63 -> exists r, rest = 0x68 :: r).
Proof.
  cbn [uly_text]. rewrite andb_true_iff, orb_true_iff. intros [H R].
  split; [|split; [exact R|]].
  - destruct H as [H|H]; [now apply uly_char_units|].
    apply andb_true_iff in H. destruct H as [H _]. apply Z.eqb_eq in H.
    subst a. unfold uly_units. apply in_app_iff. left. left; reflexivity.
  - intros ->. destruct H as [H|H]; [discriminate|].
    apply andb_true_iff in H. destruct H as [_ H].
    destruct rest as [|b r]; [discriminate|]. apply Z.eqb_eq in H. subst b.
    now exists r.
Qed.

Lemma reads_back_units a b :
  In a uly_units -> In b uly_units -> (a = 0x63 -> b = 0x68) ->
  reads_back a b = true.
Proof.
  assert (H : forallb (fun a => forallb (fun b =>
                implb (negb (a =? 0x63) || (b =? 0x68)) (reads_back a b))
                uly_units) uly_units = true) by (vm_compute; reflexivity).
  rewrite forallb_forall in H. intros Ha Hb C.
  specialize (H a Ha). rewrite forallb_forall in H. specialize (H b Hb).
  destruct (a =? 0x63) eqn:A.
  - apply Z.eqb_eq in A. rewrite (C A) in *. exact H.
  - exact H.
Qed.

Lemma reads_back_last a :
  In a uly_units -> a <> 0x63 ->
  flat_map uly_of (toArabic_loop 0 [a]) = [a].
Proof.
  assert (H : forallb (fun a => (a =? 0x63)
                                || str_eqb (flat_map uly_of (toArabic_loop 0 [a])) [a])
                uly_units = true) by (vm_compute; reflexivity).
  rewrite forallb_forall in H. intros Ha C. specialize (H a Ha).
  apply Z.eqb_neq in C. rewrite C in H. now apply str_eqb_eq.
Qed.

Lemma toArabic_loop_reads_back t :
  uly_text t = true -> flat_map uly_of (toArabic_loop 0 t) = t.
Proof.
  pattern t; apply str_pair_ind; clear t; [reflexivity | |].
  - intros a H. apply uly_text_head in H. destruct H as (Ha & _ & C).
    apply reads_back_last; [exact Ha|]. intros E. destruct (C E). discriminate.
  - intros a b t IHt IHb H.
    apply uly_text_head in H. destruct H as (Ha & Hb & C).
    pose proof (uly_text_head _ _ Hb) as (Hb' & Ht & _).
    assert (R : reads_back a b = true).
    { apply reads_back_units; [exact Ha | exact Hb'|].
      intros E. destruct (C E) as (r & [= -> _]). reflexivity. }
    unfold reads_back in R. rewrite toArabic_loop_step.
    destruct (match_multi MULTI_CHAR_LATIN [a; b]) as [[mapped n]|].
    + apply andb_true_iff in R. destruct R as [N R].
      apply Nat.eqb_eq in N. subst n. apply str_eqb_eq in R.
      rewrite flat_map_app, R. cbn [Nat.sub toArabic_loop app].
      now rewrite (IHt Ht).
    + apply str_eqb_eq in R. rewrite flat_map_app, R, (IHb Hb). reflexivity.
Qed.

Lemma arabic_alphabet_units c : arabic_alphabet c = true -> In c arabic_units.
Proof.
  unfold arabic_alphabet, arabic_units. rewrite !in_app_iff, !orb_true_iff.
  intros [[[H|H]|H]|H].
  - left. apply core_char_alphabet. unfold core_char. now rewrite H.
  - left. apply core_char_alphabet. unfold core_char. now rewrite H, orb_true_r.
  - right; left. unfold is_digit, between in H. unbool. cbn [In]. lia.
  - right; right. unfold is_punct in H. unbool. cbn [In]. lia.
Qed.

Lemma arabic_alphabet_form c : arabic_alphabet c = true -> word_form c = true.
Proof.
  assert (H : forallb word_form arabic_units = true) by (vm_compute; reflexivity).
  rewrite forallb_forall in H. intros A. now apply H, arabic_alphabet_units.
Qed.

Lemma arabic_form_ws c :
  arabic_alphabet c = true -> is_ws c = true -> uly_of c = [0x20].
Proof.
  intros A W. apply arabic_alphabet_form in A. unfold word_form in A.
  rewrite W in A. now apply str_eqb_eq.
Qed.

Lemma arabic_form_word c :
  arabic_alphabet c = true -> is_ws c = false ->
  uly_of c <> [] /\ forallb (fun x => negb (is_ws x)) (uly_of c) = true.
Proof.
  intros A W. apply arabic_alphabet_form in A. unfold word_form in A.
  rewrite W in A. apply andb_true_iff in A. destruct A as [N F].
  split; [now destruct (uly_of c) | exact F].
Qed.

Lemma uly_text_units t c : uly_text t = true -> In c t -> In c uly_units.
Proof.
  induction t as [|a rest IH]; [intros _ []|]. intros H.
  apply uly_text_head in H. destruct H as (Ha & Hr & _).
  intros [<-|Hc]; [exact Ha | now apply IH].
Qed.

Lemma uly_text_lower t :
  uly_text t = true ->
  forallb (between 0 0xFF) t = true /\ map lower_latin1 t = t.
Proof.
  intros H.
  assert (K : forallb (fun c => between 0 0xFF c && (lower_latin1 c =? c))
                uly_units = true) by (vm_compute; reflexivity).
  rewrite forallb_forall in K.
  assert (A : forall c, In c t -> between 0 0xFF c = true /\ lower_latin1 c = c).
  { intros c Hc. specialize (K c (uly_text_units t c H Hc)).
    apply andb_true_iff in K. destruct K as [K1 K2]. now apply Z.eqb_eq in K2. }
  clear H K. induction t as [|a rest IH]; [split; reflexivity|].
  destruct (A a (or_introl eq_refl)) as [B L].
  destruct IH as [IH1 IH2]; [intros c Hc; apply A; now right|].
  cbn [forallb map]. now rewrite B, L, IH1, IH2.
Qed.

Section LatinRoundTrip.
Context {U : Unicode}.

(** The round trip that starts from Latin script: for a ULY text (its
    lower-case letters, spaces, digits and punctuation, the letter c only in
    ch), [arabicToLatin (latinToArabic t)] is [t] with its whitespace
    normalized. No pair of letters is excluded here. *)
Theorem latin_text_roundtrip (t : str) :
  uly_text t = true ->
  arabicToLatin (latinToArabic t) = normalize_whitespace t.
Proof.
  intros H. unfold arabicToLatin, latinToArabic.
  assert (E : toArabic t = trim (toArabic_loop 0 t)).
  { unfold toArabic. destruct t as [|c r]; [reflexivity|]. cbn [falsy]. cbv zeta.
    destruct (uly_text_lower _ H) as [B L].
    now rewrite (toLowerCase_latin1 _ B), L. }
  rewrite E, toULY_flat_map. unfold trim at 2.
  pose proof (toArabic_loop_alphabet 0 t) as A.
  pose proof (forallb_trimStart _ _ A) as A'.
  rewrite <- (trimEnd_forms uly_of arabic_alphabet arabic_form_ws arabic_form_word)
    by exact A'.
  rewrite <- (trimStart_forms uly_of arabic_alphabet arabic_form_ws arabic_form_word)
    by exact A.
  rewrite (toArabic_loop_reads_back t H).
  exact (normalize_whitespace_trim t).
Qed.

End LatinRoundTrip.

Lemma toULY_alphabet text : forallb uly_alphabet (toULY text) = true.
Proof.
  rewrite toULY_flat_map. apply forallb_trim, forallb_replace_ws; [reflexivity|].
  apply forallb_forall. intros x Hx. apply in_flat_map in Hx.
  destruct Hx as (c & Hc & Hx).
  assert (I : In [c] (chars [c])) by (left; reflexivity).
  pose proof (toULY_step_alphabet [c] [c] I) as A.
  rewrite forallb_forall in A. now apply A.
Qed.

Lemma core_char_not_arabic c :
  core_char c = true -> arabic_class c = false -> c = 0x20.
Proof.
  assert (H : forallb (fun c => arabic_class c || (c =? 0x20)) core_alphabet = true)
    by (vm_compute; reflexivity).
  rewrite forallb_forall in H. intros C A.
  specialize (H c (core_char_alphabet c C)). rewrite A in H. now apply Z.eqb_eq.
Qed.

Lemma toArabic_loop_spaces t :
  forallb (Z.eqb 0x20) t = true -> toArabic_loop 0 t = t.
Proof.
  induction t as [|c r IH]; [reflexivity|]. cbn [forallb].
  rewrite andb_true_iff, Z.eqb_eq. intros [<- H].
  destruct r as [|b r'].
  - reflexivity.
  - rewrite toArabic_loop_step. cbn [forallb] in H.
    apply andb_true_iff in H. destruct H as [Hb Hr]. apply Z.eqb_eq in Hb.
    subst b. change (match_multi MULTI_CHAR_LATIN [32; 32]) with (@None (str * nat)).
    change (toArabic_char 32) with [32]. cbn [app]. f_equal.
    apply IH. cbn [forallb]. now rewrite Hr.
Qed.

Section Involution.
Context {U : Unicode}.

(** [transliterate] applied twice gives a core Arabic-script text without
    ambiguous pairs back, with its whitespace normalized, whatever the
    options. *)
Theorem transliterate_twice (t : str) (o1 o2 : option TransliterateOptions) :
  core_text t = true -> unambiguous t = true ->
  transliterate (transliterate t o1) o2 = normalize_whitespace t.
Proof.
  intros C Un. change (forallb core_char t = true) in C.
  destruct t as [|c0 r0] eqn:Et; [reflexivity|]. rewrite <- Et in *.
  assert (T1 : transliterate t o1
               = if test arabic_class t then toULY t else toArabic t)
    by (rewrite Et; reflexivity).
  rewrite T1. destruct (test arabic_class t) eqn:A.
  - pose proof (roundtrip_when_unambiguous t C Un) as R.
    unfold arabicToLatin, latinToArabic in R.
    unfold transliterate. destruct (falsy (toULY t)) eqn:F.
    + destruct (toULY t) eqn:E; [|discriminate]. rewrite <- R. reflexivity.
    + cbv zeta. pose proof (toULY_alphabet t) as Al.
      apply uly_alphabet_not_arabic in Al.
      rewrite existsb_codepoints in Al by apply bmp_only_arabic_class.
      unfold test. rewrite Al. exact R.
  - assert (Sp : forallb (Z.eqb 0x20) t = true).
    { unfold test in A. rewrite forallb_forall in *. intros c Hc.
      apply Z.eqb_eq. symmetry. apply core_char_not_arabic; [now apply C|].
      destruct (arabic_class c) eqn:Ac; [|reflexivity].
      assert (existsb arabic_class t = true)
        by (apply existsb_exists; now exists c).
      congruence. }
    assert (W : forallb is_ws t = true).
    { eapply forallb_impl; [|exact Sp]. intros c Hc.
      apply Z.eqb_eq in Hc. now subst c. }
    assert (L : forallb (between 0 0xFF) t = true /\ map lower_latin1 t = t).
    { clear -Sp. induction t as [|c r IH]; [split; reflexivity|].
      cbn [forallb] in Sp. apply andb_true_iff in Sp. destruct Sp as [Hc Hr].
      apply Z.eqb_eq in Hc. subst c. destruct (IH Hr) as [I1 I2].
      cbn [forallb map]. rewrite I1, I2. split; reflexivity. }
    destruct L as [L1 L2].
    assert (E : toArabic t = []).
    { unfold toArabic. rewrite Et at 1. cbn [falsy]. cbv zeta.
      rewrite (toLowerCase_latin1 _ L1), L2, toArabic_loop_spaces by exact Sp.
      now apply trim_nil_iff. }
    rewrite E. symmetry. apply trim_nil_iff.
    apply forallb_replace_ws; [reflexivity | exact W].
Qed.

End Involution.

(** The round trip at a ULY text with a digraph, the pair s + h of the other
    direction, and two spaces. *)
Lemma latin_text_roundtrip_witness :
  uly_text (utf16 "sheher  ishash 2024") = true
  /\ arabicToLatin (latinToArabic (U := reference) (utf16 "sheher  ishash 2024"))
     = utf16 "sheher ishash 2024".
Proof.
  split; [reflexivity|].
  apply (latin_text_roundtrip (U := reference) (utf16 "sheher  ishash 2024")).
  reflexivity.
Defined.

(** The theorem at salam dunya. *)
Lemma transliterate_twice_witness :
  core_text salam_dunya = true /\ unambiguous salam_dunya = true
  /\ transliterate (U := reference)
       (transliterate (U := reference) salam_dunya None) None
     = normalize_whitespace salam_dunya.
Proof.
  split; [reflexivity | split; [reflexivity|]].
  apply (transliterate_twice (U := reference) salam_dunya None None);
    reflexivity.
Defined.

(* ================================================================== *)
(** * constants/alphabet.ts: the tables of the alphabet *)
(* ================================================================== *)

Lemma member_In x l : member x l = true <-> In x l.
Proof.
  unfold member. rewrite existsb_exists. split.
  - intros (y & Hy & E). apply str_eqb_eq in E. now subst y.
  - intros H. exists x. split; [exact H | apply str_eqb_refl].
Qed.

Lemma inverted_get t1 t2 k v :
  inverted_in t1 t2 = true -> get t1 k = Some v -> get t2 v = Some k.
Proof.
  unfold inverted_in. rewrite forallb_forall. intros H G.
  apply get_entry in G. specialize (H _ G). cbn [fst snd] in H.
  destruct (get t2 v) as [k'|]; [|discriminate].
  apply str_eqb_eq in H. now subst k'.
Qed.

(** The tables of the alphabet agree: [LATIN_TO_UYGHUR_ARABIC] maps a
    Latin form to a letter exactly when [UYGHUR_ARABIC_TO_LATIN] maps the
    letter to the form; the two alphabet arrays are the keys and the values
    of [UYGHUR_ARABIC_TO_LATIN] in its order; every letter is a vowel or a
    consonant and none is both; and the Latin form of a vowel is in
    [UYGHUR_VOWELS_LATIN]. *)
Theorem alphabet_tables :
  (forall arabic_ latin_,
      get UYGHUR_ARABIC_TO_LATIN arabic_ = Some latin_
      <-> get LATIN_TO_UYGHUR_ARABIC latin_ = Some arabic_)
  /\ map fst UYGHUR_ARABIC_TO_LATIN = UYGHUR_ALPHABET_ARABIC
  /\ map snd UYGHUR_ARABIC_TO_LATIN = UYGHUR_ALPHABET_LATIN
  /\ (forall x, In x UYGHUR_ALPHABET_ARABIC
                <-> In x UYGHUR_VOWELS_ARABIC \/ In x UYGHUR_CONSONANTS_ARABIC)
  /\ (forall x, In x UYGHUR_VOWELS_ARABIC -> ~ In x UYGHUR_CONSONANTS_ARABIC)
  /\ (forall x, In x UYGHUR_VOWELS_ARABIC ->
                exists y, get UYGHUR_ARABIC_TO_LATIN x = Some y
                          /\ In y UYGHUR_VOWELS_LATIN).
Proof.
  split; [|split; [reflexivity | split; [reflexivity | split; [|split]]]].
  - intros a l. split; apply inverted_get; vm_compute; reflexivity.
  - intros x. rewrite <- !member_In, <- orb_true_iff.
    assert (A : forallb (fun y => member y UYGHUR_VOWELS_ARABIC
                                  || member y UYGHUR_CONSONANTS_ARABIC)
                  UYGHUR_ALPHABET_ARABIC = true) by (vm_compute; reflexivity).
    assert (B : forallb (fun y => member y UYGHUR_ALPHABET_ARABIC)
                  (UYGHUR_VOWELS_ARABIC ++ UYGHUR_CONSONANTS_ARABIC) = true)
      by (vm_compute; reflexivity).
    rewrite forallb_forall in A, B. split.
    + intros H. apply member_In in H. now apply A.
    + intros H. apply B. apply in_or_app.
      apply orb_true_iff in H. rewrite !member_In in H. exact H.
  - intros x V C.
    assert (D : forallb (fun y => negb (member y UYGHUR_CONSONANTS_ARABIC))
                  UYGHUR_VOWELS_ARABIC = true) by (vm_compute; reflexivity).
    rewrite forallb_forall in D. specialize (D x V).
    apply member_In in C. rewrite C in D. discriminate.
  - intros x V.
    assert (D : forallb (fun y => match get UYGHUR_ARABIC_TO_LATIN y with
                                  | Some l => member l UYGHUR_VOWELS_LATIN
                                  | None => false
                                  end) UYGHUR_VOWELS_ARABIC = true)
      by (vm_compute; reflexivity).
    rewrite forallb_forall in D. specialize (D x V).
    destruct (get UYGHUR_ARABIC_TO_LATIN x) as [l|]; [|discriminate].
    exists l. split; [reflexivity | now apply member_In].
Qed.

(* ================================================================== *)
(** * The examples of the README and of the test suite *)
(* ================================================================== *)

(** [toULY] of nozugum. *)
Example toULY_nozugum :
  toULY [0x0646; 0x0648; 0x0632; 0x06C7; 0x06AF; 0x06C7; 0x0645]
  = utf16 "nozugum".
Proof. reflexivity. Qed.

(** [toULY] drops the hamza of uyghur. *)
Example toULY_uyghur :
  toULY [0x0626; 0x06C7; 0x064A; 0x063A; 0x06C7; 0x0631]
  = utf16 "uyghur".
Proof. reflexivity. Qed.

(** [toULY] of uyghurche. *)
Example toULY_uyghurche :
  toULY [0x0626; 0x06C7; 0x064A; 0x063A; 0x06C7; 0x0631; 0x0686; 0x06D5]
  = utf16 "uyghurche".
Proof. reflexivity. Qed.

(** [toULY] keeps the space of salam dunya. *)
Example toULY_salam_dunya :
  toULY [0x0633; 0x0627; 0x0644; 0x0627; 0x0645; 0x0020; 0x062F; 0x06C7; 0x0646; 0x064A; 0x0627]
  = utf16 "salam dunya".
Proof. reflexivity. Qed.

(** [toULY] of the vowel with diaeresis. *)
Example toULY_oy :
  toULY [0x0626; 0x06C6; 0x064A]
  = [0x00F6; 0x0079].
Proof. reflexivity. Qed.

(** [toArabic] of salam. *)
Example toArabic_salam :
  toArabic (U := reference) (utf16 "salam")
  = [0x0633; 0x0627; 0x0644; 0x0627; 0x0645].
Proof. reflexivity. Qed.

(** [toArabic] matches the sequence sh first. *)
Example toArabic_sheher :
  toArabic (U := reference) (utf16 "sheher")
  = [0x0634; 0x06D5; 0x06BE; 0x06D5; 0x0631].
Proof. reflexivity. Qed.

(** [toArabic] is case-insensitive. *)
Example toArabic_upper :
  toArabic (U := reference) (utf16 "SALAM")
  = [0x0633; 0x0627; 0x0644; 0x0627; 0x0645].
Proof. reflexivity. Qed.

(** [transliterate] in both directions. *)
Example transliterate_both :
  (transliterate (U := reference) [0x0646; 0x0648; 0x0632; 0x06C7; 0x06AF; 0x06C7; 0x0645] None,
   transliterate (U := reference) (utf16 "salam") None)
  = (utf16 "nozugum", [0x0633; 0x0627; 0x0644; 0x0627; 0x0645]).
Proof. reflexivity. Qed.

(** [generateSlug] of an English title. *)
Example generateSlug_english :
  generateSlug (U := reference) (utf16 "The Story of Nozugum") None
  = Some (utf16 "the-story-of-nozugum").
Proof. reflexivity. Qed.

(** [generateSlug] transliterates Arabic script first. *)
Example generateSlug_uyghur :
  generateSlug (U := reference) [0x0646; 0x0648; 0x0632; 0x06C7; 0x06AF; 0x06C7; 0x0645; 0x0020; 0x062F; 0x0627; 0x0633; 0x062A; 0x0627; 0x0646; 0x0649] None
  = Some (utf16 "nozugum-dastani").
Proof. reflexivity. Qed.

(** [generateSlug] of mixed text. *)
Example generateSlug_mixed :
  generateSlug (U := reference) [0x0646; 0x0648; 0x0632; 0x06C7; 0x06AF; 0x06C7; 0x0645; 0x0020; 0x0032; 0x0030; 0x0032; 0x0034] None
  = Some (utf16 "nozugum-2024").
Proof. reflexivity. Qed.

(** The README's [generateSlug('Very Long Title Here', { maxLength: 10 })]. *)
Example generateSlug_README :
  generateSlug (U := reference) (utf16 "Very Long Title Here") (only_maxLength 10)
  = Some (utf16 "very-long").
Proof. reflexivity. Qed.

(** [detectScript] on the examples of the specification and of the tests. *)
Example detectScript_examples :
  map detectScript
    [[0x0646; 0x0648; 0x0632; 0x06C7; 0x06AF; 0x06C7; 0x0645];
     utf16 "Hello"; [0x4F60; 0x597D];
     [0x041F; 0x0440; 0x0438; 0x0432; 0x0435; 0x0442];
     []; utf16 "Hello " ++ [0x0646; 0x0648; 0x0632; 0x06C7; 0x06AF; 0x06C7; 0x0645];
     [0x0645; 0x0631; 0x062D; 0x0628; 0x0627]]
  = [Script.uyghur; Script.latin; Script.chinese; Script.cyrillic;
     Script.unknown; Script.mixed; Script.arabic].
Proof. reflexivity. Qed.

(** [normalizeUyghur] deletes the zero-width non-joiner. *)
Example normalizeUyghur_zwnj :
  normalizeUyghur (U := reference) [0x0633; 0x0627; 0x0644; 0x0627; 0x0645; 0x200C]
  = [0x0633; 0x0627; 0x0644; 0x0627; 0x0645].
Proof. reflexivity. Qed.

(** [normalizeForSearch] deletes the leading hamza. *)
Example normalizeForSearch_hamza :
  normalizeForSearch (U := reference) [0x0626; 0x06C7; 0x064A; 0x063A; 0x06C7; 0x0631; 0x0686; 0x06D5]
  = [0x06C7; 0x064A; 0x063A; 0x06C7; 0x0631; 0x0686; 0x06D5].
Proof. reflexivity. Qed.

(** [normalizeForSearch] folds the case of Latin letters. *)
Example normalizeForSearch_case :
  normalizeForSearch (U := reference) (utf16 "HELLO")
  = utf16 "hello".
Proof. reflexivity. Qed.

(** [areEquivalent] up to the hamza. *)
Example areEquivalent_hamza :
  areEquivalent (U := reference) [0x0626; 0x06C7; 0x064A; 0x063A; 0x06C7; 0x0631] [0x06C7; 0x064A; 0x063A; 0x06C7; 0x0631]
  = true.
Proof. reflexivity. Qed.

(** [toWesternNumerals] leaves other characters as they are. *)
Example toWesternNumerals_2024 :
  toWesternNumerals [0x0633; 0x0627; 0x0644; 0x003A; 0x0020; 0x0662; 0x0660; 0x0662; 0x0664]
  = [0x0633; 0x0627; 0x0644; 0x003A; 0x0020; 0x0032; 0x0030; 0x0032; 0x0034].
Proof. reflexivity. Qed.

(** [toArabicIndicNumerals] of a year. *)
Example toArabicIndicNumerals_2024 :
  toArabicIndicNumerals (utf16 "Year: 2024")
  = utf16 "Year: " ++ [0x0662; 0x0660; 0x0662; 0x0664].
Proof. reflexivity. Qed.

(** [parseNumber] on the examples of its documentation. *)
Example parseNumber_examples :
  map parseNumber [[0x0662; 0x0660; 0x0662; 0x0664]; utf16 "2024"; utf16 "abc"]
  = [Integer false 2024; Integer false 2024; NaN].
Proof. reflexivity. Qed.

(** [generateSlug] of a second title in Arabic script. *)
Example generateSlug_medeniyiti :
  generateSlug (U := reference) [0x0626; 0x06C7; 0x064A; 0x063A; 0x06C7; 0x0631; 0x0020; 0x0645; 0x06D5; 0x062F; 0x06D5; 0x0646; 0x0649; 0x064A; 0x0649; 0x062A; 0x0649] None
  = Some (utf16 "uyghur-medeniyiti").
Proof. reflexivity. Qed.

(** [generateSlug] decomposes the vowel with diaeresis that [toULY] wrote
    and deletes the mark. *)
Example generateSlug_oy :
  generateSlug (U := reference) [0x0626; 0x06C6; 0x064A] None
  = Some (utf16 "oy").
Proof. reflexivity. Qed.

(** The threshold of the truncation is a double: for [maxLength] 10 it is 7,
    and an index of 7 is not beyond it; for [maxLength] 90 it is below 63,
    and an index of 63 is beyond it. *)
Example truncation_thresholds :
  (double_gt (double_of_Z 7) (double_mul (double_of_Z 10) double_0_7),
   double_gt (double_of_Z 8) (double_mul (double_of_Z 10) double_0_7),
   double_gt (double_of_Z 63) (double_mul (double_of_Z 90) double_0_7),
   double_gt (double_of_Z 70) (double_mul (double_of_Z 100) double_0_7))
  = (false, true, true, false).
Proof. reflexivity. Qed.

(** The examples of [arabicToLatin] in the specification: nozugum, salam
    dunya and uyghurche. *)
Example arabicToLatin_examples :
  map arabicToLatin
    [[0x0646; 0x0648; 0x0632; 0x06C7; 0x06AF; 0x06C7; 0x0645];
     [0x0633; 0x0627; 0x0644; 0x0627; 0x0645; 0x0020; 0x062F; 0x06C7; 0x0646; 0x064A; 0x0627];
     [0x0626; 0x06C7; 0x064A; 0x063A; 0x06C7; 0x0631; 0x0686; 0x06D5]]
  = [utf16 "nozugum"; utf16 "salam dunya"; utf16 "uyghurche"].
Proof. reflexivity. Qed.

(** The examples of [generateSlug] in the specification. *)
Example generateSlug_examples :
  (generateSlug (U := reference) [0x0646; 0x0648; 0x0632; 0x06C7; 0x06AF; 0x06C7; 0x0645; 0x0020; 0x062F; 0x0627; 0x0633; 0x062A; 0x0627; 0x0646; 0x0649] None,
   generateSlug (U := reference) (utf16 "The Story of Nozugum") None)
  = (Some (utf16 "nozugum-dastani"), Some (utf16 "the-story-of-nozugum")).
Proof. reflexivity. Qed.

(** The examples of search normalization in the specification:
    [normalizeForSearch] deletes the leading hamza of uyghurche, and uyghur
    with and without its hamza are equivalent. *)
Example normalizeForSearch_examples :
  normalizeForSearch (U := reference) [0x0626; 0x06C7; 0x064A; 0x063A; 0x06C7; 0x0631; 0x0686; 0x06D5]
  = [0x06C7; 0x064A; 0x063A; 0x06C7; 0x0631; 0x0686; 0x06D5]
  /\ areEquivalent (U := reference) [0x0626; 0x06C7; 0x064A; 0x063A; 0x06C7; 0x0631] [0x06C7; 0x064A; 0x063A; 0x06C7; 0x0631] = true.
Proof. split; reflexivity. Qed.

(** The examples of the README and of the test suite for the functions of
    the further properties. *)
Example further_examples :
  isValidSlug (utf16 "nozugum-dastani") None = Some true
  /\ isValidSlug (utf16 "Invalid Slug") None = Some false
  /\ isValidSlug (utf16 "-invalid") None = Some false
  /\ isValidSlug (utf16 "a") None = Some true
  /\ isValidSlug [] None = Some false
  /\ getTextDirection (utf16 "Hello") = Direction.ltr
  /\ getTextDirection [0x0646; 0x0648; 0x0632; 0x06C7; 0x06AF; 0x06C7; 0x0645]
     = Direction.rtl
  /\ isRTL (utf16 "Hello World") = false
  /\ extractNumbers (utf16 "Page 123 of 456")
     = [Integer false 123; Integer false 456]
  /\ formatNumber (Integer false 2024) (Some NumeralSystem.arabic_indic)
     = Some [0x0662; 0x0660; 0x0662; 0x0664]
  /\ formatNumber (Integer false 2024) (Some NumeralSystem.western)
     = Some (utf16 "2024").
Proof. repeat (split; [vm_compute; reflexivity|]). vm_compute; reflexivity. Qed.

(** With a [maxLength] of 3 the cut can end in a separator: the threshold
    3 * 0.7 lies above the index 2 of the separator, and the slug is one
    that [isValidSlug] rejects. *)
Example generateSlug_short_cut :
  generateSlug (U := reference) (utf16 "ab cd") (only_maxLength 3)
  = Some (utf16 "ab-")
  /\ isValidSlug (utf16 "ab-") None = Some false
  /\ double_gt (double_of_Z (3 - 1)) (double_mul (double_of_Z 3) double_0_7)
     = false.
Proof. repeat (split; [vm_compute; reflexivity|]). vm_compute; reflexivity. Qed.

(** [parseInt] returns doubles: 2^53 + 1 is read as 2^53, the integers from
    2^1024 - 2^970 on as an infinity, so a run of 310 digits too, and a
    signed zero keeps its sign. *)
Example parseNumber_rounding :
  parseNumber (utf16 "9007199254740993") = Integer false 9007199254740992
  /\ parseNumber (utf16 "-9007199254740993") = Integer true 9007199254740992
  /\ number_of_integer false (2 ^ 1024 - 2 ^ 970 - 1)
     = Integer false (2 ^ 1024 - 2 ^ 971)
  /\ number_of_integer false (2 ^ 1024 - 2 ^ 970) = Infinity false
  /\ parseNumber (0x31 :: repeat 0x30 309) = Infinity false
  /\ parseNumber (0x2D :: 0x31 :: repeat 0x30 309) = Infinity true
  /\ extractNumbers (0x2D :: 0x31 :: repeat 0x30 309) = [Infinity false]
  /\ parseNumber (utf16 "-0") = Integer true 0
  /\ formatNumber (Infinity true) None = Some (utf16 "-Infinity")
  /\ parseNumber (utf16 "-Infinity") = NaN.
Proof. repeat (split; [vm_compute; reflexivity|]). vm_compute; reflexivity. Qed.

(** The truncation with a separator of two characters: cut at 8, the slug
    ends in its last separator, at index 6 beyond 5.6, and is cut there; cut
    at 7, the last separator is at index 2 and the hard cut is kept. *)
Example slug_truncate_long_separator :
  slug_truncate (utf16 "ab--cd--ef")
    {| RequiredSlugOptions.maxLength := 8;
       RequiredSlugOptions.separator := utf16 "--";
       RequiredSlugOptions.lowercase := true;
       RequiredSlugOptions.trim := true |}
  = utf16 "ab--cd"
  /\ slug_truncate (utf16 "ab--cd--ef")
       {| RequiredSlugOptions.maxLength := 7;
          RequiredSlugOptions.separator := utf16 "--";
          RequiredSlugOptions.lowercase := true;
          RequiredSlugOptions.trim := true |}
     = utf16 "ab--cd-".
Proof. split; vm_compute; reflexivity. Qed.
